(** * AI Studio Bridge: response ingestion and patch application

    A shallow embedding of the response handler of the extension
    ([handleAIResponse], [normalizeJsonLikeResponse], [applySearchReplace],
    [patchEnvelopeToDiffForFile]) and of [generateSystemPrompt], together
    with the properties stated for them.

    JavaScript strings are modelled as lists of characters ([list ascii]);
    the functions below only ever compare characters for equality or test
    them for white space, so nothing depends on the width of a code unit. *)

From Stdlib Require Import Ascii String.
From stdpp Require Import base option list strings pretty.

Set Default Proof Using "Type".

(** ** Strings *)

Definition str := list ascii.

Definition lit (s : string) : str := list_ascii_of_string s.
Arguments lit s%_string.

Definition LF : ascii := "010"%char.
Definition CR : ascii := "013"%char.

(** [s.startsWith(p)] *)
Fixpoint startsWith (s p : str) {struct p} : bool :=
  match p, s with
  | [], _ => true
  | _ :: _, [] => false
  | a :: p', b :: s' => if Ascii.eqb a b then startsWith s' p' else false
  end.

(** [s.indexOf(p)]; [None] stands for [-1]. *)
Fixpoint indexOf (s p : str) : option nat :=
  if startsWith s p then Some 0
  else match s with
       | [] => None
       | _ :: s' => S <$> indexOf s' p
       end.

(** [s.indexOf(p, from)] *)
Definition indexOf_from (s p : str) (from : nat) : option nat :=
  let from' := from `min` length s in
  (fun i => from' + i) <$> indexOf (drop from' s) p.

(** [s.lastIndexOf(p)] *)
Fixpoint lastIndexOf (s p : str) : option nat :=
  match s with
  | [] => if startsWith [] p then Some 0 else None
  | _ :: s' =>
      match lastIndexOf s' p with
      | Some i => Some (S i)
      | None => if startsWith s p then Some 0 else None
      end
  end.

(** [s.substring(a, b)]: the arguments are clamped and swapped when
    [a > b]. *)
Definition substring (s : str) (a b : nat) : str :=
  take (a `max` b - a `min` b) (drop (a `min` b) s).

(** [s.substring(a)] and, for a non-negative argument, [s.slice(a)] *)
Definition substring_from (s : str) (a : nat) : str := drop a s.

(** [s.slice(a, b)] for non-negative arguments: empty when [b <= a]. *)
Definition slice (s : str) (a b : nat) : str := take (b - a) (drop a s).

(** The white-space class used by [trim] and by [\s] (white space and line
    terminators), over the characters of the model. *)
Definition is_ws (c : ascii) : bool :=
  let n := nat_of_ascii c in
  ((9 <=? n) && (n <=? 13)) || (n =? 32) || (n =? 160).

Fixpoint trimStart (s : str) : str :=
  match s with
  | c :: s' => if is_ws c then trimStart s' else s
  | [] => []
  end.

Definition trimEnd (s : str) : str := reverse (trimStart (reverse s)).

Definition trim (s : str) : str := trimEnd (trimStart s).

(** [parts.join(sep)] *)
Fixpoint join (sep : str) (parts : list str) : str :=
  match parts with
  | [] => []
  | [p] => p
  | p :: ps => p ++ sep ++ join sep ps
  end.

(** Lines of text, joined by line feeds: a way to write the examples. *)
Definition text (ls : list string) : str := join [LF] (lit <$> ls).

(** [s.split('\n')]: always at least one piece. *)
Fixpoint split_on (d : ascii) (s : str) : list str :=
  match s with
  | [] => [[]]
  | c :: s' =>
      if Ascii.eqb c d then [] :: split_on d s'
      else match split_on d s' with
           | l :: ls => (c :: l) :: ls
           | [] => [[c]]
           end
  end.

(** [s.split(/\r?\n/)]: a line break is [\r\n] or [\n]; a carriage return
    that is not followed by a line feed stays in its line. *)
Fixpoint split_lines (s : str) : list str :=
  match s with
  | [] => [[]]
  | c :: s' =>
      let cons_char :=
        match split_lines s' with
        | l :: ls => (c :: l) :: ls
        | [] => [[c]]
        end in
      if Ascii.eqb c LF then [] :: split_lines s'
      else if Ascii.eqb c CR then
        match s' with
        | d :: s'' => if Ascii.eqb d LF then [] :: split_lines s'' else cons_char
        | [] => cons_char
        end
      else cons_char
  end.

(** [s.replace(/\r\n/g, '\n')], the [normalize] closure of
    [applySearchReplace]. *)
Fixpoint normalize (s : str) : str :=
  match s with
  | [] => []
  | c :: s' =>
      match s' with
      | d :: s'' =>
          if Ascii.eqb c CR && Ascii.eqb d LF then LF :: normalize s''
          else c :: normalize s'
      | [] => [c]
      end
  end.

(** [s.replace(p, r)] for a string pattern and a replacement without [$]:
    the first occurrence only. *)
Definition replace_first (s p r : str) : str :=
  match indexOf s p with
  | Some i => take i s ++ r ++ drop (i + length p) s
  | None => s
  end.

(** ** Regular-expression fragments

    The expressions of the source use literals, [\r?\n], [\s*] and the lazy
    [[\s\S]*?].  A matcher takes the text at the current position and
    returns what is left after the match; backtracking into a lazy star is a
    continuation that is tried at every length, shortest first. *)

(** A literal. *)
Definition strip (p s : str) : option str :=
  if startsWith s p then Some (drop (length p) s) else None.

(** [\r?\n].  The optional [\r] is greedy, and giving it back never helps:
    the character at that position is then [\r], not [\n]. *)
Definition eol (s : str) : option str :=
  match s with
  | c :: s' =>
      if Ascii.eqb c LF then Some s'
      else if Ascii.eqb c CR then
        match s' with
        | d :: s'' => if Ascii.eqb d LF then Some s'' else None
        | [] => None
        end
      else None
  | [] => None
  end.

(** [[\s\S]*?] followed by the continuation [k]: the captured text and the
    result of [k] on the first suffix where [k] succeeds. *)
Fixpoint lazy_any {A} (k : str -> option A) (s : str) : option (str * A) :=
  match k s with
  | Some a => Some ([], a)
  | None =>
      match s with
      | [] => None
      | c :: s' =>
          match lazy_any k s' with
          | Some (g, a) => Some (c :: g, a)
          | None => None
          end
      end
  end.

(** ** [applySearchReplace] *)

Definition SEARCH_MARK : str := lit "<<<<<<< SEARCH".
Definition SEP_MARK : str := lit "=======".
Definition REPLACE_MARK : str := lit ">>>>>>> REPLACE".

(** What the user is shown: [vscode.window.show...Message]. *)
Inductive notification :=
  | ShowError (m : str)
  | ShowWarning (m : str)
  | ShowInformation (m : str).

Definition WARN_NOT_FOUND : notification :=
  ShowWarning
    (lit "Could not find SEARCH block in file. Check line endings and indentation.").

(** A match of [blockRegex]: the two groups and the text after the match. *)
Record block_match := BlockMatch {
  bm_search : str;
  bm_replace : str;
  bm_rest : str
}.

(** The end of [blockRegex], from the second group on:
    [\r?\n>>>>>>> REPLACE]; the result is the text after the match. *)
Definition replace_end (q : str) : option str :=
  q1 ← eol q; strip REPLACE_MARK q1.

(** What follows the first group:
    [\r?\n=======\r?\n([\s\S]*?)\r?\n>>>>>>> REPLACE]; the result is the
    second group and the text after the match. *)
Definition search_end (r : str) : option (str * str) :=
  r2 ← eol r;
  r3 ← strip SEP_MARK r2;
  r4 ← eol r3;
  lazy_any replace_end r4.

(** [blockRegex] anchored at the start of [s]:
    [<<<<<<< SEARCH\r?\n([\s\S]*?)\r?\n=======\r?\n([\s\S]*?)\r?\n>>>>>>> REPLACE].
    When the rest fails after a first group, the lazy star takes one more
    character and the rest is tried again. *)
Definition blockRegex_here (s : str) : option block_match :=
  r0 ← strip SEARCH_MARK s;
  r1 ← eol r0;
  '(search, (replace, rest)) ← lazy_any search_end r1;
  Some (BlockMatch search replace rest).

(** [blockRegex.exec(diff)] on the text from [lastIndex] on: the leftmost
    match.  The expression has no anchors and no look-behind, so a match from
    [lastIndex] in [diff] is a match in the suffix of [diff] that starts
    there, and [bm_rest] is the suffix at the new [lastIndex]. *)
Fixpoint blockRegex_exec (s : str) : option block_match :=
  match blockRegex_here s with
  | Some m => Some m
  | None =>
      match s with
      | [] => None
      | _ :: s' => blockRegex_exec s'
      end
  end.

(** The body of the [while] loop: one block against the current result. *)
Definition apply_block (result search replace : str) : str * list notification :=
  let normalizedResult := normalize result in
  let normalizedSearch := normalize search in
  match indexOf normalizedResult normalizedSearch with
  | Some index =>
      (substring normalizedResult 0 index ++ replace ++
       substring_from normalizedResult (index + length normalizedSearch), [])
  | None => (result, [WARN_NOT_FOUND])
  end.

(** The [while ((match = blockRegex.exec(diff)) !== null)] loop; [rest] is
    the part of [diff] from [lastIndex] on.  [None] when the fuel runs out. *)
Fixpoint applySearchReplace_loop (fuel : nat) (rest result : str)
  : option (str * list notification) :=
  match fuel with
  | 0 => None
  | S fuel' =>
      match blockRegex_exec rest with
      | None => Some (result, [])
      | Some m =>
          let '(result', w) := apply_block result (bm_search m) (bm_replace m) in
          '(final, ws) ← applySearchReplace_loop fuel' (bm_rest m) result';
          Some (final, w ++ ws)
      end
  end.

(** [applySearchReplace(original, diff)]: the new content and the warnings
    shown on the way.  Every match consumes at least one character of
    [diff], so [S (length diff)] iterations are enough
    ([applySearchReplace_loop_fuel] below). *)
Definition applySearchReplace (original diff : str) : str * list notification :=
  default (original, []) (applySearchReplace_loop (S (length diff)) diff original).

(** ** [patchEnvelopeToDiffForFile] *)

Definition UPDATE_FILE : str := lit "*** Update File:".
Definition END_PATCH : str := lit "*** End Patch".
Definition HUNK_MARK : str := lit "@@".

(** The locals of the function that the loop and [pushBlock] share. *)
Record patch_state := PatchState {
  inUpdate : bool;
  collects : list str;
  outBlocks : list str
}.

(** The [for (const l of hLines)] loop of [pushBlock]: the lines that go to
    the search side and to the replace side, in order. *)
Fixpoint hunk_sides (hLines search replace : list str) : list str * list str :=
  match hLines with
  | [] => (search, replace)
  | l :: ls =>
      if startsWith l (lit " ") then
        hunk_sides ls (search ++ [substring_from l 1]) (replace ++ [substring_from l 1])
      else if startsWith l (lit "-") then
        hunk_sides ls (search ++ [substring_from l 1]) replace
      else if startsWith l (lit "+") then
        hunk_sides ls search (replace ++ [substring_from l 1])
      else hunk_sides ls search replace
  end.

(** The text pushed for one hunk. *)
Definition block_text (search replace : list str) : str :=
  SEARCH_MARK ++ [LF] ++ join [LF] search ++ [LF] ++ SEP_MARK ++ [LF]
    ++ join [LF] replace ++ [LF] ++ REPLACE_MARK.

Definition pushBlock (st : patch_state) : patch_state :=
  match collects st with
  | [] => st
  | _ :: _ =>
      let hunk := join [LF] (collects st) in
      let hLines := split_on LF hunk in
      let '(search, replace) := hunk_sides hLines [] [] in
      PatchState (inUpdate st) [] (outBlocks st ++ [block_text search replace])
  end.

(** The [for] loop over the lines of the envelope; [break] leaves the loop
    with the current state. *)
Fixpoint patch_loop (targetFile : str) (lines : list str) (st : patch_state)
  : patch_state :=
  match lines with
  | [] => st
  | l :: ls =>
      if startsWith l UPDATE_FILE then
        let f := trim (replace_first l UPDATE_FILE []) in
        patch_loop targetFile ls
          (PatchState (bool_decide (f = targetFile)) (collects st) (outBlocks st))
      else if negb (inUpdate st) then patch_loop targetFile ls st
      else if startsWith l HUNK_MARK then
        let st' := pushBlock st in
        patch_loop targetFile ls (PatchState (inUpdate st') [] (outBlocks st'))
      else if startsWith l END_PATCH then st
      else if startsWith l (lit " ") || startsWith l (lit "-") || startsWith l (lit "+") then
        patch_loop targetFile ls
          (PatchState (inUpdate st) (collects st ++ [l]) (outBlocks st))
      else patch_loop targetFile ls st
  end.

Definition patchEnvelopeToDiffForFile (patch targetFile : str) : str :=
  let lines := split_lines patch in
  let st := patch_loop targetFile lines (PatchState false [] []) in
  join [LF] (outBlocks (pushBlock st)).

(** ** [normalizeJsonLikeResponse] *)

Definition QUOTE : ascii := ascii_of_nat 34.
Definition BACKSLASH : ascii := ascii_of_nat 92.

(** [g1.replace(/\\/g, "\\\\").replace(/"/g, '\\"')] *)
Definition escape_backslashes (s : str) : str :=
  c ← s; if Ascii.eqb c BACKSLASH then [BACKSLASH; BACKSLASH] else [c].

Definition escape_quotes (s : str) : str :=
  c ← s; if Ascii.eqb c QUOTE then [BACKSLASH; QUOTE] else [c].

Definition esc (g1 : str) : str := escape_quotes (escape_backslashes g1).

(** The expression [r] anchored at the start of [s]:
    ["content"\s*:\s*"(<<<<<<< SEARCH[\s\S]*?>>>>>>> REPLACE)"].
    The result is the group and the text after the match.  [\s*] is greedy
    and what follows it is never white space, so it takes the whole run. *)
Definition contentRegex_here (s : str) : option (str * str) :=
  r0 ← strip ([QUOTE] ++ lit "content" ++ [QUOTE]) s;
  r1 ← strip (lit ":") (trimStart r0);
  r2 ← strip [QUOTE] (trimStart r1);
  r3 ← strip SEARCH_MARK r2;
  '(g, rest) ← lazy_any (fun q => strip (REPLACE_MARK ++ [QUOTE]) q) r3;
  Some (SEARCH_MARK ++ g ++ REPLACE_MARK, rest).

(** [s.replace(r, (_m, g1) => ...)] with the [g] flag: every match, left to
    right, each search resuming after the previous match.  [None] when the
    fuel runs out. *)
Fixpoint normalizeJson_loop (fuel : nat) (s : str) : option str :=
  match fuel with
  | 0 => None
  | S fuel' =>
      match contentRegex_here s with
      | Some (g1, rest) =>
          out ← normalizeJson_loop fuel' rest;
          Some (([QUOTE] ++ lit "content" ++ [QUOTE] ++ lit ":" ++ [QUOTE])
                  ++ esc g1 ++ [QUOTE] ++ out)
      | None =>
          match s with
          | [] => Some []
          | c :: s' => out ← normalizeJson_loop fuel' s'; Some (c :: out)
          end
      end
  end.

Definition normalizeJsonLikeResponse (t : str) : str :=
  default t (normalizeJson_loop (S (length t)) t).

(** ** JSON values *)

(** The result of [JSON.parse].  Of a number the code only ever inspects
    whether it is zero. *)
#[warnings="-register-all"]
Inductive json :=
  | JNull
  | JBool (b : bool)
  | JNum (n : Z)
  | JStr (s : str)
  | JArr (items : list json)
  | JObj (fields : list (str * json)).

(** Own properties of an object, in insertion order. *)
Fixpoint obj_get (fields : list (str * json)) (k : str) : option json :=
  match fields with
  | [] => None
  | (k', v) :: fs => if bool_decide (k' = k) then Some v else obj_get fs k
  end.

(** Assignment to a property: in place when the key exists, appended
    otherwise. *)
Fixpoint obj_set (fields : list (str * json)) (k : str) (v : json)
  : list (str * json) :=
  match fields with
  | [] => [(k, v)]
  | (k', v') :: fs =>
      if bool_decide (k' = k) then (k, v) :: fs else (k', v') :: obj_set fs k v
  end.

(** [v.k] for a value [v] that is not [null]; [None] is [undefined].  None
    of the names the handler reads is a property of arrays, strings, numbers
    or booleans. *)
Definition prop (v : json) (k : str) : option json :=
  match v with
  | JObj fields => obj_get fields k
  | _ => None
  end.

(** [ToBoolean] *)
Definition truthy (v : json) : bool :=
  match v with
  | JNull => false
  | JBool b => b
  | JNum n => negb (n =? 0)%Z
  | JStr s => negb (bool_decide (s = []))
  | JArr _ | JObj _ => true
  end.

Definition truthy_opt (v : option json) : bool :=
  match v with Some v => truthy v | None => false end.

(** [Array.isArray] *)
Definition isArray (v : json) : bool :=
  match v with JArr _ => true | _ => false end.

Definition isArray_opt (v : option json) : bool :=
  match v with Some v => isArray v | None => false end.

Definition K_status : str := lit "status".
Definition K_code_changes : str := lit "code_changes".
Definition K_request_files : str := lit "request_files".
Definition K_file_path : str := lit "file_path".
Definition K_type : str := lit "type".
Definition K_content : str := lit "content".

Definition S_COMPLETED : str := lit "COMPLETED".
Definition S_NEED_CONTEXT : str := lit "NEED_CONTEXT".
Definition T_FULL_REWRITE : str := lit "FULL_REWRITE".
Definition T_DIFF : str := lit "DIFF".
Definition T_PATCH : str := lit "PATCH".

(** ** Extraction of the JSON payload ([handleAIResponse], the [try] block) *)

Definition FENCE : str := lit "```".

(** [inner.replace(/^json\s*/, '')] *)
Definition strip_json_tag (s : str) : str :=
  match strip (lit "json") s with
  | Some r => trimStart r
  | None => s
  end.

(** [t.replace(/^```(json)?\s*/, '')] *)
Definition strip_leading_fence (s : str) : str :=
  match strip FENCE s with
  | Some r => trimStart (default r (strip (lit "json") r))
  | None => s
  end.

(** [\s*```$] anchored at the start of [s]: the run of white space, then the
    fence, then the end of the text. *)
Definition trailing_fence_here (s : str) : bool :=
  bool_decide (trimStart s = FENCE).

(** [s.replace(/\s*```$/, '')]: the leftmost match is removed. *)
Fixpoint strip_trailing_fence (s : str) : str :=
  if trailing_fence_here s then []
  else match s with
       | [] => []
       | c :: s' => c :: strip_trailing_fence s'
       end.

(** The candidates, in the order in which they are pushed. *)
Definition candidates (t : str) : list str :=
  let fenced :=
    match indexOf t FENCE with
    | Some fenceStart =>
        match indexOf_from t FENCE (fenceStart + 3) with
        | Some fenceEnd =>
            let inner := trim (slice t (fenceStart + 3) fenceEnd) in
            [trim (strip_json_tag inner)]
        | None => [trim (strip_trailing_fence (strip_leading_fence t))]
        end
    | None => []
    end in
  let span (open close : str) :=
    match indexOf t open, lastIndexOf t close with
    | Some bStart, Some bEnd =>
        if bStart <? bEnd then [substring t bStart (bEnd + 1)] else []
    | _, _ => []
    end in
  fenced ++ [t] ++ span (lit "[") (lit "]") ++ span (lit "{") (lit "}").

(** The coercion of the parsed value into [data]. *)
Definition coerce (parsed : json) : json :=
  if isArray parsed then
    JObj [(K_status, JStr S_COMPLETED); (K_code_changes, parsed)]
  else if truthy parsed && negb (truthy_opt (prop parsed K_status))
          && isArray_opt (prop parsed K_code_changes) then
    match parsed with
    | JObj fields => JObj (obj_set fields K_status (JStr S_COMPLETED))
    | _ => parsed
    end
  else parsed.

(** ** The handler *)

(** One entry of [code_changes] with the fields the handler reads. *)
Record change := Change {
  file_path : str;
  type : str;
  content : str
}.

(** How the handler sees an entry of [code_changes].  [EntryNull]: reading
    [change.type] of [null] throws.  [EntryDropped]: the [type] is not one of
    the three, the entry never reaches a file.  [EntryUntyped]: the [type] is
    one of the three but [file_path] or [content] is not a string; the
    embedding does not follow such entries. *)
Inductive entry :=
  | EntryNull
  | EntryDropped
  | EntryKept (c : change)
  | EntryUntyped.

Definition recognized_type (t : str) : bool :=
  bool_decide (t = T_FULL_REWRITE) || bool_decide (t = T_DIFF)
  || bool_decide (t = T_PATCH).

Definition decode_entry (e : json) : entry :=
  match e with
  | JNull => EntryNull
  | JObj fields =>
      match obj_get fields K_type with
      | Some (JStr t) =>
          if recognized_type t then
            match obj_get fields K_file_path, obj_get fields K_content with
            | Some (JStr p), Some (JStr c) => EntryKept (Change p t c)
            | _, _ => EntryUntyped
            end
          else EntryDropped
      | _ => EntryDropped
      end
  | _ => EntryDropped
  end.

(** [changesByFile]: a [Map] iterates in the order in which its keys were
    first set. *)
Definition changes_map := list (str * list change).

Fixpoint map_get (m : changes_map) (k : str) : option (list change) :=
  match m with
  | [] => None
  | (k', arr) :: m' => if bool_decide (k' = k) then Some arr else map_get m' k
  end.

Fixpoint map_set (m : changes_map) (k : str) (arr : list change) : changes_map :=
  match m with
  | [] => [(k, arr)]
  | (k', arr') :: m' =>
      if bool_decide (k' = k) then (k, arr) :: m' else (k', arr') :: map_set m' k arr
  end.

(** The body of the grouping loop for a kept entry. *)
Definition group_change (changesByFile : changes_map) (c : change) : changes_map :=
  let arr := default [] (map_get changesByFile (file_path c)) in
  map_set changesByFile (file_path c) (arr ++ [c]).

(** The body of [for (const change of changes)]: one edit against the
    working content. *)
Definition apply_change (workingContent : str) (c : change)
  : str * list notification :=
  if bool_decide (type c = T_FULL_REWRITE) then (content c, [])
  else if bool_decide (type c = T_DIFF) then
    applySearchReplace workingContent (content c)
  else if bool_decide (type c = T_PATCH) then
    let asDiff := patchEnvelopeToDiffForFile (content c) (file_path c) in
    applySearchReplace workingContent asDiff
  else (workingContent, []).

Fixpoint apply_changes (workingContent : str) (changes : list change)
  : str * list notification :=
  match changes with
  | [] => (workingContent, [])
  | c :: cs =>
      let '(w, n1) := apply_change workingContent c in
      let '(w', n2) := apply_changes w cs in
      (w', n1 ++ n2)
  end.

(** The operations recorded in a [vscode.WorkspaceEdit]. *)
Inductive edit_op :=
  | EditReplace (uri newText : str)
  | EditCreateFile (uri : str)
  | EditInsert (uri newText : str).

(** The module-level variables the handler reads and writes. *)
Record state := State {
  currentRound : nat;
  currentStagingRoot : str;
  currentRoundDir : str;
  lastSystemPrompt : str
}.

Inductive action := ERROR | COMPLETED | NEED_CONTEXT | UNKNOWN.

(** How the call ends: the promise resolves with [{ action }], or it rejects
    with an uncaught exception. *)
Inductive completion :=
  | Return (a : action)
  | Throw.

(** What a call leaves behind: the module-level variables, the world (the
    state of the file system and of the editor), the messages shown, in
    order, and how the call ended. *)
Record outcome (world : Type) := Outcome {
  out_state : state;
  out_world : world;
  out_shown : list notification;
  out_result : completion
}.
Arguments Outcome {world} _ _ _ _.
Arguments out_state {world} _.
Arguments out_world {world} _.
Arguments out_shown {world} _.
Arguments out_result {world} _.

(** [fp.split('/').join('__') + '.txt'] *)
Definition flatName (fp : str) : str :=
  join (lit "__") (split_on "/"%char fp) ++ lit ".txt".

Definition REVIEW_PROMPT : str :=
  lit "Here are the modified pages after changes, please confirm to the user if the changes have been correctly applied.".

Definition STRUCTURE_FILE : str := lit "_PROJECT_STRUCTURE.txt".

Definition WARN_NO_CHANGES : notification :=
  ShowWarning (lit "Status is COMPLETED but no code_changes found.").

Definition WARN_NO_STATUS : notification :=
  ShowWarning
    (lit "Response missing valid status. Paste either an object with 'status' or an array of code changes.").

Definition ERR_INVALID_JSON : notification :=
  ShowError (lit "Invalid JSON. Check VS Code Debug Console for raw output.").

Definition ERR_APPLY_FAILED : notification :=
  ShowError (lit "Failed to apply workspace edit.").

Definition ERR_PREPARE (filePath : str) : notification :=
  ShowError (lit "Failed to prepare edit for " ++ filePath).

Section Handler.

(** What the handler calls from outside.  The [world] is the state of the
    file system and of the editor; the handler reads and changes it only
    through the calls below, and nothing is assumed of them.  A call that
    can throw returns whether it returned normally, together with the world
    it left behind.

    - [JSON.parse]: [None] when it throws;
    - the variadic [path.join], and [path.dirname];
    - [fs.existsSync];
    - [fs.mkdirSync(dir, { recursive: true })] and [fs.copyFileSync(src, dst)];
    - [(await vscode.workspace.openTextDocument(uri)).getText()]: the text of
      the document, [None] when the document cannot be opened;
    - [vscode.workspace.applyEdit], which reports success.

    The text that [generateSystemPrompt] builds is a parameter here as well:
    the handler only stores it.  The web view ([currentPanel],
    [updateWebview]) is not part of the model. *)
Context {world : Type}.
Variable JSON_parse : str -> option json.
Variable path_join : list str -> str.
Variable path_dirname : str -> str.
Variable existsSync : world -> str -> bool.
Variable mkdirSync : str -> world -> bool * world.
Variable copyFileSync : str -> str -> world -> bool * world.
Variable openTextDocument : str -> world -> option str * world.
Variable generateSystemPrompt : str -> list str -> str.
Variable applyEdit : list edit_op -> world -> bool * world.

(** The loop over the candidates: empty ones are skipped, the first one
    that parses wins. *)
Fixpoint first_parse (cs : list str) : option json :=
  match cs with
  | [] => None
  | c :: cs' =>
      match c with
      | [] => first_parse cs'
      | _ :: _ =>
          match JSON_parse c with
          | Some parsed => Some parsed
          | None => first_parse cs'
          end
      end
  end.

(** The value extracted from the response, before the coercion. *)
Definition extract_json (jsonText : str) : option json :=
  let t := normalizeJsonLikeResponse (trim jsonText) in
  first_parse (candidates t).

(** The [try] block: [data], or [None] when it ends in the [catch]. *)
Definition parse_response (jsonText : str) : option json :=
  coerce <$> extract_json jsonText.

(** *** Status [COMPLETED] *)

Inductive grouping :=
  | GroupThrow
  | GroupUntyped
  | Grouped (changesByFile : changes_map).

Fixpoint group_entries (items : list json) (changesByFile : changes_map)
  : grouping :=
  match items with
  | [] => Grouped changesByFile
  | e :: es =>
      match decode_entry e with
      | EntryNull => GroupThrow
      | EntryDropped => group_entries es changesByFile
      | EntryKept c => group_entries es (group_change changesByFile c)
      | EntryUntyped => GroupUntyped
      end
  end.

(** One iteration of the loop over [changesByFile.entries()]: the
    operations added to the workspace edit, whether the iteration reached
    [appliedCount++], the messages shown, and the world it leaves.  The body
    runs in a [try]: when [mkdirSync] or [openTextDocument] throws, the
    [catch] shows an error and nothing is recorded for the file. *)
Definition prepare_file (workspaceRoot : str) (w : world)
    (filePath : str) (changes : list change)
  : list edit_op * bool * list notification * world :=
  let targetPath := path_join [workspaceRoot; filePath] in
  let '(made, w1) := mkdirSync (path_dirname targetPath) w in
  if made then
    if existsSync w1 targetPath then
      match openTextDocument targetPath w1 with
      | (Some text, w2) =>
          let '(workingContent, shown) := apply_changes text changes in
          ([EditReplace targetPath workingContent], true, shown, w2)
      | (None, w2) => ([], false, [ERR_PREPARE filePath], w2)
      end
    else
      let '(workingContent, shown) := apply_changes [] changes in
      ([EditCreateFile targetPath; EditInsert targetPath workingContent],
       true, shown, w1)
  else ([], false, [ERR_PREPARE filePath], w1).

(** The whole loop: the workspace edit, [appliedCount], the messages, and
    the world after the directories were made and the documents opened. *)
Fixpoint prepare_files (workspaceRoot : str) (w : world)
    (changesByFile : changes_map)
  : list edit_op * nat * list notification * world :=
  match changesByFile with
  | [] => ([], 0, [], w)
  | (filePath, changes) :: rest =>
      let '(ops, counted, shown, w1) :=
        prepare_file workspaceRoot w filePath changes in
      let '(ops', appliedCount, shown', w2) :=
        prepare_files workspaceRoot w1 rest in
      (ops ++ ops', (if counted then 1 else 0) + appliedCount, shown ++ shown', w2)
  end.

Definition round_dir (st : state) (round : nat) : str :=
  path_join [currentStagingRoot st; lit "round_" ++ lit (pretty round)].

(** The copies of the snapshot, in the order of the files.  A
    [copyFileSync] that throws ends the loop: [false]. *)
Fixpoint snapshot_files (workspaceRoot roundDir : str)
    (modifiedFiles : list str) (w : world) : bool * world :=
  match modifiedFiles with
  | [] => (true, w)
  | fp :: rest =>
      let srcPath := path_join [workspaceRoot; fp] in
      if existsSync w srcPath then
        let '(copied, w1) :=
          copyFileSync srcPath (path_join [roundDir; flatName fp]) w in
        if copied then snapshot_files workspaceRoot roundDir rest w1
        else (false, w1)
      else snapshot_files workspaceRoot roundDir rest w
  end.

(** The snapshot round staged after a successful edit.  The block runs in a
    [try] with an empty [catch], and [currentRound++] comes first in it:
    when [mkdirSync] or a copy throws, the round index is advanced all the
    same, and the round directory and the prompt stay as they were. *)
Definition snapshot_round (workspaceRoot : str) (st : state) (w : world)
    (modifiedFiles : list str) : state * world :=
  let round := S (currentRound st) in
  let roundDir := round_dir st round in
  let '(made, w1) := mkdirSync roundDir w in
  let '(copied, w2) :=
    if made then snapshot_files workspaceRoot roundDir modifiedFiles w1
    else (false, w1) in
  (if copied
   then State round (currentStagingRoot st) roundDir REVIEW_PROMPT
   else State round (currentStagingRoot st) (currentRoundDir st)
          (lastSystemPrompt st),
   w2).

Definition INFO_APPLIED (appliedCount : nat) : notification :=
  ShowInformation
    (lit "Applied changes to " ++ lit (pretty appliedCount)
       ++ lit " files. Please review and save.").

(** [None]: an entry of a recognized type whose [file_path] or [content] is
    not a string, which the embedding does not follow. *)
Definition handle_completed (workspaceRoot : str) (st : state) (w : world)
    (data : json) : option (outcome world) :=
  match prop data K_code_changes with
  | Some (JArr items) =>
      match group_entries items [] with
      | GroupThrow => Some (Outcome st w [] Throw)
      | GroupUntyped => None
      | Grouped changesByFile =>
          let '(edit, appliedCount, shown, w0) :=
            prepare_files workspaceRoot w changesByFile in
          if 0 <? appliedCount then
            let '(success, w1) := applyEdit edit w0 in
            if success then
              let '(st', w2) :=
                snapshot_round workspaceRoot st w1 (changesByFile.*1) in
              Some (Outcome st' w2 (shown ++ [INFO_APPLIED appliedCount])
                      (Return COMPLETED))
            else
              Some (Outcome st w1 (shown ++ [ERR_APPLY_FAILED]) (Return COMPLETED))
          else Some (Outcome st w0 (shown ++ [WARN_NO_CHANGES]) (Return COMPLETED))
      end
  | _ => Some (Outcome st w [WARN_NO_CHANGES] (Return COMPLETED))
  end.

(** *** Status [NEED_CONTEXT] *)

(** The [try] block that keeps the structure listing available: the
    listing of round 1 is copied when it exists; when the copy throws, the
    empty [catch] leaves [stagedFiles] as it was. *)
Definition stage_listing (st : state) (roundDir : str) (w : world)
  : world * list str :=
  let structFile :=
    path_join [currentStagingRoot st; lit "round_1"; STRUCTURE_FILE] in
  if existsSync w structFile then
    let '(copied, w1) :=
      copyFileSync structFile (path_join [roundDir; STRUCTURE_FILE]) w in
    (w1, if copied then [STRUCTURE_FILE] else [])
  else (w, []).

(** The loop over [data.request_files]: whether it ran to its end, the
    world after the copies, and the staged names.  Nothing catches what the
    loop throws: [path.join] throws on an entry that is not a string, and
    [copyFileSync] may throw. *)
Fixpoint stage_requested (workspaceRoot roundDir : str) (reqs : list json)
    (w : world) (stagedFiles : list str) : bool * world * list str :=
  match reqs with
  | [] => (true, w, stagedFiles)
  | JStr reqFile :: rest =>
      let srcPath := path_join [workspaceRoot; reqFile] in
      if existsSync w srcPath then
        let '(copied, w1) :=
          copyFileSync srcPath (path_join [roundDir; flatName reqFile]) w in
        if copied then
          stage_requested workspaceRoot roundDir rest w1 (stagedFiles ++ [reqFile])
        else (false, w1, stagedFiles)
      else stage_requested workspaceRoot roundDir rest w stagedFiles
  | _ :: _ => (false, w, stagedFiles)
  end.

Definition INFO_ROUND (round files : nat) : notification :=
  ShowInformation
    (lit "Round " ++ lit (pretty round) ++ lit " prepared with "
       ++ lit (pretty files) ++ lit " files.").

(** The staging of the new round, once its directory is made: the listing,
    then the requested files. *)
Definition stage_round (workspaceRoot : str) (st : state) (roundDir : str)
    (w : world) (data : json) : bool * world * list str :=
  let '(w1, stagedFiles) := stage_listing st roundDir w in
  match prop data K_request_files with
  | Some (JArr reqs) => stage_requested workspaceRoot roundDir reqs w1 stagedFiles
  | _ => (true, w1, stagedFiles)
  end.

(** [currentRound++] comes first; [currentRoundDir] is set once the
    directory is made; the prompt and the message come last. *)
Definition handle_need_context (workspaceRoot goal : str) (st : state)
    (w : world) (data : json) : outcome world :=
  let round := S (currentRound st) in
  let roundDir := round_dir st round in
  let '(made, w0) := mkdirSync roundDir w in
  if made then
    let '(staged, w2, stagedFiles) := stage_round workspaceRoot st roundDir w0 data in
    if staged then
      Outcome
        (State round (currentStagingRoot st) roundDir
           (generateSystemPrompt goal stagedFiles))
        w2 [INFO_ROUND round (length stagedFiles)] (Return NEED_CONTEXT)
    else
      Outcome (State round (currentStagingRoot st) roundDir (lastSystemPrompt st))
        w2 [] Throw
  else
    Outcome
      (State round (currentStagingRoot st) (currentRoundDir st) (lastSystemPrompt st))
      w0 [] Throw.

(** *** [handleAIResponse] *)

(** The part after the [try] block.  Reading [data.status] throws when
    [data] is [null]. *)
Definition dispatch (workspaceRoot goal : str) (st : state) (w : world)
    (data : json) : option (outcome world) :=
  match data with
  | JNull => Some (Outcome st w [] Throw)
  | _ =>
      match prop data K_status with
      | Some (JStr s) =>
          if bool_decide (s = S_COMPLETED) then
            handle_completed workspaceRoot st w data
          else if bool_decide (s = S_NEED_CONTEXT) then
            Some (handle_need_context workspaceRoot goal st w data)
          else Some (Outcome st w [WARN_NO_STATUS] (Return UNKNOWN))
      | _ => Some (Outcome st w [WARN_NO_STATUS] (Return UNKNOWN))
      end
  end.

Definition handleAIResponse (jsonText workspaceRoot goal : str)
    (st : state) (w : world) : option (outcome world) :=
  match parse_response jsonText with
  | None => Some (Outcome st w [ERR_INVALID_JSON] (Return ERROR))
  | Some data => dispatch workspaceRoot goal st w data
  end.

End Handler.

(** ** Reference definitions

    The definitions that the properties are stated with.  Some give a
    result of the code in another form (the blocks that the loop reads from
    a diff, the hunks that the conversion collects from an envelope); the
    others follow the wording of the specification, and the properties
    compare them with the code. *)

(** *** Blocks of a diff *)

(** [p] occurs in [s]. *)
Definition occurs (p s : str) : Prop := exists pre post, s = pre ++ p ++ post.


(** A sequence of search/replace blocks applied in order, each against the
    result of the previous one. *)
Fixpoint apply_blocks (blocks : list (str * str)) (content : str)
  : str * list notification :=
  match blocks with
  | [] => (content, [])
  | (search, replace) :: rest =>
      let '(content', w) := apply_block content search replace in
      let '(final, ws) := apply_blocks rest content' in
      (final, w ++ ws)
  end.

(** The blocks of a diff, in the order in which the loop of
    [applySearchReplace] meets them: the successive matches of
    [blockRegex]. *)
Fixpoint diff_blocks_loop (fuel : nat) (rest : str) : list (str * str) :=
  match fuel with
  | 0 => []
  | S fuel' =>
      match blockRegex_exec rest with
      | None => []
      | Some m => (bm_search m, bm_replace m) :: diff_blocks_loop fuel' (bm_rest m)
      end
  end.

Definition diff_blocks (diff : str) : list (str * str) :=
  diff_blocks_loop (S (length diff)) diff.


(** *** The hunks that the conversion collects

    The grouping of [patchEnvelopeToDiffForFile], written with list
    functions.  It follows the conversion, not the specification: the
    sections of the target are read as one run of lines (a hunk that is
    under way when another file's section begins goes on when the target's
    section is entered again), the hunk lines before the first [@@] line
    form a hunk of their own, and [*** End Patch] ends the envelope only
    inside a section of the target. *)

(** The lines of an envelope that belong to the target file: those of the
    sections opened by a [*** Update File:] line with the path of the
    target, up to [*** End Patch]. *)
Fixpoint section_lines (targetFile : str) (lines : list str) (inSection : bool)
  : list str :=
  match lines with
  | [] => []
  | l :: ls =>
      if startsWith l UPDATE_FILE then
        section_lines targetFile ls
          (bool_decide (trim (drop (length UPDATE_FILE) l) = targetFile))
      else if negb inSection then section_lines targetFile ls inSection
      else if startsWith l END_PATCH then []
      else l :: section_lines targetFile ls inSection
  end.

(** Those lines cut at the [@@] lines. *)
Fixpoint group_hunks (lines : list str) (hunk : list str) : list (list str) :=
  match lines with
  | [] => [hunk]
  | l :: ls =>
      if startsWith l HUNK_MARK then hunk :: group_hunks ls []
      else group_hunks ls (hunk ++ [l])
  end.

(** A context line, a removed line or an added line. *)
Definition hunk_line (l : str) : bool :=
  startsWith l (lit " ") || startsWith l (lit "-") || startsWith l (lit "+").

Definition nonempty (hunk : list str) : bool :=
  match hunk with [] => false | _ :: _ => true end.

(** The hunks: the groups, each reduced to its hunk lines, that hold at
    least one. *)
Definition hunks_of_envelope (patch targetFile : str) : list (list str) :=
  List.filter nonempty
    (List.filter hunk_line
       <$> group_hunks (section_lines targetFile (split_lines patch) false) []).

(** The two sides of a hunk: context lines on both, [-] lines in the search
    text only, [+] lines in the replacement only. *)
Definition search_lines (hunk : list str) : list str :=
  omap (fun l => if startsWith l (lit " ") || startsWith l (lit "-")
                 then Some (drop 1 l) else None) hunk.

Definition replace_lines (hunk : list str) : list str :=
  omap (fun l => if startsWith l (lit " ") || startsWith l (lit "+")
                 then Some (drop 1 l) else None) hunk.

Definition hunk_block (hunk : list str) : str * str :=
  (join [LF] (search_lines hunk), join [LF] (replace_lines hunk)).

(** The text of the block that stands for a hunk. *)
Definition hunk_text (hunk : list str) : str :=
  block_text (search_lines hunk) (replace_lines hunk).

(** Hunk lines for which the text of a block reads back as written: no
    carriage return, no search line that is the separator, no replacement
    line that begins like the closing marker. *)
Definition plain_line (l : str) : bool :=
  bool_decide (CR ∉ l).

Definition clean_hunk (hunk : list str) : bool :=
  forallb plain_line hunk
  && forallb (fun l => negb (bool_decide (l = SEP_MARK))) (search_lines hunk)
  && forallb (fun l => negb (startsWith l REPLACE_MARK)) (replace_lines hunk).

Definition clean_envelope (patch targetFile : str) : bool :=
  forallb clean_hunk (hunks_of_envelope patch targetFile).

Definition close_hunk (hunk : list str) : list (list str) :=
  match hunk with [] => [] | _ :: _ => [hunk] end.

(** The same hunks, collected line by line the way the conversion does it;
    [hunk] holds the lines of the hunk under way.  A device for the proofs
    ([hunks_of_envelope_loop] below). *)
Fixpoint envelope_hunks (targetFile : str) (lines : list str)
    (inSection : bool) (hunk : list str) : list (list str) :=
  match lines with
  | [] => close_hunk hunk
  | l :: ls =>
      if startsWith l UPDATE_FILE then
        envelope_hunks targetFile ls
          (bool_decide (trim (drop (length UPDATE_FILE) l) = targetFile)) hunk
      else if negb inSection then envelope_hunks targetFile ls inSection hunk
      else if startsWith l HUNK_MARK then
        close_hunk hunk ++ envelope_hunks targetFile ls inSection []
      else if startsWith l END_PATCH then close_hunk hunk
      else if startsWith l (lit " ") || startsWith l (lit "-") || startsWith l (lit "+")
      then envelope_hunks targetFile ls inSection (hunk ++ [l])
      else envelope_hunks targetFile ls inSection hunk
  end.

(** *** Candidates *)

(** [s] cut at the first and at the last occurrence of [p]: the text
    before the occurrence and the text after it. *)
Fixpoint cut_first (p s : str) : option (str * str) :=
  if startsWith s p then Some ([], drop (length p) s)
  else match s with
       | [] => None
       | c :: s' => '(a, b) ← cut_first p s'; Some (c :: a, b)
       end.

Fixpoint cut_last (p s : str) : option (str * str) :=
  match s with
  | [] => if startsWith [] p then Some ([], []) else None
  | c :: s' =>
      match cut_last p s' with
      | Some (a, b) => Some (c :: a, b)
      | None => if startsWith s p then Some ([], drop (length p) s) else None
      end
  end.

(** White space: tab, line feed, vertical tab, form feed, carriage return,
    space and no-break space. *)
Definition white_space : list ascii :=
  ["009"; "010"; "011"; "012"; "013"; " "; "160"]%char.

Definition white (c : ascii) : bool := bool_decide (c ∈ white_space).

(** A text without the white space at its start, at its end, and at both
    ends.  At the end, a white character goes when nothing is kept after
    it. *)
Fixpoint without_leading_white (s : str) : str :=
  match s with
  | [] => []
  | c :: s' => if white c then without_leading_white s' else s
  end.

Definition without_trailing_white (s : str) : str :=
  foldr (fun c kept => if white c && bool_decide (kept = []) then [] else c :: kept)
    [] s.

Definition trimmed (s : str) : str :=
  without_trailing_white (without_leading_white s).

(** A text without the [json] tag at its start and the white space after
    the tag. *)
Definition without_json_tag (s : str) : str :=
  if bool_decide (lit "json" `prefix_of` s)
  then without_leading_white (drop 4 s) else s.

(** A text without the fence at its very start, the [json] tag that may
    follow the fence and the white space after them; a text without the
    fence at its very end and the white space before it. *)
Definition without_leading_fence (t : str) : str :=
  if bool_decide (FENCE `prefix_of` t) then
    let after := drop 3 t in
    without_leading_white
      (if bool_decide (lit "json" `prefix_of` after) then drop 4 after else after)
  else t.

Definition without_trailing_fence (t : str) : str :=
  if bool_decide (FENCE `suffix_of` t)
  then without_trailing_white (take (length t - 3) t) else t.

(** The candidates.  A fenced block: the text between the first fence and
    the next one, trimmed, without a leading [json] tag; when there is no
    next fence, the whole text without a fence at its very start or at its
    very end.  Then the whole text.  Then the text from the first opening
    bracket to the last closing bracket after it, and the same for
    braces. *)
Definition fenced_candidate (t : str) : list str :=
  match cut_first FENCE t with
  | Some (_, after) =>
      match cut_first FENCE after with
      | Some (interior, _) => [trimmed (without_json_tag (trimmed interior))]
      | None => [trimmed (without_trailing_fence (without_leading_fence t))]
      end
  | None => []
  end.

Definition span_candidate (open close : ascii) (t : str) : list str :=
  match cut_first [open] t with
  | Some (_, after) =>
      match cut_last [close] after with
      | Some (inside, _) => [[open] ++ inside ++ [close]]
      | None => []
      end
  | None => []
  end.

Definition candidates_as_specified (t : str) : list str :=
  fenced_candidate t ++ [t] ++ span_candidate "[" "]" t ++ span_candidate "{" "}" t.

(** The candidates as the specification words them for a fence that is not
    closed: the whole text with the single fence marker taken out, wherever
    it stands. *)
Definition fenced_candidate_as_stated (t : str) : list str :=
  match cut_first FENCE t with
  | Some (before, after) =>
      match cut_first FENCE after with
      | Some (interior, _) => [trimmed (without_json_tag (trimmed interior))]
      | None => [trimmed (before ++ after)]
      end
  | None => []
  end.

Definition candidates_as_stated (t : str) : list str :=
  fenced_candidate_as_stated t ++ [t] ++ span_candidate "[" "]" t
    ++ span_candidate "{" "}" t.

(** The value extracted, as the specification words it: the value of the
    first candidate that parses. *)
Definition extract_as_stated (JSON_parse : str -> option json) (jsonText : str)
  : option json :=
  head (omap JSON_parse (candidates_as_stated (trimmed jsonText))).

(** *** Diffs in the syntax of the specification *)

(** A text with every line break CR LF read as LF: a carriage return
    directly before a line feed is dropped. *)
Fixpoint crlf_to_lf (s : str) : str :=
  match s with
  | [] => []
  | c :: s' =>
      if bool_decide (c = CR /\ head s' = Some LF) then crlf_to_lf s'
      else c :: crlf_to_lf s'
  end.



(** One block applied as the specification words it: with CR LF read as LF
    in the content and in the search text, the first occurrence of the
    search text is replaced by the replacement as it is written; without an
    occurrence the content is left alone and a warning is shown. *)
Definition replace_first_as_specified (content search replace : str)
  : str * list notification :=
  match cut_first (crlf_to_lf search) (crlf_to_lf content) with
  | Some (before, after) => (before ++ replace ++ after, [])
  | None => (content, [WARN_NOT_FOUND])
  end.

(** Blocks applied in order, each to the result of the one before. *)
Fixpoint blocks_as_specified (blocks : list (str * str)) (content : str)
  : str * list notification :=
  match blocks with
  | [] => (content, [])
  | (search, replace) :: rest =>
      let '(content', w) := replace_first_as_specified content search replace in
      let '(final, ws) := blocks_as_specified rest content' in
      (final, w ++ ws)
  end.





(** *** The envelope as the specification words it *)

(** The lines of an envelope: the pieces between its line breaks. *)
Definition envelope_lines (patch : str) : list str :=
  split_on LF (crlf_to_lf patch).

Definition marked (mark l : str) : bool := bool_decide (mark `prefix_of` l).

(** The envelope is terminated by [*** End Patch]: that line and what
    follows it are no part of it. *)
Fixpoint before_end_patch (lines : list str) : list str :=
  match lines with
  | [] => []
  | l :: ls => if marked END_PATCH l then [] else l :: before_end_patch ls
  end.

(** Lines cut at the lines that carry a mark: the lines before the first
    such line, and then each such line with the lines up to the next. *)
Fixpoint cut_at (mark : str) (lines : list str)
  : list str * list (str * list str) :=
  match lines with
  | [] => ([], [])
  | l :: ls =>
      let '(body, rest) := cut_at mark ls in
      if marked mark l then ([], (l, body) :: rest) else (l :: body, rest)
  end.

(** The sections of the envelope: the path of each [*** Update File:] line,
    with the lines of its section. *)
Definition sections (patch : str) : list (str * list str) :=
  (fun section => (trimmed (drop (length UPDATE_FILE) section.1), section.2))
    <$> (cut_at UPDATE_FILE (before_end_patch (envelope_lines patch))).2.

(** The hunks of a section: the lines after each [@@] line, up to the next
    one. *)
Definition section_hunks (body : list str) : list (list str) :=
  snd <$> (cut_at HUNK_MARK body).2.

(** The hunks for the target file, each with its context lines, removed
    lines and added lines; a hunk without any such line is none. *)
Definition hunks_as_specified (patch targetFile : str) : list (list str) :=
  List.filter nonempty
    (List.filter hunk_line
       <$> (filter (fun section => section.1 = targetFile) (sections patch)
              ≫= fun section => section_hunks section.2)).

(** The hunks interpreted directly: one search/replace block for each, in
    order, without the detour through the text of a diff. *)
Definition envelope_as_specified (content patch targetFile : str)
  : str * list notification :=
  blocks_as_specified (hunk_block <$> hunks_as_specified patch targetFile) content.

(** *** Rounds *)

(** The names that a change-set requests: those of [request_files] when it
    is an array of strings, none when the field is absent or is not an
    array.  ([None]: an array with an item that is not a string.) *)
Fixpoint string_items (items : list json) : option (list str) :=
  match items with
  | [] => Some []
  | JStr s :: rest => names ← string_items rest; Some (s :: names)
  | _ :: _ => None
  end.

Definition requested_files (data : json) : option (list str) :=
  match prop data K_request_files with
  | Some (JArr items) => string_items items
  | _ => Some []
  end.

(** A list of copies, each from a source to a destination, made in order
    up to the first one that throws: whether all were made, and the world
    they leave. *)
Fixpoint copy_each {world : Type}
    (copyFileSync : str -> str -> world -> bool * world)
    (copies : list (str * str)) (w : world) : bool * world :=
  match copies with
  | [] => (true, w)
  | copy :: rest =>
      let '(copied, w1) := copyFileSync copy.1 copy.2 w in
      if copied then copy_each copyFileSync rest w1 else (false, w1)
  end.

(** The worlds that such a loop passes through: the world before the first
    copy, and the world after each copy that is made. *)
Fixpoint copy_worlds {world : Type}
    (copyFileSync : str -> str -> world -> bool * world)
    (copies : list (str * str)) (w : world) : list world :=
  w :: match copies with
       | [] => []
       | copy :: rest =>
           let '(copied, w1) := copyFileSync copy.1 copy.2 w in
           if copied then copy_worlds copyFileSync rest w1 else []
       end.

(** Where a file of the workspace is copied from, and where to in a round
    directory. *)
Definition staged_copy (path_join : list str -> str)
    (workspaceRoot roundDir fp : str) : str * str :=
  (path_join [workspaceRoot; fp], path_join [roundDir; flatName fp]).

(** The names under which a request for [reqs] can write into the round
    directory. *)
Definition staged_names (reqs : list str) : list str :=
  STRUCTURE_FILE :: (flatName <$> reqs).

(** The file set of a new round as the specification words it: the
    requested files that exist, and the structure listing of the round just
    before, when that round has one. *)
Definition staged_as_specified {world : Type} (path_join : list str -> str)
    (existsSync : world -> str -> bool)
    (workspaceRoot : str) (st : state) (w : world) (reqs : list str) : list str :=
  List.filter (fun req => existsSync w (path_join [workspaceRoot; req])) reqs
  ++ (if existsSync w
           (path_join [currentStagingRoot st;
                       lit "round_" ++ lit (pretty (currentRound st));
                       STRUCTURE_FILE])
      then [STRUCTURE_FILE] else []).

(** The transition on NEED_CONTEXT as the specification words it, for a
    request of the names [reqs]: the round is staged without an error, and
    the staged files are those of [staged_as_specified], in some order. *)
Definition need_context_as_specified {world : Type} (path_join : list str -> str)
    (existsSync : world -> str -> bool)
    (mkdirSync : str -> world -> bool * world)
    (copyFileSync : str -> str -> world -> bool * world)
    (workspaceRoot : str) (st : state) (w : world) (reqs : list str) : Prop :=
  let roundDir := round_dir path_join st (S (currentRound st)) in
  let data :=
    JObj [(K_status, JStr S_NEED_CONTEXT); (K_request_files, JArr (JStr <$> reqs))] in
  let made := mkdirSync roundDir w in
  let staged :=
    stage_round path_join existsSync copyFileSync workspaceRoot st roundDir
      made.2 data in
  made.1 = true /\ staged.1.1 = true
  /\ staged.2 ≡ₚ staged_as_specified path_join existsSync workspaceRoot st w reqs.

(** ** Stand-ins for the collaborators, and the texts of the examples

    A [path.join] and a [path.dirname] on plain names, a prompt that lists
    the staged names, and a small file system with an editor on top of it:
    regular files and directories by path, and the text of the documents
    that the editor holds open (which may differ from the disk until they
    are saved).  [mkdirSync] throws below a regular file, [copyFileSync]
    throws unless its source is a regular file, a directory cannot be
    opened as a document, and [applyEdit] succeeds and leaves the new text
    in the open documents (a created file starts empty on disk).  Then the
    values that [JSON.parse] gives for the responses used below. *)

Definition example_join (parts : list str) : str := join (lit "/") parts.

Definition example_dirname (p : str) : str :=
  match lastIndexOf p (lit "/") with
  | Some i => take i p
  | None => lit "."
  end.

Definition example_prompt (goal : str) (fileList : list str) : str :=
  goal ++ lit ": " ++ join (lit ", ") fileList.

Inductive node :=
  | File (text : str)
  | Directory.

Record example_world := ExampleWorld {
  disk : list (str * node);
  documents : list (str * str)
}.

Fixpoint assoc {A : Type} (m : list (str * A)) (k : str) : option A :=
  match m with
  | [] => None
  | (k', v) :: m' => if bool_decide (k' = k) then Some v else assoc m' k
  end.

Fixpoint assoc_set {A : Type} (m : list (str * A)) (k : str) (v : A)
  : list (str * A) :=
  match m with
  | [] => [(k, v)]
  | (k', v') :: m' =>
      if bool_decide (k' = k) then (k, v) :: m' else (k', v') :: assoc_set m' k v
  end.

Definition example_existsSync (w : example_world) (p : str) : bool :=
  match assoc (disk w) p with
  | Some _ => true
  | None => false
  end.

(** A regular file at [p] or above it. *)
Definition below_a_file (w : example_world) (p : str) : bool :=
  existsb
    (fun entry =>
       match entry.2 with
       | File _ => bool_decide (entry.1 = p) || startsWith p (entry.1 ++ lit "/")
       | Directory => false
       end)
    (disk w).

Definition example_mkdirSync (dir : str) (w : example_world)
  : bool * example_world :=
  if below_a_file w dir then (false, w)
  else (true, ExampleWorld (assoc_set (disk w) dir Directory) (documents w)).

Definition example_copyFileSync (src dst : str) (w : example_world)
  : bool * example_world :=
  match assoc (disk w) src, assoc (disk w) dst with
  | Some (File t), Some Directory => (false, w)
  | Some (File t), _ =>
      (true, ExampleWorld (assoc_set (disk w) dst (File t)) (documents w))
  | _, _ => (false, w)
  end.

Definition example_openTextDocument (p : str) (w : example_world)
  : option str * example_world :=
  match assoc (documents w) p with
  | Some t => (Some t, w)
  | None =>
      match assoc (disk w) p with
      | Some (File t) => (Some t, w)
      | _ => (None, w)
      end
  end.

Definition example_apply_op (w : example_world) (op : edit_op) : example_world :=
  match op with
  | EditReplace uri newText =>
      ExampleWorld (disk w) (assoc_set (documents w) uri newText)
  | EditCreateFile uri =>
      ExampleWorld (assoc_set (disk w) uri (File [])) (documents w)
  | EditInsert uri newText =>
      ExampleWorld (disk w) (assoc_set (documents w) uri newText)
  end.

Definition example_applyEdit (edit : list edit_op) (w : example_world)
  : bool * example_world :=
  (true, foldl example_apply_op w edit).

(** An editor that refuses every edit. *)
Definition refusing_applyEdit (edit : list edit_op) (w : example_world)
  : bool * example_world :=
  (false, w).

(** A JSON string literal without escapes. *)
Definition quoted (s : string) : str := [QUOTE] ++ lit s ++ [QUOTE].

(** [[{"file_path":"a.ts","type":"FULL_REWRITE","content":"x"}]] *)
Definition bare_array_text : str :=
  lit "[{" ++ quoted "file_path" ++ lit ":" ++ quoted "a.ts" ++ lit ","
    ++ quoted "type" ++ lit ":" ++ quoted "FULL_REWRITE" ++ lit ","
    ++ quoted "content" ++ lit ":" ++ quoted "x" ++ lit "}]".

Definition bare_array_value : json :=
  JArr [JObj [(K_file_path, JStr (lit "a.ts")); (K_type, JStr T_FULL_REWRITE);
              (K_content, JStr (lit "x"))]].

(** The bare array inside a [json] fence, with prose around it. *)
Definition fenced_text : str :=
  text ["Here is the change:"; "```json"]%string ++ [LF] ++ bare_array_text ++ [LF]
    ++ text ["```"; "Done."]%string.

(** [{"status":"DONE"}] *)
Definition done_text : str :=
  lit "{" ++ quoted "status" ++ lit ":" ++ quoted "DONE" ++ lit "}".

Definition done_value : json := JObj [(K_status, JStr (lit "DONE"))].

(** [{"status":"NEED_CONTEXT","request_files":["src/a.ts","src/missing.ts"]}] *)
Definition need_context_text : str :=
  lit "{" ++ quoted "status" ++ lit ":" ++ quoted "NEED_CONTEXT" ++ lit ","
    ++ quoted "request_files" ++ lit ":[" ++ quoted "src/a.ts" ++ lit ","
    ++ quoted "src/missing.ts" ++ lit "]}".

Definition need_context_value : json :=
  JObj [(K_status, JStr S_NEED_CONTEXT);
        (K_request_files, JArr [JStr (lit "src/a.ts"); JStr (lit "src/missing.ts")])].

(** [{status: "COMPLETED", code_changes: [{file_path: "src/a.ts",
    type: "FULL_REWRITE", content: "B"}]}] *)
Definition completed_value : json :=
  JObj [(K_status, JStr S_COMPLETED);
        (K_code_changes,
         JArr [JObj [(K_file_path, JStr (lit "src/a.ts"));
                     (K_type, JStr T_FULL_REWRITE);
                     (K_content, JStr (lit "B"))]])].

Definition example_parse (s : str) : option json :=
  if bool_decide (s = bare_array_text) then Some bare_array_value
  else if bool_decide (s = done_text) then Some done_value
  else if bool_decide (s = need_context_text) then Some need_context_value
  else if bool_decide (s = lit "null") then Some JNull
  else None.

(** A parser that knows the array [[1,2]] and the number [5]. *)
Definition small_parse (s : str) : option json :=
  if bool_decide (s = lit "[1,2]") then Some (JArr [JNum 1; JNum 2])
  else if bool_decide (s = lit "5") then Some (JNum 5)
  else None.

(** A task at round 1, with its structure listing staged, and a workspace
    of one file. *)
Definition example_state1 : state :=
  State 1 (lit "/tmp/stage") (lit "/tmp/stage/round_1") (lit "prompt").

Definition example_world1 : example_world :=
  ExampleWorld
    [(lit "/tmp/stage/round_1", Directory);
     (lit "/tmp/stage/round_1/_PROJECT_STRUCTURE.txt", File (lit "tree"));
     (lit "/work/src", Directory);
     (lit "/work/src/a.ts", File (lit "A"))]
    [].

(** The task after the response [completed_value]: the editor holds the new
    text, and round 2 is the snapshot of the file as it is saved.  The round
    holds no structure listing. *)
Definition example_state2 : state :=
  State 2 (lit "/tmp/stage") (lit "/tmp/stage/round_2") REVIEW_PROMPT.

Definition example_world2 : example_world :=
  ExampleWorld
    [(lit "/tmp/stage/round_1", Directory);
     (lit "/tmp/stage/round_1/_PROJECT_STRUCTURE.txt", File (lit "tree"));
     (lit "/work/src", Directory);
     (lit "/work/src/a.ts", File (lit "A"));
     (lit "/tmp/stage/round_2", Directory);
     (lit "/tmp/stage/round_2/src__a.ts.txt", File (lit "A"))]
    [(lit "/work/src/a.ts", lit "B")].

(** A [content] field whose diff is a well-formed JSON string: the line
    breaks are the two characters backslash, [n]. *)
Definition escaped_newline : str := [BACKSLASH] ++ lit "n".

Definition escaped_diff_field : str :=
  quoted "content" ++ lit ":" ++ [QUOTE]
    ++ join escaped_newline
         (lit <$> ["<<<<<<< SEARCH"; "line2"; "======="; "CHANGED"; ">>>>>>> REPLACE"]%string)
    ++ [QUOTE].

(** The same field after the repair: every backslash is doubled. *)
Definition doubled_diff_field : str :=
  quoted "content" ++ lit ":" ++ [QUOTE]
    ++ join ([BACKSLASH] ++ escaped_newline)
         (lit <$> ["<<<<<<< SEARCH"; "line2"; "======="; "CHANGED"; ">>>>>>> REPLACE"]%string)
    ++ [QUOTE].

(** The field with the diff written over several lines, line feeds and all,
    which is not a JSON string. *)
Definition raw_diff_field : str :=
  quoted "content" ++ lit ":" ++ [QUOTE]
    ++ text ["<<<<<<< SEARCH"; "line2"; "======="; "CHANGED"; ">>>>>>> REPLACE"]%string
    ++ [QUOTE].

(** The envelope of the prompt, for [src/a.ts]. *)
Definition example_patch : str :=
  text ["*** Begin Patch"; "*** Update File: src/a.ts"; "@@"; " keep"; "-old line";
        "+new line"; "*** End Patch"]%string.

(** A hunk that removes a line made of the separator. *)
Definition separator_patch : str :=
  text ["*** Begin Patch"; "*** Update File: f"; "@@"; "-a"; "-======="; "+b";
        "*** End Patch"]%string.

(** ** Further reference definitions *)

(** *** Grouping *)

(** The entries of [code_changes] that reach a file, in order. *)
Definition kept_changes (items : list json) : list change :=
  omap (fun e => match decode_entry e with EntryKept c => Some c | _ => None end)
       items.

(** The distinct names of a list, in the order of their first occurrence. *)
Fixpoint first_seen (ks : list str) : list str :=
  match ks with
  | [] => []
  | k :: ks' => k :: filter (fun k' => k' <> k) (first_seen ks')
  end.

(** The changes grouped by file: the files in the order in which they are
    first named, each with its changes in the order of the response. *)
Definition changes_by_file (cs : list change) : changes_map :=
  (fun k => (k, filter (fun c => file_path c = k) cs))
    <$> first_seen (file_path <$> cs).

(** *** Fences *)

Definition BACKTICK : ascii := "`"%char.

(** ** [generateSystemPrompt]

    The prompt is a template around the goal; the list of staged files is a
    parameter that the text never uses. *)

Definition generateSystemPrompt (goal : str) (fileList : list str) : str :=
  join [LF]
    [
      lit "I am attaching a set of files.";
      lit "1. " ++ quoted "_PROJECT_STRUCTURE.txt"
        ++ lit ": Contains the full file tree.";
      lit "2. Source code files: Flattened filenames ending in .txt (e.g. "
        ++ quoted "src__utils.ts.txt" ++ lit " maps to "
        ++ quoted "src/utils.ts" ++ lit ").";
      [];
      lit "GOAL: " ++ goal;
      [];
      lit "INSTRUCTIONS:";
      lit "You are an expert coding assistant. Output response in STRICT JSON format, wrapped in a markdown code block (e.g. ```json ... ```).";
      [];
      lit "A. IF YOU HAVE ENOUGH CONTEXT:";
      lit "   Set " ++ quoted "status" ++ lit ": " ++ quoted "COMPLETED"
        ++ lit ".";
      lit "   Provide the code in " ++ quoted "code_changes" ++ lit ".";
      lit "   - Use " ++ quoted "type" ++ lit ": " ++ quoted "FULL_REWRITE"
        ++ lit " for new files or when rewriting the entire content.";
      lit "   - Use " ++ quoted "type" ++ lit ": " ++ quoted "PATCH"
        ++ lit " for partial edits. Content MUST be a patch envelope we can apply:";
      [];
      lit "     *** Begin Patch";
      lit "     *** Update File: src/path/to/file.ts";
      lit "     @@";
      lit "     -old line";
      lit "     +new line";
      lit "     *** End Patch";
      [];
      lit "   Rules:";
      lit "   - Use relative file paths.";
      lit "   - Include only the hunks relevant to the target file.";
      lit "   - Prefix context with a single space, removals with '-', additions with '+'.";
      [];
      lit "B. IF YOU NEED MORE CONTEXT:";
      lit "   Set " ++ quoted "status" ++ lit ": " ++ quoted "NEED_CONTEXT"
        ++ lit ".";
      lit "   1. Request specific files using " ++ quoted "request_files"
        ++ lit ".";
      [];
      lit "JSON SCHEMA:";
      lit "{";
      lit "  " ++ quoted "status" ++ lit ": " ++ quoted "NEED_CONTEXT"
        ++ lit " | " ++ quoted "COMPLETED" ++ lit ",";
      lit "  " ++ quoted "reasoning" ++ lit ": "
        ++ quoted "Brief explanation" ++ lit ",";
      lit "  " ++ quoted "request_files" ++ lit ": ["
        ++ quoted "src/utils/helper.ts" ++ lit "],";
      lit "  " ++ quoted "code_changes" ++ lit ": [";
      lit "    {";
      lit "      " ++ quoted "file_path" ++ lit ": "
        ++ quoted "src/components/App.tsx" ++ lit ",";
      lit "      " ++ quoted "type" ++ lit ": " ++ quoted "FULL_REWRITE"
        ++ lit " | " ++ quoted "PATCH" ++ lit ", ";
      lit "      " ++ quoted "content" ++ lit ": " ++ quoted "...";
      lit "    }";
      lit "  ]";
      lit "}"
    ].

(** * Properties *)

(** ** Worked examples *)

Example applySearchReplace_line2 :
  applySearchReplace
    (lit "line1" ++ [LF] ++ lit "line2" ++ [LF] ++ lit "line3")
    (lit "<<<<<<< SEARCH" ++ [LF] ++ lit "line2" ++ [LF] ++ lit "=======" ++ [LF]
       ++ lit "CHANGED" ++ [LF] ++ lit ">>>>>>> REPLACE")
  = (lit "line1" ++ [LF] ++ lit "CHANGED" ++ [LF] ++ lit "line3", []).
Proof. vm_compute. reflexivity. Qed.

Example patchEnvelope_example :
  patchEnvelopeToDiffForFile
    (text ["*** Begin Patch"; "*** Update File: src/a.ts"; "@@"; " keep";
           "-old line"; "+new line"; "*** End Patch"]%string)
    (lit "src/a.ts")
  = text ["<<<<<<< SEARCH"; "keep"; "old line"; "======="; "keep"; "new line";
          ">>>>>>> REPLACE"]%string.
Proof. vm_compute. reflexivity. Qed.

(** ** Strings: prefixes and searches *)

Lemma startsWith_prefix (s p : str) : startsWith s p = true <-> p `prefix_of` s.
Proof.
  revert s; induction p as [|a p IH]; intros s; simpl.
  - split; [intros _; apply prefix_nil | done].
  - destruct s as [|b s].
    + split; [done | intros [k Hk]; discriminate].
    + destruct (Ascii.eqb_spec a b) as [->|Hab].
      * rewrite IH. split; [apply prefix_cons | apply prefix_cons_inv_2].
      * split; [done | intros H; apply prefix_cons_inv_1 in H; congruence].
Qed.

Lemma startsWith_app (p r : str) : startsWith (p ++ r) p = true.
Proof. apply startsWith_prefix, prefix_app_r. done. Qed.

Lemma startsWith_false (s p : str) :
  startsWith s p = false <-> ~ p `prefix_of` s.
Proof.
  rewrite <- startsWith_prefix. destruct (startsWith s p); split; done.
Qed.

Lemma strip_Some (p s r : str) : strip p s = Some r <-> s = p ++ r.
Proof.
  unfold strip. destruct (startsWith s p) eqn:E.
  - apply startsWith_prefix in E as [k ->]. rewrite drop_app_length.
    split; [by intros [= ->] | by intros ->%(inj (app p))].
  - split; [done|]. intros ->. rewrite startsWith_app in E. done.
Qed.

Lemma strip_app (p r : str) : strip p (p ++ r) = Some r.
Proof. by apply strip_Some. Qed.

Lemma strip_None (p s : str) : strip p s = None <-> ~ p `prefix_of` s.
Proof.
  unfold strip. rewrite <- startsWith_false.
  destruct (startsWith s p); split; done.
Qed.

(** [indexOf] returns the first position at which the pattern starts. *)
Lemma indexOf_Some (s p : str) (i : nat) :
  indexOf s p = Some i <->
  startsWith (drop i s) p = true /\ i <= length s /\
  forall j, j < i -> startsWith (drop j s) p = false.
Proof.
  revert i; induction s as [|c s IH]; intros i.
  - cbn [indexOf]. rewrite drop_nil. destruct (startsWith [] p) eqn:E.
    + split.
      * intros [= <-]. split_and!; [done | done | lia].
      * intros (_ & Hi & _). simpl in Hi. f_equal; lia.
    + split; [done | intros (? & _); done].
  - cbn [indexOf]. destruct (startsWith (c :: s) p) eqn:E.
    + split.
      * intros [= <-]. split_and!; [done | simpl; lia | lia].
      * intros (_ & _ & Hj). destruct i as [|i]; [done|].
        specialize (Hj 0 ltac:(lia)). simpl in Hj. congruence.
    + destruct (indexOf s p) as [i'|] eqn:Ei; simpl.
      * destruct (IH i') as [IHa _]. destruct (IHa eq_refl) as (H1 & H2 & H3).
        clear IHa. split.
        -- intros [= <-]. split_and!; [done | simpl; lia |].
           intros [|j] Hj; [done|]. simpl. apply H3. lia.
        -- intros (H1' & H2' & H3'). destruct i as [|i]; [simpl in *; congruence|].
           f_equal. destruct (Nat.lt_trichotomy i i') as [Hlt|[->|Hgt]]; [|done|].
           ++ specialize (H3 i Hlt). simpl in H1'. congruence.
           ++ specialize (H3' (S i') ltac:(lia)). simpl in H3'. congruence.
      * split; [done|]. intros (H1' & H2' & H3').
        destruct i as [|i]; [simpl in *; congruence|].
        destruct (IH i) as [_ IHb]. discriminate IHb.
        split_and!; [done | simpl in *; lia |].
        intros j Hj. apply (H3' (S j)). lia.
Qed.

Lemma indexOf_None (s p : str) :
  indexOf s p = None <-> forall j, startsWith (drop j s) p = false.
Proof.
  induction s as [|c s IH].
  - cbn [indexOf]. destruct (startsWith [] p) eqn:E.
    + split; [done|]. intros H. specialize (H 0). simpl in H. congruence.
    + split; [|done]. intros _ j. by rewrite drop_nil.
  - cbn [indexOf]. destruct (startsWith (c :: s) p) eqn:E.
    + split; [done|]. intros H. specialize (H 0). simpl in H. congruence.
    + destruct (indexOf s p) as [i|] eqn:Ei; simpl.
      * split; [done|]. intros H. apply indexOf_Some in Ei as (H1 & _).
        specialize (H (S i)). simpl in H. congruence.
      * split; [|done]. intros _ [|j]; [done|]. simpl.
        destruct IH as [IH _]. by apply IH.
Qed.

(** An occurrence anywhere gives a first occurrence. *)
Lemma indexOf_occurs (s p pre post : str) :
  s = pre ++ p ++ post -> exists i, indexOf s p = Some i /\ i <= length pre.
Proof.
  intros ->. destruct (indexOf (pre ++ p ++ post) p) as [i|] eqn:E.
  - exists i. split; [done|]. apply indexOf_Some in E as (_ & _ & H).
    destruct (decide (i <= length pre)) as [|Hn]; [done|].
    specialize (H (length pre) ltac:(lia)).
    rewrite drop_app_length, startsWith_app in H. done.
  - exfalso. rewrite indexOf_None in E. specialize (E (length pre)).
    rewrite drop_app_length, startsWith_app in E. done.
Qed.

Lemma lastIndexOf_None (s p : str) :
  lastIndexOf s p = None ->
  forall j, j <= length s -> startsWith (drop j s) p = false.
Proof.
  induction s as [|c s IH]; cbn [lastIndexOf].
  - destruct (startsWith [] p) eqn:E; [done|]. intros _ j _. by rewrite drop_nil.
  - destruct (lastIndexOf s p) eqn:El; [done|].
    destruct (startsWith (c :: s) p) eqn:E; [done|].
    intros _ [|j] Hj; [done|]. simpl in *. apply IH; [done | lia].
Qed.

Lemma lastIndexOf_Some (s p : str) (i : nat) :
  lastIndexOf s p = Some i ->
  startsWith (drop i s) p = true /\ i <= length s
  /\ forall j, i < j -> j <= length s -> startsWith (drop j s) p = false.
Proof.
  revert i. induction s as [|c s IH]; intros i; cbn [lastIndexOf].
  - destruct (startsWith [] p) eqn:E; [|done]. intros [= <-].
    split_and!; [done | done | simpl; lia].
  - destruct (lastIndexOf s p) as [i'|] eqn:E'.
    + intros [= <-]. destruct (IH i' eq_refl) as (H1 & H2 & H3).
      split_and!; [done | simpl; lia |].
      intros [|j] Hj Hj'; [lia|]. simpl. apply H3; simpl in Hj'; lia.
    + destruct (startsWith (c :: s) p) eqn:E; [|done]. intros [= <-].
      split_and!; [done | simpl; lia |].
      intros [|j] Hj Hj'; [lia|]. simpl in *.
      apply lastIndexOf_None; [done | lia].
Qed.

(** ** The matchers *)

Lemma eol_Some (s r : str) :
  eol s = Some r <-> s = LF :: r \/ s = CR :: LF :: r.
Proof.
  unfold eol. destruct s as [|c s].
  { split; [done | by intros [?|?]]. }
  destruct (Ascii.eqb_spec c LF) as [->|Hc].
  { split; [intros [= ->]; by left | intros [?|?]; by simplify_eq]. }
  destruct (Ascii.eqb_spec c CR) as [->|Hc'].
  - destruct s as [|d s]; [split; [done | intros [?|?]; by simplify_eq]|].
    destruct (Ascii.eqb_spec d LF) as [->|Hd].
    + split; [intros [= ->]; by right | intros [?|?]; by simplify_eq].
    + split; [done | intros [?|?]; by simplify_eq].
  - split; [done | intros [?|?]; by simplify_eq].
Qed.

Lemma eol_LF (r : str) : eol (LF :: r) = Some r.
Proof. apply eol_Some. by left. Qed.

(** [\r?\n] needs a line break at the current position. *)
Lemma eol_other (c : ascii) (r : str) : c <> LF -> c <> CR -> eol (c :: r) = None.
Proof.
  intros H1 H2. destruct (eol (c :: r)) eqn:E; [|done].
  apply eol_Some in E as [?|?]; simplify_eq.
Qed.

Lemma eol_length (s r : str) : eol s = Some r -> length r < length s.
Proof. intros [->| ->]%eol_Some; simpl; lia. Qed.

Lemma strip_length (p s r : str) : strip p s = Some r -> length r <= length s.
Proof. intros ->%strip_Some. rewrite length_app. lia. Qed.

(** What a successful lazy match returns: the capture is a prefix of the
    text and the continuation accepts what follows it. *)
Lemma lazy_any_Some {A} (k : str -> option A) (s g : str) (a : A) :
  lazy_any k s = Some (g, a) -> exists r, s = g ++ r /\ k r = Some a.
Proof.
  revert g; induction s as [|c s IH]; intros g; simpl.
  - destruct (k []) eqn:E; [|done]. intros [= <- <-]. by exists [].
  - destruct (k (c :: s)) eqn:E.
    + intros [= <- <-]. by exists (c :: s).
    + destruct (lazy_any k s) as [[g' a']|]; [|done].
      intros [= <- <-]. destruct (IH g' eq_refl) as (r & -> & Hr). by exists r.
Qed.



Lemma blockRegex_here_length (s : str) (m : block_match) :
  blockRegex_here s = Some m -> length (bm_rest m) < length s.
Proof.
  unfold blockRegex_here. intros H.
  destruct (strip SEARCH_MARK s) as [r0|] eqn:E0; simpl in H; [|done].
  destruct (eol r0) as [r1|] eqn:E1; simpl in H; [|done].
  match type of H with context [lazy_any ?k r1] =>
    destruct (lazy_any k r1) as [[search [replace rest]]|] eqn:E2 end;
    simpl in H; [|done].
  injection H as <-. simpl.
  apply strip_length in E0. apply eol_length in E1.
  apply lazy_any_Some in E2 as (r & -> & E2). unfold search_end in E2.
  destruct (eol r) as [r2|] eqn:E3; simpl in E2; [|done].
  destruct (strip SEP_MARK r2) as [r3|] eqn:E4; simpl in E2; [|done].
  destruct (eol r3) as [r4|] eqn:E5; simpl in E2; [|done].
  apply lazy_any_Some in E2 as (q & -> & E2). unfold replace_end in E2.
  destruct (eol q) as [q1|] eqn:E6; simpl in E2; [|done].
  apply eol_length in E3, E5, E6. apply strip_length in E4, E2.
  rewrite length_app in *. lia.
Qed.

Lemma blockRegex_exec_length (s : str) (m : block_match) :
  blockRegex_exec s = Some m -> length (bm_rest m) < length s.
Proof.
  induction s as [|c s IH]; cbn [blockRegex_exec].
  - destruct (blockRegex_here []) eqn:E; [|done].
    intros [= <-]. by apply blockRegex_here_length in E.
  - destruct (blockRegex_here (c :: s)) eqn:E.
    + intros [= <-]. by apply blockRegex_here_length in E.
    + intros H. apply IH in H. simpl. lia.
Qed.

(** The fuel given to the loop is never used up, and more fuel changes
    nothing. *)
Lemma applySearchReplace_loop_fuel (fuel : nat) (rest result : str) :
  length rest < fuel -> is_Some (applySearchReplace_loop fuel rest result).
Proof.
  revert rest result; induction fuel as [|fuel IH]; intros rest result Hlen; [lia|].
  cbn [applySearchReplace_loop].
  destruct (blockRegex_exec rest) as [m|] eqn:E; [|done].
  destruct (apply_block result (bm_search m) (bm_replace m)) as [result' w].
  apply blockRegex_exec_length in E.
  destruct (IH (bm_rest m) result' ltac:(lia)) as [[final ws] ->]. done.
Qed.

Lemma applySearchReplace_loop_more (fuel1 fuel2 : nat) (rest result : str) :
  length rest < fuel1 -> length rest < fuel2 ->
  applySearchReplace_loop fuel1 rest result = applySearchReplace_loop fuel2 rest result.
Proof.
  revert fuel2 rest result; induction fuel1 as [|fuel1 IH];
    intros [|fuel2] rest result H1 H2; [lia..|].
  cbn [applySearchReplace_loop].
  destruct (blockRegex_exec rest) as [m|] eqn:E; [|done].
  destruct (apply_block result (bm_search m) (bm_replace m)) as [result' w].
  apply blockRegex_exec_length in E.
  by rewrite (IH fuel2 (bm_rest m) result') by lia.
Qed.

(** The loop, one iteration at a time. *)
Lemma applySearchReplace_unfold (original diff : str) :
  applySearchReplace original diff
  = match blockRegex_exec diff with
    | None => (original, [])
    | Some m =>
        let '(result, w) := apply_block original (bm_search m) (bm_replace m) in
        let '(final, ws) := applySearchReplace result (bm_rest m) in
        (final, w ++ ws)
    end.
Proof.
  unfold applySearchReplace at 1. cbn [applySearchReplace_loop].
  destruct (blockRegex_exec diff) as [m|] eqn:E; [|done].
  destruct (apply_block original (bm_search m) (bm_replace m)) as [result w].
  apply blockRegex_exec_length in E.
  unfold applySearchReplace.
  rewrite (applySearchReplace_loop_more (length diff) (S (length (bm_rest m)))) by lia.
  destruct (applySearchReplace_loop_fuel (S (length (bm_rest m))) (bm_rest m) result
              ltac:(lia)) as [[final ws] ->].
  done.
Qed.

(** An empty diff changes nothing. *)
Lemma applySearchReplace_nil (original : str) :
  applySearchReplace original [] = (original, []).
Proof. done. Qed.

Lemma diff_blocks_loop_more (fuel1 fuel2 : nat) (rest : str) :
  length rest < fuel1 -> length rest < fuel2 ->
  diff_blocks_loop fuel1 rest = diff_blocks_loop fuel2 rest.
Proof.
  revert fuel2 rest; induction fuel1 as [|fuel1 IH];
    intros [|fuel2] rest H1 H2; [lia..|].
  cbn [diff_blocks_loop].
  destruct (blockRegex_exec rest) as [m|] eqn:E; [|done].
  apply blockRegex_exec_length in E.
  by rewrite (IH fuel2 (bm_rest m)) by lia.
Qed.

Lemma diff_blocks_unfold (diff : str) :
  diff_blocks diff
  = match blockRegex_exec diff with
    | None => []
    | Some m => (bm_search m, bm_replace m) :: diff_blocks (bm_rest m)
    end.
Proof.
  unfold diff_blocks at 1. cbn [diff_blocks_loop].
  destruct (blockRegex_exec diff) as [m|] eqn:E; [|done].
  apply blockRegex_exec_length in E. unfold diff_blocks.
  by rewrite (diff_blocks_loop_more (length diff) (S (length (bm_rest m)))) by lia.
Qed.

(** The loop applies the blocks of the diff one after the other. *)
Lemma applySearchReplace_blocks (original diff : str) :
  applySearchReplace original diff = apply_blocks (diff_blocks diff) original.
Proof.
  remember (length diff) as n eqn:Hn.
  revert original diff Hn. induction (lt_wf n) as [n _ IH]. intros original diff ->.
  rewrite applySearchReplace_unfold, diff_blocks_unfold.
  destruct (blockRegex_exec diff) as [m|] eqn:E; [|done].
  apply blockRegex_exec_length in E. cbn [apply_blocks].
  destruct (apply_block original (bm_search m) (bm_replace m)) as [result w].
  by rewrite (IH _ E result (bm_rest m) eq_refl).
Qed.

(** One block whose search text occurs: the first occurrence is replaced. *)
Lemma apply_block_found (result search replace : str) :
  occurs (normalize search) (normalize result) ->
  exists pre post,
    normalize result = pre ++ normalize search ++ post
    /\ (forall j, j < length pre ->
          startsWith (drop j (normalize result)) (normalize search) = false)
    /\ apply_block result search replace = (pre ++ replace ++ post, []).
Proof.
  intros (pre0 & post0 & Hocc).
  destruct (indexOf_occurs _ _ _ _ Hocc) as (i & Hi & _).
  pose proof Hi as (Hat & Hlen & Hfirst)%indexOf_Some.
  apply startsWith_prefix in Hat as [post Hpost].
  exists (take i (normalize result)), post.
  assert (normalize result = take i (normalize result) ++ normalize search ++ post) as Hsplit.
  { by rewrite <- Hpost, take_drop. }
  split_and!; [done | |].
  - intros j Hj. apply Hfirst. rewrite length_take in Hj. lia.
  - unfold apply_block. rewrite Hi. unfold substring, substring_from.
    replace (0 `max` i - 0 `min` i) with i by lia.
    replace (0 `min` i) with 0 by lia. rewrite drop_0.
    do 2 f_equal. rewrite <- drop_drop, Hpost. by rewrite drop_app_length.
Qed.

(** One block whose search text does not occur: nothing changes, one
    warning. *)
Lemma apply_block_not_found (result search replace : str) :
  ~ occurs (normalize search) (normalize result) ->
  apply_block result search replace = (result, [WARN_NOT_FOUND]).
Proof.
  intros Hno. unfold apply_block.
  destruct (indexOf (normalize result) (normalize search)) as [i|] eqn:Hi; [|done].
  exfalso. apply Hno. apply indexOf_Some in Hi as (Hat & _).
  apply startsWith_prefix in Hat as [post Hpost].
  exists (take i (normalize result)), post. by rewrite <- Hpost, take_drop.
Qed.






(** Blocks none of which is found: the content is left as it is, with one
    warning for each. *)
Lemma apply_blocks_none_found (blocks : list (str * str)) (content : str) :
  Forall (fun b => ~ occurs (normalize b.1) (normalize content)) blocks ->
  apply_blocks blocks content = (content, replicate (length blocks) WARN_NOT_FOUND).
Proof.
  induction 1 as [|[search replace] blocks Hb _ IH]; [done|].
  cbn [apply_blocks]. rewrite apply_block_not_found by done. by rewrite IH.
Qed.

Lemma not_occurs_indexOf (p s : str) : indexOf s p = None -> ~ occurs p s.
Proof.
  intros Hi (pre & post & H). apply indexOf_occurs in H as (i & Hi' & _). congruence.
Qed.

Lemma trimStart_length (s : str) : length (trimStart s) <= length s.
Proof.
  induction s as [|c s IH]; [done|]. simpl. destruct (is_ws c); simpl; lia.
Qed.

Lemma contentRegex_here_length (s g1 rest : str) :
  contentRegex_here s = Some (g1, rest) -> length rest < length s.
Proof.
  unfold contentRegex_here. intros H.
  destruct (strip _ s) as [r0|] eqn:E0; cbn [mbind option_bind] in H; [|done].
  destruct (strip _ (trimStart r0)) as [r1|] eqn:E1; cbn [mbind option_bind] in H; [|done].
  destruct (strip _ (trimStart r1)) as [r2|] eqn:E2; cbn [mbind option_bind] in H; [|done].
  destruct (strip SEARCH_MARK r2) as [r3|] eqn:E3; cbn [mbind option_bind] in H; [|done].
  match type of H with context [lazy_any ?k r3] =>
    destruct (lazy_any k r3) as [[g rest']|] eqn:E4 end;
    cbn [mbind option_bind] in H; [|done].
  injection H as _ <-.
  apply lazy_any_Some in E4 as (q & -> & E4).
  apply strip_Some in E0, E1, E2, E3, E4.
  pose proof (trimStart_length r0). pose proof (trimStart_length r1).
  apply (f_equal length) in E0, E1, E2, E3, E4.
  rewrite !length_app in *. simpl in *. lia.
Qed.

(** The fuel given to the replacement loop is never used up. *)
Lemma normalizeJson_loop_fuel (fuel : nat) (s : str) :
  length s < fuel -> is_Some (normalizeJson_loop fuel s).
Proof.
  revert s. induction fuel as [|fuel IH]; intros s Hlen; [lia|].
  cbn [normalizeJson_loop].
  destruct (contentRegex_here s) as [[g1 rest]|] eqn:E.
  - apply contentRegex_here_length in E.
    destruct (IH rest ltac:(lia)) as [out ->]. done.
  - destruct s as [|c s]; [done|].
    destruct (IH s ltac:(simpl in Hlen; lia)) as [out ->]. done.
Qed.

Lemma normalizeJson_loop_more (fuel1 fuel2 : nat) (s : str) :
  length s < fuel1 -> length s < fuel2 ->
  normalizeJson_loop fuel1 s = normalizeJson_loop fuel2 s.
Proof.
  revert fuel2 s. induction fuel1 as [|fuel1 IH]; intros [|fuel2] s H1 H2; [lia..|].
  cbn [normalizeJson_loop].
  destruct (contentRegex_here s) as [[g1 rest]|] eqn:E.
  - apply contentRegex_here_length in E. by rewrite (IH fuel2 rest) by lia.
  - destruct s as [|c s]; [done|]. by rewrite (IH fuel2 s) by (simpl in *; lia).
Qed.

(** The replacement, one step at a time: a match is rewritten and the
    search resumes after it; any other character is kept. *)
Lemma normalizeJsonLikeResponse_unfold (t : str) :
  normalizeJsonLikeResponse t
  = match contentRegex_here t with
    | Some (g1, rest) =>
        ([QUOTE] ++ lit "content" ++ [QUOTE] ++ lit ":" ++ [QUOTE])
          ++ esc g1 ++ [QUOTE] ++ normalizeJsonLikeResponse rest
    | None =>
        match t with
        | [] => []
        | c :: t' => c :: normalizeJsonLikeResponse t'
        end
    end.
Proof.
  unfold normalizeJsonLikeResponse at 1. cbn [normalizeJson_loop].
  destruct (contentRegex_here t) as [[g1 rest]|] eqn:E.
  - apply contentRegex_here_length in E. unfold normalizeJsonLikeResponse.
    rewrite (normalizeJson_loop_more (length t) (S (length rest))) by lia.
    destruct (normalizeJson_loop_fuel (S (length rest)) rest ltac:(lia)) as [out ->].
    done.
  - destruct t as [|c t]; [done|]. unfold normalizeJsonLikeResponse.
    destruct (normalizeJson_loop_fuel (S (length t)) t ltac:(lia)) as [out Hout].
    cbn [length]. by rewrite Hout.
Qed.

(** ** Lines *)

(** No line of [split(/\r?\n/)] holds a line feed. *)
Lemma split_lines_no_LF (s : str) : Forall (fun l => LF ∉ l) (split_lines s).
Proof.
  remember (length s) as n eqn:Hn. revert s Hn.
  induction (lt_wf n) as [n _ IH]. intros s ->.
  destruct s as [|c s]; cbn [split_lines].
  { repeat constructor. apply not_elem_of_nil. }
  assert (Forall (fun l => LF ∉ l) (split_lines s)) as Hs.
  { apply (IH (length s)); [simpl; lia | done]. }
  assert (c <> LF ->
          Forall (fun l => LF ∉ l)
            match split_lines s with
            | l :: ls => (c :: l) :: ls
            | [] => [[c]]
            end) as Hcons.
  { intros Hc. destruct (split_lines s) as [|l ls].
    - repeat constructor. by intros [?|[]%elem_of_nil]%elem_of_cons.
    - inversion Hs as [|? ? Hl Hls]; subst. constructor; [|done].
      by intros [?|?]%elem_of_cons. }
  destruct (Ascii.eqb_spec c LF) as [->|Hc].
  { constructor; [apply not_elem_of_nil | done]. }
  destruct (Ascii.eqb_spec c CR) as [->|Hc']; [|by apply Hcons].
  destruct s as [|d s]; [by apply Hcons|].
  destruct (Ascii.eqb_spec d LF) as [->|Hd]; [|by apply Hcons].
  constructor; [apply not_elem_of_nil|].
  apply (IH (length s)); [simpl; lia | done].
Qed.

Lemma split_on_line (d : ascii) (l : str) : d ∉ l -> split_on d l = [l].
Proof.
  induction l as [|c l IH]; [done|]. intros Hd. cbn [split_on].
  apply not_elem_of_cons in Hd as [Hc Hl].
  destruct (Ascii.eqb_spec c d) as [->|_]; [done|]. by rewrite IH.
Qed.

Lemma split_on_app (d : ascii) (l rest : str) :
  d ∉ l -> split_on d (l ++ d :: rest) = l :: split_on d rest.
Proof.
  induction l as [|c l IH]; intros Hd.
  - simpl. by rewrite Ascii.eqb_refl.
  - apply not_elem_of_cons in Hd as [Hc Hl]. cbn [app split_on].
    destruct (Ascii.eqb_spec c d) as [->|_]; [done|]. by rewrite IH.
Qed.

Lemma join_cons (sep p q : str) (ps : list str) :
  join sep (p :: q :: ps) = p ++ sep ++ join sep (q :: ps).
Proof. done. Qed.

(** Joining lines and splitting again gives the lines back. *)
Lemma split_on_join (d : ascii) (ls : list str) :
  ls <> [] -> Forall (fun l => d ∉ l) ls -> split_on d (join [d] ls) = ls.
Proof.
  induction ls as [|l ls IH]; [done|]. intros _ Hall.
  inversion Hall as [|? ? Hl Hls]; subst.
  destruct ls as [|l' ls].
  - by apply split_on_line.
  - rewrite join_cons. simpl app. rewrite split_on_app by done. f_equal. by apply IH.
Qed.

Lemma startsWith_char (l : str) (c : ascii) :
  startsWith l [c] = true <-> exists r, l = c :: r.
Proof.
  rewrite startsWith_prefix. split.
  - intros [r ->]. by exists r.
  - intros [r ->]. by exists r.
Qed.

Lemma startsWith_other_char (l : str) (c c' : ascii) :
  c <> c' -> startsWith l [c] = true -> startsWith l [c'] = false.
Proof.
  intros Hne [r ->]%startsWith_char.
  destruct (startsWith (c :: r) [c']) eqn:E; [|done].
  apply startsWith_char in E as [r' [= ->]]. done.
Qed.

Lemma hunk_sides_lines (hLines search replace : list str) :
  hunk_sides hLines search replace
  = (search ++ search_lines hLines, replace ++ replace_lines hLines).
Proof.
  revert search replace. induction hLines as [|l ls IH]; intros search replace.
  - simpl. by rewrite !app_nil_r.
  - cbn [hunk_sides]. unfold search_lines, replace_lines, substring_from.
    cbn [omap list_omap].
    fold (search_lines ls). fold (replace_lines ls).
    destruct (startsWith l (lit " ")) eqn:E1; cbn [orb].
    { rewrite IH. by rewrite <- !(assoc_L (++)). }
    destruct (startsWith l (lit "-")) eqn:E2; cbn [orb].
    { rewrite IH. rewrite (startsWith_other_char l "-" "+" ltac:(done) E2
                         : startsWith l (lit "+") = false).
      by rewrite <- !(assoc_L (++)). }
    destruct (startsWith l (lit "+")) eqn:E3; rewrite IH; [|done].
    by rewrite <- !(assoc_L (++)).
Qed.

(** ** The text of a block read back by [blockRegex] *)

Lemma prefix_app_sep (p l r : str) (c : ascii) :
  c ∉ p -> p `prefix_of` l ++ c :: r -> p `prefix_of` l.
Proof.
  revert l. induction p as [|a p IH]; intros l Hc Hp; [apply prefix_nil|].
  apply not_elem_of_cons in Hc as [Hca Hcp].
  destruct l as [|b l]; simpl in Hp.
  - apply prefix_cons_inv_1 in Hp. congruence.
  - pose proof (prefix_cons_inv_1 _ _ _ _ Hp) as ->.
    apply prefix_cons, IH; [done|]. by apply prefix_cons_inv_2 in Hp.
Qed.

(** Over a line without line breaks a continuation that begins with
    [\r?\n] never succeeds: the lazy star runs to the end of the line. *)
Lemma lazy_any_skip_line {A} (k : str -> option A) (l rest : str) :
  (forall c r, c <> LF -> c <> CR -> k (c :: r) = None) ->
  LF ∉ l -> CR ∉ l ->
  lazy_any k (l ++ rest) = (fun '(g, a) => (l ++ g, a)) <$> lazy_any k rest.
Proof.
  intros Hk. induction l as [|c l IH]; intros HLF HCR.
  - simpl. by destruct (lazy_any k rest) as [[g a]|].
  - apply not_elem_of_cons in HLF as [? ?]. apply not_elem_of_cons in HCR as [? ?].
    cbn [app lazy_any]. rewrite Hk by done. rewrite IH by done.
    by destruct (lazy_any k rest) as [[g a]|].
Qed.

Lemma join_line_shape (l : str) (ls : list str) (tail : str) :
  exists r, join [LF] (l :: ls) ++ LF :: tail = l ++ LF :: r.
Proof.
  destruct ls as [|l' ls].
  - by exists tail.
  - rewrite join_cons. exists (join [LF] (l' :: ls) ++ LF :: tail).
    by rewrite <- !(assoc_L (++)).
Qed.

(** Lines joined by line feeds and followed by a line feed: the lazy star
    stops at that last line feed when the continuation accepts there and
    rejects every line of the text. *)
Lemma lazy_any_lines {A} (k : str -> option A) (P : str -> Prop)
    (lines : list str) (tail : str) (a : A) :
  (forall c r, c <> LF -> c <> CR -> k (c :: r) = None) ->
  (forall l r, LF ∉ l -> CR ∉ l -> P l -> k (LF :: l ++ LF :: r) = None) ->
  Forall (fun l => (LF ∉ l) /\ (CR ∉ l) /\ P l) lines ->
  k (LF :: tail) = Some a ->
  lazy_any k (join [LF] lines ++ LF :: tail) = Some (join [LF] lines, a).
Proof.
  intros Hk Hline Hall Htail.
  induction Hall as [|l ls (HLF & HCR & HP) Hls IH].
  - simpl. by rewrite Htail.
  - destruct ls as [|l' ls].
    + cbn [join]. rewrite lazy_any_skip_line by done.
      cbn [lazy_any]. rewrite Htail. simpl. by rewrite app_nil_r.
    + rewrite join_cons, <- !(assoc_L (++)).
      rewrite lazy_any_skip_line by done.
      change ([LF] ++ join [LF] (l' :: ls) ++ LF :: tail)
        with (LF :: (join [LF] (l' :: ls) ++ LF :: tail)).
      cbn [lazy_any].
      destruct (join_line_shape l' ls tail) as [r Hr].
      inversion Hls as [|? ? (HLF' & HCR' & HP') _]; subst.
      rewrite Hr at 1. rewrite Hline by done. rewrite IH. done.
Qed.

Lemma LF_not_in_SEP_MARK : LF ∉ SEP_MARK.
Proof. apply (bool_decide_unpack _). by vm_compute. Qed.

Lemma LF_not_in_REPLACE_MARK : LF ∉ REPLACE_MARK.
Proof. apply (bool_decide_unpack _). by vm_compute. Qed.

Lemma replace_end_other (c : ascii) (r : str) :
  c <> LF -> c <> CR -> replace_end (c :: r) = None.
Proof. intros. unfold replace_end. by rewrite eol_other. Qed.

Lemma search_end_other (c : ascii) (r : str) :
  c <> LF -> c <> CR -> search_end (c :: r) = None.
Proof. intros. unfold search_end. by rewrite eol_other. Qed.

(** The replacement lines are read back up to the closing marker. *)
Lemma replace_end_reads (lines : list str) (rest : str) :
  Forall (fun l => (LF ∉ l) /\ (CR ∉ l) /\ ~ REPLACE_MARK `prefix_of` l) lines ->
  lazy_any replace_end (join [LF] lines ++ LF :: REPLACE_MARK ++ rest)
  = Some (join [LF] lines, rest).
Proof.
  intros Hall.
  apply (lazy_any_lines replace_end (fun l => ~ REPLACE_MARK `prefix_of` l)).
  - apply replace_end_other.
  - intros l r HLF HCR Hp. unfold replace_end. rewrite eol_LF. cbn [mbind option_bind].
    apply strip_None. intros H. apply Hp.
    by apply (prefix_app_sep _ _ r LF LF_not_in_REPLACE_MARK).
  - done.
  - unfold replace_end. rewrite eol_LF. cbn [mbind option_bind]. apply strip_app.
Qed.

(** The search lines are read back up to the separator, and the
    replacement lines after it. *)
Lemma search_end_reads (search replace : list str) (rest : str) :
  Forall (fun l => (LF ∉ l) /\ (CR ∉ l) /\ l <> SEP_MARK) search ->
  Forall (fun l => (LF ∉ l) /\ (CR ∉ l) /\ ~ REPLACE_MARK `prefix_of` l) replace ->
  lazy_any search_end
    (join [LF] search ++ LF :: SEP_MARK ++ LF :: join [LF] replace
       ++ LF :: REPLACE_MARK ++ rest)
  = Some (join [LF] search, (join [LF] replace, rest)).
Proof.
  intros Hs Hr.
  apply (lazy_any_lines search_end (fun l => l <> SEP_MARK)).
  - apply search_end_other.
  - intros l r HLF HCR Hne. unfold search_end. rewrite eol_LF. cbn [mbind option_bind].
    destruct (strip SEP_MARK (l ++ LF :: r)) as [r3|] eqn:E; [|done]. cbn [mbind option_bind].
    apply strip_Some in E.
    assert (SEP_MARK `prefix_of` l) as [l' ->].
    { apply (prefix_app_sep _ _ r LF LF_not_in_SEP_MARK). by exists r3. }
    rewrite <- (assoc_L (++)) in E. apply (inj (app SEP_MARK)) in E as <-.
    destruct l' as [|c l']; [by rewrite app_nil_r in Hne|].
    apply not_elem_of_app in HLF as [_ [HLF _]%not_elem_of_cons].
    apply not_elem_of_app in HCR as [_ [HCR _]%not_elem_of_cons].
    cbn [app]. rewrite eol_other; [done | by apply not_eq_sym | by apply not_eq_sym].
  - done.
  - unfold search_end. rewrite eol_LF. cbn [mbind option_bind]. rewrite strip_app. cbn [mbind option_bind].
    rewrite eol_LF. cbn [mbind option_bind]. by apply replace_end_reads.
Qed.

Lemma blockRegex_here_block_text (search replace : list str) (rest : str) :
  Forall (fun l => (LF ∉ l) /\ (CR ∉ l) /\ l <> SEP_MARK) search ->
  Forall (fun l => (LF ∉ l) /\ (CR ∉ l) /\ ~ REPLACE_MARK `prefix_of` l) replace ->
  blockRegex_here (block_text search replace ++ rest)
  = Some (BlockMatch (join [LF] search) (join [LF] replace) rest).
Proof.
  intros Hs Hr. unfold blockRegex_here.
  replace (block_text search replace ++ rest)
    with (SEARCH_MARK ++ LF :: join [LF] search ++ LF :: SEP_MARK
            ++ LF :: join [LF] replace ++ LF :: REPLACE_MARK ++ rest)
    by (unfold block_text; by rewrite <- !(assoc_L (++))).
  rewrite strip_app. cbn [mbind option_bind]. rewrite eol_LF.
  cbn [mbind option_bind]. by rewrite search_end_reads.
Qed.

Lemma blockRegex_here_LF (s : str) : blockRegex_here (LF :: s) = None.
Proof. done. Qed.

Lemma elem_of_drop_1 (c : ascii) (l : str) : c ∈ drop 1 l -> c ∈ l.
Proof. destruct l as [|b l]; [done|]. simpl. rewrite drop_0. by right. Qed.

(** A hunk whose lines are clean, in the terms of the lemmas above. *)
Lemma clean_hunk_lines (hunk : list str) :
  Forall (fun l => LF ∉ l) hunk ->
  clean_hunk hunk = true ->
  Forall (fun l => (LF ∉ l) /\ (CR ∉ l) /\ l <> SEP_MARK) (search_lines hunk)
  /\ Forall (fun l => (LF ∉ l) /\ (CR ∉ l) /\ ~ REPLACE_MARK `prefix_of` l)
       (replace_lines hunk).
Proof.
  unfold clean_hunk. rewrite !andb_true_iff, !forallb_forall.
  intros HLF [[Hplain Hsearch] Hreplace].
  assert (forall l, l ∈ hunk -> (LF ∉ drop 1 l) /\ (CR ∉ drop 1 l)) as Hdrop.
  { intros l Hl. rewrite Forall_forall in HLF.
    specialize (HLF l Hl). specialize (Hplain l (proj1 (list_elem_of_In _ _) Hl)).
    apply bool_decide_eq_true in Hplain.
    split; intros Hin; [apply HLF | apply Hplain]; by apply elem_of_drop_1. }
  split; apply Forall_forall; intros l Hl.
  - pose proof Hl as Hl'. unfold search_lines in Hl'.
    apply list_elem_of_omap in Hl' as (l0 & Hl0 & Hsome).
    destruct (startsWith l0 (lit " ") || startsWith l0 (lit "-")); [|done].
    injection Hsome as <-. destruct (Hdrop l0 Hl0). split_and!; [done | done |].
    specialize (Hsearch _ (proj1 (list_elem_of_In _ _) Hl)).
    apply negb_true_iff, bool_decide_eq_false in Hsearch. done.
  - pose proof Hl as Hl'. unfold replace_lines in Hl'.
    apply list_elem_of_omap in Hl' as (l0 & Hl0 & Hsome).
    destruct (startsWith l0 (lit " ") || startsWith l0 (lit "+")); [|done].
    injection Hsome as <-. destruct (Hdrop l0 Hl0). split_and!; [done | done |].
    specialize (Hreplace _ (proj1 (list_elem_of_In _ _) Hl)).
    apply negb_true_iff in Hreplace. by apply startsWith_false.
Qed.

Lemma blockRegex_exec_here (s : str) (m : block_match) :
  blockRegex_here s = Some m -> blockRegex_exec s = Some m.
Proof. intros H. destruct s; cbn [blockRegex_exec]; by rewrite H. Qed.

Lemma diff_blocks_LF (s : str) : diff_blocks (LF :: s) = diff_blocks s.
Proof.
  rewrite (diff_blocks_unfold (LF :: s)), (diff_blocks_unfold s).
  cbn [blockRegex_exec]. by rewrite blockRegex_here_LF.
Qed.

(** The blocks read from the text of clean hunks are the hunks. *)
Lemma diff_blocks_hunks (hunks : list (list str)) :
  Forall (Forall (fun l => LF ∉ l)) hunks ->
  forallb clean_hunk hunks = true ->
  diff_blocks (join [LF] (hunk_text <$> hunks)) = hunk_block <$> hunks.
Proof.
  intros HLF. induction HLF as [|h hs Hh Hhs IH]; [done|].
  cbn [forallb]. rewrite andb_true_iff. intros [Hc Hcs].
  destruct (clean_hunk_lines h Hh Hc) as [Hs Hr].
  rewrite diff_blocks_unfold. destruct hs as [|h' hs].
  - cbn [fmap list_fmap join]. unfold hunk_text at 1.
    rewrite <- (app_nil_r (block_text _ _)).
    by rewrite (blockRegex_exec_here _ _ (blockRegex_here_block_text _ _ [] Hs Hr)).
  - rewrite !fmap_cons, join_cons. unfold hunk_text at 1.
    rewrite (blockRegex_exec_here _ _ (blockRegex_here_block_text _ _ _ Hs Hr)).
    cbn [bm_search bm_replace bm_rest].
    change ([LF] ++ ?x) with (LF :: x). rewrite diff_blocks_LF.
    rewrite <- !fmap_cons. by rewrite IH.
Qed.

(** ** A diff in the syntax of the specification, read back *)





Lemma cut_first_indexOf (p s : str) :
  cut_first p s = (fun i => (take i s, drop (i + length p) s)) <$> indexOf s p.
Proof.
  induction s as [|c s IH]; cbn [cut_first indexOf].
  - by destruct (startsWith [] p).
  - destruct (startsWith (c :: s) p); [done|]. rewrite IH.
    by destruct (indexOf s p).
Qed.












(** ** The text after the last closing marker *)








Section Tail.
Variable tail : str.















End Tail.


(** ** The search/replace engine *)








(** ** Edits *)

(** C9. A FULL_REWRITE edit gives the content of the edit whatever the
    working content was, also from the empty content that stands for a file
    that does not exist yet, and applying it twice is the same as applying
    it once.  Where the directory of the file can be made, the workspace
    edit prepared for the file carries that content: a new file is created
    with it, and the document of an existing file, once opened, is replaced
    by it. *)
Theorem full_rewrite_is_content_and_idempotent (c : change) :
  type c = T_FULL_REWRITE ->
  (forall workingContent : str, apply_change workingContent c = (content c, []))
  /\ (forall workingContent : str,
        apply_change (apply_change workingContent c).1 c = apply_change workingContent c)
  /\ (forall workingContent : str,
        apply_changes workingContent [c; c] = apply_changes workingContent [c])
  /\ (forall (world : Type) (path_join : list str -> str) (path_dirname : str -> str)
             (existsSync : world -> str -> bool)
             (mkdirSync : str -> world -> bool * world)
             (openTextDocument : str -> world -> option str * world)
             (workspaceRoot : str) (w w1 : world),
        let targetPath := path_join [workspaceRoot; file_path c] in
        let prepared :=
          prepare_file path_join path_dirname existsSync mkdirSync openTextDocument
            workspaceRoot w (file_path c) [c] in
        mkdirSync (path_dirname targetPath) w = (true, w1) ->
        (existsSync w1 targetPath = false ->
         prepared
         = ([EditCreateFile targetPath; EditInsert targetPath (content c)], true, [], w1))
        /\ (forall (text : str) (w2 : world),
              existsSync w1 targetPath = true ->
              openTextDocument targetPath w1 = (Some text, w2) ->
              prepared = ([EditReplace targetPath (content c)], true, [], w2))).
Proof.
  intros Hc.
  assert (forall workingContent, apply_change workingContent c = (content c, [])) as H.
  { intros w. unfold apply_change. by rewrite Hc. }
  split_and!; [done | | |].
  - intros w. by rewrite !H.
  - intros w. cbn [apply_changes]. by rewrite !H.
  - intros world path_join path_dirname existsSync mkdirSync openTextDocument
      root w w1 targetPath prepared Hmk. subst prepared.
    unfold prepare_file. fold targetPath. rewrite Hmk. split.
    + intros ->. cbn [apply_changes]. by rewrite H.
    + intros text w2 -> ->. cbn [apply_changes]. by rewrite H.
Qed.

Lemma full_rewrite_is_content_and_idempotent_witness :
  let c := Change (lit "src/a.ts") T_FULL_REWRITE (lit "x") in
  apply_change (lit "old") c = (lit "x", [])
  /\ prepare_file example_join example_dirname example_existsSync example_mkdirSync
       example_openTextDocument (lit "/work") example_world1 (lit "src/a.ts") [c]
     = ([EditReplace (lit "/work/src/a.ts") (lit "x")], true, [], example_world1)
  /\ prepare_file example_join example_dirname example_existsSync example_mkdirSync
       example_openTextDocument (lit "/work") example_world1 (lit "src/new.ts")
       [Change (lit "src/new.ts") T_FULL_REWRITE (lit "x")]
     = ([EditCreateFile (lit "/work/src/new.ts");
         EditInsert (lit "/work/src/new.ts") (lit "x")], true, [], example_world1).
Proof.
  intros c. split_and!.
  - apply (proj1 (full_rewrite_is_content_and_idempotent c eq_refl)).
  - apply (proj2 (proj2 (proj2 (proj2
             (full_rewrite_is_content_and_idempotent c eq_refl)))
             example_world example_join example_dirname example_existsSync
             example_mkdirSync example_openTextDocument (lit "/work")
             example_world1 example_world1 eq_refl) (lit "A") example_world1);
      reflexivity.
  - apply (proj1 (proj2 (proj2 (proj2
             (full_rewrite_is_content_and_idempotent
                (Change (lit "src/new.ts") T_FULL_REWRITE (lit "x")) eq_refl)))
             example_world example_join example_dirname example_existsSync
             example_mkdirSync example_openTextDocument (lit "/work")
             example_world1 example_world1 eq_refl)); reflexivity.
Defined.

Lemma replace_first_prefix (p rest : str) : replace_first (p ++ rest) p [] = rest.
Proof.
  unfold replace_first.
  assert (indexOf (p ++ rest) p = Some 0) as ->.
  { apply indexOf_Some. split_and!; [apply startsWith_app | lia | lia]. }
  simpl. by rewrite drop_app_length.
Qed.




(** ** The envelope as a list of hunks *)

Lemma pushBlock_hunk (st : patch_state) :
  Forall (fun l => LF ∉ l) (collects st) ->
  pushBlock st
  = PatchState (inUpdate st) []
      (outBlocks st ++ (hunk_text <$> close_hunk (collects st))).
Proof.
  intros Hall. unfold pushBlock. destruct st as [i c o]. simpl.
  destruct c as [|l ls]; [by rewrite app_nil_r|].
  rewrite split_on_join by done. rewrite hunk_sides_lines. done.
Qed.

(** The text that [patchEnvelopeToDiffForFile] builds is the text of the
    hunks of the envelope, one block each. *)
Lemma patch_loop_hunks (targetFile : str) (lines : list str) (st : patch_state) :
  Forall (fun l => LF ∉ l) lines ->
  Forall (fun l => LF ∉ l) (collects st) ->
  outBlocks (pushBlock (patch_loop targetFile lines st))
  = outBlocks st
    ++ (hunk_text <$> envelope_hunks targetFile lines (inUpdate st) (collects st)).
Proof.
  intros Hlines. revert st. induction Hlines as [|l ls Hl Hls IH]; intros st Hc.
  { cbn [patch_loop envelope_hunks]. by rewrite pushBlock_hunk. }
  cbn [patch_loop envelope_hunks].
  destruct (startsWith l UPDATE_FILE) eqn:E1.
  { rewrite IH by done. cbn [inUpdate collects outBlocks].
    apply startsWith_prefix in E1 as [rest ->].
    by rewrite replace_first_prefix, drop_app_length. }
  destruct (inUpdate st) eqn:Ein; cbn [negb]; [|by rewrite IH, ?Ein].
  destruct (startsWith l HUNK_MARK) eqn:E2.
  { rewrite IH by (rewrite pushBlock_hunk by done; constructor).
    rewrite pushBlock_hunk by done. cbn [inUpdate collects outBlocks].
    by rewrite Ein, fmap_app, (assoc_L (++)). }
  destruct (startsWith l END_PATCH) eqn:E3.
  { by rewrite pushBlock_hunk. }
  destruct (startsWith l (lit " ") || startsWith l (lit "-") || startsWith l (lit "+")).
  - rewrite IH; cbn [inUpdate collects outBlocks]; [by rewrite ?Ein|].
    apply Forall_app. split; [done | by constructor].
  - by rewrite IH, ?Ein.
Qed.

Lemma patchEnvelopeToDiffForFile_hunks (patch targetFile : str) :
  patchEnvelopeToDiffForFile patch targetFile
  = join [LF] (hunk_text <$> envelope_hunks targetFile (split_lines patch) false []).
Proof.
  unfold patchEnvelopeToDiffForFile.
  rewrite patch_loop_hunks; [done | apply split_lines_no_LF | constructor].
Qed.

Lemma envelope_hunks_no_LF (targetFile : str) (lines : list str)
    (inSection : bool) (hunk : list str) :
  Forall (fun l => LF ∉ l) lines ->
  Forall (fun l => LF ∉ l) hunk ->
  Forall (Forall (fun l => LF ∉ l)) (envelope_hunks targetFile lines inSection hunk).
Proof.
  assert (forall h, Forall (fun l => LF ∉ l) h ->
                    Forall (Forall (fun l => LF ∉ l)) (close_hunk h)) as Hclose.
  { intros [|l h] Hh; simpl;
      [apply Forall_nil_2 | apply Forall_cons_2; [done | apply Forall_nil_2]]. }
  intros Hlines. revert inSection hunk.
  induction Hlines as [|l ls Hl Hls IH]; intros inSection hunk Hh.
  { by apply Hclose. }
  cbn [envelope_hunks].
  destruct (startsWith l UPDATE_FILE); [by apply IH|].
  destruct inSection; cbn [negb]; [|by apply IH].
  destruct (startsWith l HUNK_MARK).
  { apply Forall_app. split; [by apply Hclose | apply IH, Forall_nil_2]. }
  destruct (startsWith l END_PATCH); [by apply Hclose|].
  destruct (startsWith l (lit " ") || startsWith l (lit "-") || startsWith l (lit "+")).
  - apply IH. apply Forall_app. split; [done | by apply Forall_singleton].
  - by apply IH.
Qed.

(** The hunks of the specification are those that the conversion collects. *)
Lemma hunk_mark_not_end (l : str) :
  startsWith l HUNK_MARK = true -> startsWith l END_PATCH = false.
Proof.
  intros [k ->]%startsWith_prefix. done.
Qed.

Lemma envelope_hunks_groups (targetFile : str) (lines : list str)
    (inSection : bool) (hunk : list str) :
  envelope_hunks targetFile lines inSection (List.filter hunk_line hunk)
  = List.filter nonempty
      (List.filter hunk_line
         <$> group_hunks (section_lines targetFile lines inSection) hunk).
Proof.
  revert inSection hunk. induction lines as [|l ls IH]; intros inSection hunk.
  { cbn. by destruct (List.filter hunk_line hunk). }
  cbn [envelope_hunks section_lines].
  destruct (startsWith l UPDATE_FILE); [by apply IH|].
  destruct inSection; cbn [negb]; [|by apply IH].
  destruct (startsWith l HUNK_MARK) eqn:E2.
  { rewrite (hunk_mark_not_end l E2). cbn [group_hunks]. rewrite E2.
    rewrite fmap_cons. cbn [List.filter].
    rewrite <- (IH true []). by destruct (List.filter hunk_line hunk). }
  destruct (startsWith l END_PATCH).
  { cbn. by destruct (List.filter hunk_line hunk). }
  cbn [group_hunks]. rewrite E2. rewrite <- IH, List.filter_app. cbn [List.filter].
  fold (hunk_line l). destruct (hunk_line l); [done | by rewrite app_nil_r].
Qed.

Lemma hunks_of_envelope_loop (patch targetFile : str) :
  hunks_of_envelope patch targetFile
  = envelope_hunks targetFile (split_lines patch) false [].
Proof. unfold hunks_of_envelope. by rewrite <- envelope_hunks_groups. Qed.

(** ** The two ways to apply an envelope *)

(** C2.  The two ways do not agree on every hunk.  The hunk that takes out
    the lines [a] and [=======] and puts in the line [b] is one block when
    it is interpreted directly: on the content [a], [=======] it leaves
    [b].  The conversion writes that block as text, and the text is read
    back with its search text cut at the removed line [=======]: the PATCH
    edit replaces [a] alone, by [=======] and [b].  On the envelope of the
    prompt the two ways agree. *)
Theorem patch_separator_line_diverges :
  let content := text ["a"; "======="; ""]%string in
  hunks_as_specified separator_patch (lit "f") = [[lit "-a"; lit "-======="; lit "+b"]]
  /\ hunk_block [lit "-a"; lit "-======="; lit "+b"]
     = (text ["a"; "======="]%string, lit "b")
  /\ envelope_as_specified content separator_patch (lit "f")
     = (text ["b"; ""]%string, [])
  /\ patchEnvelopeToDiffForFile separator_patch (lit "f")
     = text ["<<<<<<< SEARCH"; "a"; "======="; "======="; "b"; ">>>>>>> REPLACE"]%string
  /\ diff_blocks (patchEnvelopeToDiffForFile separator_patch (lit "f"))
     = [(lit "a", text ["======="; "b"]%string)]
  /\ apply_change content (Change (lit "f") T_PATCH separator_patch)
     = (text ["======="; "b"; "======="; ""]%string, [])
  /\ apply_change (text ["keep"; "old line"; "end"]%string)
       (Change (lit "src/a.ts") T_PATCH example_patch)
     = envelope_as_specified (text ["keep"; "old line"; "end"]%string)
         example_patch (lit "src/a.ts")
  /\ envelope_as_specified (text ["keep"; "old line"; "end"]%string)
       example_patch (lit "src/a.ts")
     = (text ["keep"; "new line"; "end"]%string, []).
Proof. split_and!; vm_compute; reflexivity. Qed.

(** ** The repair of [content] fields *)

(** C8 fails on the code.  The repair rewrites every [content] field that
    holds a SEARCH/REPLACE text, whether or not it spans raw line breaks: a
    field that already is a well-formed JSON string has its backslashes
    doubled, and a field written over several raw lines comes out as it went
    in, line feeds unescaped.  The doubled field stands for a diff whose
    lines are separated by the two characters backslash, [n]: a text without
    any block, where the field as it was sent stands for the block that
    replaces [line2] by [CHANGED]. *)
Theorem normalizeJsonLikeResponse_on_escaped_and_raw_fields :
  normalizeJsonLikeResponse escaped_diff_field = doubled_diff_field
  /\ doubled_diff_field <> escaped_diff_field
  /\ normalizeJsonLikeResponse raw_diff_field = raw_diff_field
  /\ diff_blocks
       (join escaped_newline
          (lit <$> ["<<<<<<< SEARCH"; "line2"; "======="; "CHANGED";
                    ">>>>>>> REPLACE"]%string)) = []
  /\ diff_blocks
       (text ["<<<<<<< SEARCH"; "line2"; "======="; "CHANGED"; ">>>>>>> REPLACE"]%string)
     = [(lit "line2", lit "CHANGED")].
Proof. split_and!; by vm_compute. Qed.

(** ** The parsed response *)

Lemma obj_get_set_eq (fields : list (str * json)) (k : str) (v : json) :
  obj_get (obj_set fields k v) k = Some v.
Proof.
  induction fields as [|[k' v'] fs IH]; simpl.
  - by rewrite bool_decide_eq_true_2.
  - case_bool_decide; simpl.
    + by rewrite bool_decide_eq_true_2.
    + by rewrite bool_decide_eq_false_2.
Qed.

Lemma obj_get_set_ne (fields : list (str * json)) (k k0 : str) (v : json) :
  k0 <> k -> obj_get (obj_set fields k v) k0 = obj_get fields k0.
Proof.
  intros Hne. induction fields as [|[k' v'] fs IH]; simpl.
  - by rewrite bool_decide_eq_false_2.
  - case_bool_decide as Hk; simpl.
    + subst k'. by rewrite !bool_decide_eq_false_2.
    + case_bool_decide; done.
Qed.

(** The first candidate that parses, written with list functions. *)
Lemma first_parse_head (JSON_parse : str -> option json) (cs : list str) :
  JSON_parse [] = None ->
  first_parse JSON_parse cs = head (omap JSON_parse cs).
Proof.
  intros Hnil. induction cs as [|c cs IH]; [done|].
  cbn [first_parse omap list_omap]. destruct c as [|a c].
  - by rewrite Hnil.
  - by destruct (JSON_parse (a :: c)).
Qed.

Lemma first_parse_hit (JSON_parse : str -> option json) (cs : list str)
    (c : str) (v : json) :
  head cs = Some c -> c <> [] -> JSON_parse c = Some v ->
  first_parse JSON_parse cs = Some v.
Proof.
  destruct cs as [|c' cs]; [done|]. intros [= ->] Hc Hv.
  cbn [first_parse]. destruct c; [done|]. by rewrite Hv.
Qed.

(** C5. An array is wrapped as the changes of a COMPLETED change-set; an
    object without [status] whose [code_changes] is an array gets the
    status COMPLETED and keeps its other fields; the bare array of the
    specification gives a COMPLETED change-set with one edit. *)
Theorem coerce_array_and_statusless_object :
  (forall items : list json,
     coerce (JArr items)
     = JObj [(K_status, JStr S_COMPLETED); (K_code_changes, JArr items)])
  /\ (forall (fields : list (str * json)) (items : list json),
        obj_get fields K_status = None ->
        obj_get fields K_code_changes = Some (JArr items) ->
        exists fields',
          coerce (JObj fields) = JObj fields'
          /\ obj_get fields' K_status = Some (JStr S_COMPLETED)
          /\ forall k, k <> K_status -> obj_get fields' k = obj_get fields k)
  /\ (forall JSON_parse : str -> option json,
        JSON_parse bare_array_text = Some bare_array_value ->
        parse_response JSON_parse bare_array_text
        = Some (JObj [(K_status, JStr S_COMPLETED); (K_code_changes, bare_array_value)])
        /\ group_entries
             [JObj [(K_file_path, JStr (lit "a.ts")); (K_type, JStr T_FULL_REWRITE);
                    (K_content, JStr (lit "x"))]] []
           = Grouped [(lit "a.ts", [Change (lit "a.ts") T_FULL_REWRITE (lit "x")])]).
Proof.
  split_and!.
  - done.
  - intros fields items Hs Hc. exists (obj_set fields K_status (JStr S_COMPLETED)).
    split_and!.
    + unfold coerce. simpl. by rewrite Hs, Hc.
    + apply obj_get_set_eq.
    + intros k Hk. by apply obj_get_set_ne.
  - intros JSON_parse Hp. split; [|by vm_compute].
    unfold parse_response, extract_json.
    rewrite (first_parse_hit JSON_parse _ bare_array_text bare_array_value);
      [done | by vm_compute | done | done].
Qed.

Lemma coerce_array_and_statusless_object_witness :
  (exists fields',
     coerce (JObj [(K_code_changes, JArr [])]) = JObj fields'
     /\ obj_get fields' K_status = Some (JStr S_COMPLETED)
     /\ forall k, k <> K_status ->
          obj_get fields' k = obj_get [(K_code_changes, JArr [])] k)
  /\ parse_response example_parse bare_array_text
     = Some (JObj [(K_status, JStr S_COMPLETED); (K_code_changes, bare_array_value)]).
Proof.
  split.
  - apply (proj1 (proj2 coerce_array_and_statusless_object)
             [(K_code_changes, JArr [])] []); reflexivity.
  - apply (proj2 (proj2 coerce_array_and_statusless_object) example_parse).
    vm_compute. reflexivity.
Defined.

Section Outcomes.

Context {world : Type}.
Variable JSON_parse : str -> option json.
Variable path_join : list str -> str.
Variable path_dirname : str -> str.
Variable existsSync : world -> str -> bool.
Variable mkdirSync : str -> world -> bool * world.
Variable copyFileSync : str -> str -> world -> bool * world.
Variable openTextDocument : str -> world -> option str * world.
Variable generateSystemPrompt : str -> list str -> str.
Variable applyEdit : list edit_op -> world -> bool * world.

(** C7. A response from which no candidate parses leaves the round, the
    round directory, the prompt and every file as they were, and the user is
    shown one error.  A response whose parsed value is not [null] and has a
    [status] that is neither COMPLETED nor NEED_CONTEXT (or none at all)
    leaves them as they were too, and the user is shown one warning.  A
    response that parses to [null] changes nothing either, but reading its
    [status] throws: the call ends with an exception and the user is shown
    nothing. *)
Theorem unparseable_or_unknown_changes_nothing
    (jsonText workspaceRoot goal : str) (st : state) (w : world) :
  let handle :=
    handleAIResponse JSON_parse path_join path_dirname existsSync mkdirSync
      copyFileSync openTextDocument generateSystemPrompt applyEdit
      jsonText workspaceRoot goal st w in
  (extract_json JSON_parse jsonText = None ->
     handle = Some (Outcome st w [ERR_INVALID_JSON] (Return ERROR)))
  /\ (forall data : json,
        parse_response JSON_parse jsonText = Some data ->
        data <> JNull ->
        prop data K_status <> Some (JStr S_COMPLETED) ->
        prop data K_status <> Some (JStr S_NEED_CONTEXT) ->
        handle = Some (Outcome st w [WARN_NO_STATUS] (Return UNKNOWN)))
  /\ (parse_response JSON_parse jsonText = Some JNull ->
        handle = Some (Outcome st w [] Throw)).
Proof.
  cbv zeta. unfold handleAIResponse. split_and!.
  - intros H. unfold parse_response. by rewrite H.
  - intros data -> Hnull Hc Hn. unfold dispatch.
    destruct data as [|b|n|s|items|fields]; try done.
    simpl in *. destruct (obj_get fields K_status) as [[|?|?|s|?|?]|]; try done.
    repeat case_bool_decide; subst; done.
  - by intros ->.
Qed.

End Outcomes.

Lemma unparseable_or_unknown_changes_nothing_witness :
  let handle jsonText :=
    handleAIResponse example_parse example_join example_dirname example_existsSync
      example_mkdirSync example_copyFileSync example_openTextDocument example_prompt
      example_applyEdit jsonText (lit "/work") (lit "goal")
      example_state1 example_world1 in
  handle (lit "not json at all")
  = Some (Outcome example_state1 example_world1 [ERR_INVALID_JSON] (Return ERROR))
  /\ handle done_text
     = Some (Outcome example_state1 example_world1 [WARN_NO_STATUS] (Return UNKNOWN))
  /\ handle (lit "null") = Some (Outcome example_state1 example_world1 [] Throw).
Proof.
  intros handle. split_and!.
  - apply (proj1 (unparseable_or_unknown_changes_nothing example_parse example_join
                    example_dirname example_existsSync example_mkdirSync
                    example_copyFileSync example_openTextDocument example_prompt
                    example_applyEdit (lit "not json at all")
                    (lit "/work") (lit "goal") example_state1 example_world1)).
    vm_compute. reflexivity.
  - apply (proj1 (proj2 (unparseable_or_unknown_changes_nothing example_parse
                    example_join example_dirname example_existsSync example_mkdirSync
                    example_copyFileSync example_openTextDocument example_prompt
                    example_applyEdit done_text
                    (lit "/work") (lit "goal") example_state1 example_world1))
             done_value).
    + vm_compute. reflexivity.
    + discriminate.
    + vm_compute. discriminate.
    + vm_compute. discriminate.
  - apply (proj2 (proj2 (unparseable_or_unknown_changes_nothing example_parse
                    example_join example_dirname example_existsSync example_mkdirSync
                    example_copyFileSync example_openTextDocument example_prompt
                    example_applyEdit (lit "null")
                    (lit "/work") (lit "goal") example_state1 example_world1))).
    vm_compute. reflexivity.
Defined.

(** ** White space and fences *)

Lemma trimStart_ws_app (a s : str) :
  Forall (fun c => is_ws c = true) a -> trimStart (a ++ s) = trimStart s.
Proof.
  induction 1 as [|c a Hc _ IH]; [done|]. simpl. by rewrite Hc.
Qed.

Lemma trimStart_ws (a : str) :
  Forall (fun c => is_ws c = true) a -> trimStart a = [].
Proof.
  intros Ha. by rewrite <- (app_nil_r a), trimStart_ws_app.
Qed.

Lemma trimEnd_app_ws (s b : str) :
  Forall (fun c => is_ws c = true) b -> trimEnd (s ++ b) = trimEnd s.
Proof.
  intros Hb. unfold trimEnd.
  rewrite reverse_app, trimStart_ws_app; [done|].
  by apply Forall_reverse.
Qed.

Lemma trim_ws_app (a s b : str) :
  Forall (fun c => is_ws c = true) a ->
  Forall (fun c => is_ws c = true) b ->
  trim (a ++ s ++ b) = trim s.
Proof.
  intros Ha Hb. unfold trim. rewrite trimStart_ws_app by done.
  induction s as [|c s IH].
  - simpl. by rewrite trimStart_ws.
  - simpl. destruct (is_ws c); [done|].
    by apply (trimEnd_app_ws (c :: s)).
Qed.

Lemma trimStart_suffix (s : str) : exists ws, s = ws ++ trimStart s.
Proof.
  induction s as [|c s [ws IH]]; [by exists []|].
  simpl. destruct (is_ws c); [|by exists []].
  exists (c :: ws). by rewrite <- app_comm_cons, <- IH.
Qed.

Lemma trimStart_idem (s : str) : trimStart (trimStart s) = trimStart s.
Proof.
  induction s as [|c s IH]; [done|].
  simpl. destruct (is_ws c) eqn:E; [done|]. simpl. by rewrite E.
Qed.

Lemma is_ws_white (c : ascii) : is_ws c = white c.
Proof. destruct c as [[] [] [] [] [] [] [] []]; by vm_compute. Qed.

Lemma trimStart_white (s : str) : trimStart s = without_leading_white s.
Proof.
  induction s as [|c s IH]; [done|]. simpl. rewrite is_ws_white, IH. done.
Qed.

Lemma trimStart_snoc (a : str) (c : ascii) :
  trimStart (a ++ [c])
  = match trimStart a with
    | [] => if is_ws c then [] else [c]
    | _ :: _ => trimStart a ++ [c]
    end.
Proof.
  induction a as [|d a IH]; [simpl; by destruct (is_ws c)|].
  simpl. by destruct (is_ws d).
Qed.

Lemma trimEnd_cons (c : ascii) (s : str) :
  trimEnd (c :: s)
  = if is_ws c && bool_decide (trimEnd s = []) then [] else c :: trimEnd s.
Proof.
  unfold trimEnd. rewrite reverse_cons, trimStart_snoc.
  destruct (trimStart (reverse s)) as [|d r] eqn:E.
  - rewrite reverse_nil, bool_decide_eq_true_2 by done.
    rewrite andb_true_r. by destruct (is_ws c).
  - rewrite reverse_app, reverse_singleton. cbn [app].
    rewrite bool_decide_eq_false_2; [by rewrite andb_false_r|].
    intros H. apply (f_equal length) in H.
    rewrite length_reverse in H. done.
Qed.

Lemma trimEnd_white (s : str) : trimEnd s = without_trailing_white s.
Proof.
  induction s as [|c s IH]; [done|].
  rewrite trimEnd_cons. cbn [without_trailing_white foldr].
  fold (without_trailing_white s). by rewrite <- IH, is_ws_white.
Qed.

(** The [trim] of the code takes the white space off both ends. *)
Lemma trim_trimmed (s : str) : trim s = trimmed s.
Proof. unfold trim, trimmed. by rewrite trimEnd_white, trimStart_white. Qed.

Lemma startsWith_decide (s p : str) : startsWith s p = bool_decide (p `prefix_of` s).
Proof.
  destruct (startsWith s p) eqn:E; symmetry.
  - by apply bool_decide_eq_true_2, startsWith_prefix.
  - by apply bool_decide_eq_false_2, startsWith_false.
Qed.

Lemma strip_json_tag_spec (s : str) : strip_json_tag s = without_json_tag s.
Proof.
  unfold strip_json_tag, without_json_tag, strip.
  rewrite startsWith_decide. case_bool_decide; [|done].
  by rewrite trimStart_white.
Qed.

Lemma strip_leading_fence_spec (t : str) :
  strip_leading_fence t = without_leading_fence t.
Proof.
  unfold strip_leading_fence, without_leading_fence, strip.
  rewrite startsWith_decide. case_bool_decide; [|done].
  rewrite startsWith_decide, trimStart_white.
  change (length FENCE) with 3. by case_bool_decide.
Qed.

Lemma trimStart_not_ws (a x : str) :
  ~ Forall (fun c => is_ws c = true) a -> trimStart (a ++ x) = trimStart a ++ x.
Proof.
  induction a as [|c a IH]; intros H; [by destruct H|].
  simpl. destruct (is_ws c) eqn:E; [|done].
  apply IH. intros Ha. apply H. by apply Forall_cons_2.
Qed.

Lemma trimEnd_ws (a : str) :
  Forall (fun c => is_ws c = true) a -> trimEnd a = [].
Proof.
  induction 1 as [|c a Hc _ IH]; [done|].
  rewrite trimEnd_cons, IH, Hc. done.
Qed.

Lemma trimEnd_not_ws (c : ascii) (a : str) :
  ~ Forall (fun c => is_ws c = true) (c :: a) -> trimEnd (c :: a) = c :: trimEnd a.
Proof.
  intros H. rewrite trimEnd_cons.
  destruct (is_ws c) eqn:Ec; [|done]. cbn [andb].
  case_bool_decide as Ha; [|done]. destruct H. apply Forall_cons_2; [done|].
  clear Ec. induction a as [|d a IH]; [done|].
  rewrite trimEnd_cons in Ha. destruct (is_ws d) eqn:Ed; [|done].
  cbn [andb] in Ha. case_bool_decide as Ha'; [|done].
  apply Forall_cons_2; [done | by apply IH].
Qed.

Lemma strip_trailing_fence_no_fence (s : str) :
  ~ FENCE `suffix_of` s -> strip_trailing_fence s = s.
Proof.
  induction s as [|c s IH]; intros H; [done|].
  cbn [strip_trailing_fence]. unfold trailing_fence_here.
  rewrite bool_decide_eq_false_2.
  - rewrite IH; [done|]. intros Hs. apply H. by apply suffix_cons_r.
  - intros E. apply H. destruct (trimStart_suffix (c :: s)) as [ws Hws].
    rewrite Hws, E. by exists ws.
Qed.

Lemma strip_trailing_fence_fence (body : str) :
  strip_trailing_fence (body ++ FENCE) = trimEnd body.
Proof.
  induction body as [|c body IH]; [done|].
  cbn [app strip_trailing_fence]. unfold trailing_fence_here.
  destruct (decide (Forall (fun c => is_ws c = true) (c :: body))) as [Hws|Hws].
  - change (c :: body ++ FENCE) with ((c :: body) ++ FENCE).
    rewrite trimStart_ws_app by done.
    rewrite bool_decide_eq_true_2 by done. by rewrite trimEnd_ws.
  - change (c :: body ++ FENCE) with ((c :: body) ++ FENCE).
    rewrite trimStart_not_ws by done.
    rewrite bool_decide_eq_false_2.
    + rewrite IH. by rewrite trimEnd_not_ws.
    + intros E. apply (f_equal length) in E. rewrite length_app in E.
      assert (length (trimStart (c :: body)) = 0) as Hl by lia.
      apply nil_length_inv in Hl. apply Hws.
      destruct (trimStart_suffix (c :: body)) as [ws Hw]. rewrite Hl, app_nil_r in Hw.
      rewrite Hw. clear -Hl Hw. revert Hl. rewrite Hw at 1. clear Hw.
      induction ws as [|d ws IHw]; [done|]. simpl.
      destruct (is_ws d) eqn:Ed; [|done]. intros Hl. by apply Forall_cons_2; auto.
Qed.

Lemma strip_trailing_fence_spec (t : str) :
  strip_trailing_fence t = without_trailing_fence t.
Proof.
  unfold without_trailing_fence. case_bool_decide as H.
  - destruct H as [body ->]. rewrite strip_trailing_fence_fence.
    rewrite length_app. change (length FENCE) with 3.
    replace (length body + 3 - 3) with (length body) by lia.
    by rewrite take_app_length, trimEnd_white.
  - by apply strip_trailing_fence_no_fence.
Qed.

(** ** The candidates *)

Lemma cut_last_lastIndexOf (p s : str) :
  cut_last p s = (fun i => (take i s, drop (i + length p) s)) <$> lastIndexOf s p.
Proof.
  induction s as [|c s IH]; cbn [cut_last lastIndexOf].
  - destruct (startsWith [] p) eqn:E; [|done]. simpl. by rewrite drop_nil.
  - rewrite IH. destruct (lastIndexOf s p); [done|]. simpl.
    by destruct (startsWith (c :: s) p).
Qed.

(** [cut_first] cuts at an occurrence, and no occurrence starts before. *)
Lemma cut_first_Some (p s a b : str) :
  cut_first p s = Some (a, b) ->
  s = a ++ p ++ b
  /\ forall j, j < length a -> startsWith (drop j s) p = false.
Proof.
  rewrite cut_first_indexOf. destruct (indexOf s p) as [i|] eqn:E; [|done].
  intros [= <- <-]. apply indexOf_Some in E as (Hat & Hlen & Hfirst).
  apply startsWith_prefix in Hat as [k Hk]. split.
  - rewrite <- drop_drop, Hk, drop_app_length, <- Hk. by rewrite take_drop.
  - intros j Hj. apply Hfirst. rewrite length_take in Hj. lia.
Qed.

(** [cut_last] cuts at an occurrence, and no occurrence starts after. *)
Lemma cut_last_Some (p s a b : str) :
  cut_last p s = Some (a, b) ->
  s = a ++ p ++ b
  /\ forall j, length a < j -> j <= length s -> startsWith (drop j s) p = false.
Proof.
  rewrite cut_last_lastIndexOf. destruct (lastIndexOf s p) as [i|] eqn:E; [|done].
  intros [= <- <-]. apply lastIndexOf_Some in E as (Hat & Hlen & Hlast).
  apply startsWith_prefix in Hat as [k Hk]. split.
  - rewrite <- drop_drop, Hk, drop_app_length, <- Hk. by rewrite take_drop.
  - intros j Hj. apply Hlast. rewrite length_take in Hj. lia.
Qed.

Lemma drop_head (s : str) (c : ascii) (i : nat) :
  startsWith (drop i s) [c] = true -> drop i s = c :: drop (S i) s.
Proof.
  intros [k Hk]%startsWith_prefix. rewrite Hk.
  replace (S i) with (i + 1) by lia. by rewrite <- drop_drop, Hk.
Qed.

Lemma lastIndexOf_drop_char (s : str) (c : ascii) (n : nat) :
  lastIndexOf (drop n s) [c]
  = match lastIndexOf s [c] with
    | Some e => if n <=? e then Some (e - n) else None
    | None => None
    end.
Proof.
  revert s. induction n as [|n IH]; intros s.
  - rewrite drop_0. destruct (lastIndexOf s [c]) as [e|]; [|done].
    simpl. by rewrite Nat.sub_0_r.
  - destruct s as [|x s]; [done|]. cbn [drop lastIndexOf]. rewrite IH.
    destruct (lastIndexOf s [c]) as [e|]; [done|].
    by destruct (startsWith (x :: s) [c]).
Qed.

Lemma fenced_candidate_code (t : str) :
  match indexOf t FENCE with
  | Some fenceStart =>
      match indexOf_from t FENCE (fenceStart + 3) with
      | Some fenceEnd =>
          [trim (strip_json_tag (trim (slice t (fenceStart + 3) fenceEnd)))]
      | None => [trim (strip_trailing_fence (strip_leading_fence t))]
      end
  | None => []
  end = fenced_candidate t.
Proof.
  unfold fenced_candidate. rewrite cut_first_indexOf.
  destruct (indexOf t FENCE) as [i|] eqn:Ei; [|done]. cbn [fmap option_fmap option_map].
  change (length FENCE) with 3. rewrite cut_first_indexOf.
  apply indexOf_Some in Ei as (Hat & Hlen & _).
  assert (i + 3 <= length t) as Hi.
  { apply startsWith_prefix in Hat as [k Hk].
    apply (f_equal length) in Hk. rewrite length_drop, length_app in Hk.
    change (length FENCE) with 3 in Hk. lia. }
  unfold indexOf_from. rewrite Nat.min_l by done.
  destruct (indexOf (drop (i + 3) t) FENCE) as [j|].
  - cbn [fmap option_fmap option_map]. unfold slice.
    replace (i + 3 + j - (i + 3)) with j by lia.
    by rewrite !trim_trimmed, strip_json_tag_spec.
  - cbn [fmap option_fmap option_map].
    by rewrite trim_trimmed, strip_trailing_fence_spec, strip_leading_fence_spec.
Qed.

Lemma span_candidate_code (open close : ascii) (t : str) :
  match indexOf t [open], lastIndexOf t [close] with
  | Some bStart, Some bEnd =>
      if bStart <? bEnd then [substring t bStart (bEnd + 1)] else []
  | _, _ => []
  end = span_candidate open close t.
Proof.
  unfold span_candidate. rewrite cut_first_indexOf.
  destruct (indexOf t [open]) as [b|] eqn:Eb; [|done].
  cbn [fmap option_fmap option_map length].
  rewrite cut_last_lastIndexOf, lastIndexOf_drop_char.
  destruct (lastIndexOf t [close]) as [e|] eqn:Ee; [|done].
  destruct (Nat.ltb_spec b e) as [Hlt|Hge].
  - rewrite (proj2 (Nat.leb_le (b + 1) e)) by lia.
    cbn [fmap option_fmap option_map]. f_equal.
    apply indexOf_Some in Eb as (Hb & _). apply lastIndexOf_Some in Ee as (He & _).
    unfold substring. rewrite Nat.max_r, Nat.min_l by lia.
    rewrite (drop_head _ _ _ Hb).
    replace (e + 1 - b) with (S (S (e - (b + 1)))) by lia.
    cbn [take app]. f_equal. replace (S b) with (b + 1) by lia.
    apply take_S_r.
    rewrite lookup_drop. replace (b + 1 + (e - (b + 1))) with e by lia.
    rewrite <- (Nat.add_0_r e), <- lookup_drop, (drop_head _ _ _ He). done.
  - by rewrite (proj2 (Nat.leb_gt (b + 1) e)) by lia.
Qed.

(** The candidates of the code are those of the specification, in the same
    order. *)
Lemma candidates_specified (t : str) : candidates t = candidates_as_specified t.
Proof.
  unfold candidates, candidates_as_specified.
  rewrite fenced_candidate_code.
  by rewrite <- (span_candidate_code "[" "]"), <- (span_candidate_code "{" "}").
Qed.

(** C3, as the code has it.  The text is the pasted response, trimmed and
    repaired.  Its candidates are, in this order: the fenced block (the
    text between the first fence and the next one, trimmed and without a
    leading [json] tag; or, when the fence is not closed, the whole text
    without a fence at its very start, with the [json] tag and the white
    space after it, and without a fence at its very end, with the white
    space before it: a fence elsewhere stays); the whole text; the text from
    the first [[] to the last []]; the text from the first [{] to the last
    [}].  The result is the value of the first candidate that [JSON.parse]
    accepts; when there is none, the response is rejected with an error and
    nothing is changed.  Four texts show the candidates: a closed fence in
    prose, a fence at the start that is not closed, a fence at the end, and
    a fence in the middle that is not closed. *)
Theorem extract_json_first_candidate_that_parses
    (JSON_parse : str -> option json) (jsonText : str) :
  JSON_parse [] = None ->
  let t := normalizeJsonLikeResponse (trimmed jsonText) in
  candidates t = candidates_as_specified t
  /\ extract_json JSON_parse jsonText
     = head (omap JSON_parse (candidates_as_specified t))
  /\ (extract_json JSON_parse jsonText = None ->
      forall (world : Type) (path_join : list str -> str) (path_dirname : str -> str)
             (existsSync : world -> str -> bool)
             (mkdirSync : str -> world -> bool * world)
             (copyFileSync : str -> str -> world -> bool * world)
             (openTextDocument : str -> world -> option str * world)
             (generateSystemPrompt : str -> list str -> str)
             (applyEdit : list edit_op -> world -> bool * world)
             (workspaceRoot goal : str) (st : state) (w : world),
        handleAIResponse JSON_parse path_join path_dirname existsSync mkdirSync
          copyFileSync openTextDocument generateSystemPrompt applyEdit
          jsonText workspaceRoot goal st w
        = Some (Outcome st w [ERR_INVALID_JSON] (Return ERROR)))
  /\ candidates (lit "Here it is: " ++ FENCE ++ text ["json"; "[1]"; ""]%string
                   ++ FENCE ++ lit " Done.")
     = [lit "[1]";
        lit "Here it is: " ++ FENCE ++ text ["json"; "[1]"; ""]%string
          ++ FENCE ++ lit " Done.";
        lit "[1]"]
  /\ candidates (FENCE ++ text ["json"; "null"]%string)
     = [lit "null"; FENCE ++ text ["json"; "null"]%string]
  /\ candidates (text ["null"; "```"]%string)
     = [lit "null"; text ["null"; "```"]%string]
  /\ candidates (lit "see " ++ FENCE ++ lit "json {}")
     = [lit "see " ++ FENCE ++ lit "json {}"; lit "see " ++ FENCE ++ lit "json {}";
        lit "{}"].
Proof.
  intros Hnil t. split_and!.
  - apply candidates_specified.
  - unfold extract_json. rewrite trim_trimmed. fold t.
    rewrite <- candidates_specified. by apply first_parse_head.
  - intros Hnone world path_join path_dirname existsSync mkdirSync copyFileSync
      openTextDocument gsp applyEdit root goal st w.
    unfold handleAIResponse, parse_response. by rewrite Hnone.
  - vm_compute. reflexivity.
  - vm_compute. reflexivity.
  - vm_compute. reflexivity.
  - vm_compute. reflexivity.
Qed.

Lemma extract_json_first_candidate_that_parses_witness :
  let closed := lit "Here it is: " ++ FENCE ++ text ["json"; "null"; ""]%string
                  ++ FENCE ++ lit " Done." in
  let unclosed := [LF] ++ FENCE ++ text ["json"; "null"; ""]%string in
  let fence_at_end := text ["null"; "```"; ""]%string in
  (candidates closed = [lit "null"; closed]
   /\ extract_json example_parse closed = Some JNull)
  /\ (candidates (trimmed unclosed) = [lit "null"; FENCE ++ text ["json"; "null"]%string]
      /\ extract_json example_parse unclosed = Some JNull)
  /\ (candidates (trimmed fence_at_end)
      = [lit "null"; text ["null"; "```"]%string]
      /\ extract_json example_parse fence_at_end = Some JNull)
  /\ extract_json example_parse fenced_text = Some bare_array_value.
Proof.
  intros closed unclosed fence_at_end.
  pose proof (extract_json_first_candidate_that_parses example_parse closed eq_refl)
    as (H1 & H2 & _).
  pose proof (extract_json_first_candidate_that_parses example_parse unclosed eq_refl)
    as (H3 & H4 & _).
  pose proof (extract_json_first_candidate_that_parses example_parse fence_at_end
                eq_refl) as (H5 & H6 & _).
  pose proof (extract_json_first_candidate_that_parses example_parse fenced_text
                eq_refl) as (_ & H7 & _).
  cbv zeta in *. split_and!.
  - etransitivity; [exact H1|]. vm_compute. reflexivity.
  - etransitivity; [exact H2|]. vm_compute. reflexivity.
  - etransitivity; [exact H3|]. vm_compute. reflexivity.
  - etransitivity; [exact H4|]. vm_compute. reflexivity.
  - etransitivity; [exact H5|]. vm_compute. reflexivity.
  - etransitivity; [exact H6|]. vm_compute. reflexivity.
  - etransitivity; [exact H7|]. vm_compute. reflexivity.
Defined.

(** C3 as the specification has it fails for a fence that is not closed.
    A fence in the middle of the text is left where it is, so a text that
    would parse without it is rejected; and at the start of the text the
    [json] tag goes with the fence, so a text is accepted that would not
    parse with the tag left in. *)
Lemma candidates_as_stated_counterexample :
  let fence_inside := lit "[1," ++ FENCE ++ lit "2]" in
  let tagged := FENCE ++ text ["json"; "5"]%string in
  (candidates fence_inside <> candidates_as_stated fence_inside
   /\ extract_as_stated small_parse fence_inside = Some (JArr [JNum 1; JNum 2])
   /\ extract_json small_parse fence_inside = None)
  /\ (candidates tagged <> candidates_as_stated tagged
      /\ extract_as_stated small_parse tagged = None
      /\ extract_json small_parse tagged = Some (JNum 5)).
Proof.
  intros fence_inside tagged. split_and!; try (vm_compute; reflexivity);
    vm_compute; discriminate.
Qed.

(** ** Rounds *)

Section Staging.
Context {world : Type}.
Variable path_join : list str -> str.
Variable existsSync : world -> str -> bool.
Variable copyFileSync : str -> str -> world -> bool * world.
Variables workspaceRoot roundDir : str.

Lemma copy_worlds_head (copies : list (str * str)) (w : world) :
  w ∈ copy_worlds copyFileSync copies w.
Proof. destruct copies; by left. Qed.

Lemma copy_worlds_tail (copy : str * str) (copies : list (str * str))
    (w w1 v : world) :
  copyFileSync copy.1 copy.2 w = (true, w1) ->
  v ∈ copy_worlds copyFileSync copies w1 ->
  v ∈ copy_worlds copyFileSync (copy :: copies) w.
Proof. intros E Hv. cbn [copy_worlds]. rewrite E. by right. Qed.

(** The loop over the requested files, when the answers of [existsSync] for
    the requested paths are those of [present] in every world the loop
    passes through: the copies are those of the requested files that are
    present, in order, and the loop ends at the first copy that throws. *)
Lemma stage_requested_strings (present : str -> bool) (reqs : list str)
    (w1 : world) (stagedFiles : list str) :
  let copies :=
    staged_copy path_join workspaceRoot roundDir <$> List.filter present reqs in
  let staged :=
    stage_requested path_join existsSync copyFileSync workspaceRoot roundDir
      (JStr <$> reqs) w1 stagedFiles in
  (forall v req, v ∈ copy_worlds copyFileSync copies w1 -> req ∈ reqs ->
     existsSync v (path_join [workspaceRoot; req]) = present req) ->
  staged.1 = copy_each copyFileSync copies w1
  /\ (staged.1.1 = true -> staged.2 = stagedFiles ++ List.filter present reqs).
Proof.
  cbv zeta. revert w1 stagedFiles.
  induction reqs as [|req reqs IH]; intros w1 staged Hstable.
  - simpl. by rewrite app_nil_r.
  - cbn [fmap list_fmap stage_requested List.filter].
    rewrite (Hstable w1 req) by (try apply copy_worlds_head; by left).
    cbn [List.filter] in Hstable.
    destruct (present req) eqn:Ep.
    + cbn [fmap list_fmap copy_each copy_worlds staged_copy fst snd] in *.
      destruct (copyFileSync (path_join [workspaceRoot; req])
                  (path_join [roundDir; flatName req]) w1) as [[] w'] eqn:Ec;
        [|done].
      destruct (IH w' (staged ++ [req])) as [H1 H2].
      { intros v r Hv Hr. apply Hstable; [by right | by right]. }
      split; [done|]. intros Hok. rewrite (H2 Hok). by rewrite <- (assoc_L (++)).
    + apply IH. intros v r Hv Hr. apply Hstable; [done | by right].
Qed.

(** The same for the loop of the snapshot. *)
Lemma snapshot_files_copies (present : str -> bool) (files : list str) (w1 : world) :
  let copies :=
    staged_copy path_join workspaceRoot roundDir <$> List.filter present files in
  (forall v fp, v ∈ copy_worlds copyFileSync copies w1 -> fp ∈ files ->
     existsSync v (path_join [workspaceRoot; fp]) = present fp) ->
  snapshot_files path_join existsSync copyFileSync workspaceRoot roundDir files w1
  = copy_each copyFileSync copies w1.
Proof.
  cbv zeta. revert w1.
  induction files as [|fp files IH]; intros w1 Hstable; [done|].
  cbn [snapshot_files List.filter].
  rewrite (Hstable w1 fp) by (try apply copy_worlds_head; by left).
  cbn [List.filter] in Hstable.
  destruct (present fp) eqn:Ep.
  - cbn [fmap list_fmap copy_each copy_worlds staged_copy fst snd] in *.
    destruct (copyFileSync (path_join [workspaceRoot; fp])
                (path_join [roundDir; flatName fp]) w1) as [[] w'] eqn:Ec;
      [|done].
    apply IH. intros v r Hv Hr. apply Hstable; [by right | by right].
  - apply IH. intros v r Hv Hr. apply Hstable; [done | by right].
Qed.

End Staging.

Lemma string_items_Some (items : list json) (reqs : list str) :
  string_items items = Some reqs -> items = JStr <$> reqs.
Proof.
  revert reqs. induction items as [|v items IH]; intros reqs; cbn [string_items].
  - by intros [= <-].
  - destruct v as [| | |s| |]; try done.
    destruct (string_items items) as [names|]; [|done].
    intros [= <-]. by rewrite (IH names eq_refl).
Qed.

Section NeedContext.
Context {world : Type}.
Variable path_join : list str -> str.
Variable path_dirname : str -> str.
Variable existsSync : world -> str -> bool.
Variable mkdirSync : str -> world -> bool * world.
Variable copyFileSync : str -> str -> world -> bool * world.
Variable openTextDocument : str -> world -> option str * world.
Variable generateSystemPrompt : str -> list str -> str.
Variable applyEdit : list edit_op -> world -> bool * world.
Variables workspaceRoot goal : str.

Lemma dispatch_need_context (st : state) (w : world) (data : json) :
  prop data K_status = Some (JStr S_NEED_CONTEXT) ->
  dispatch path_join path_dirname existsSync mkdirSync copyFileSync openTextDocument
    generateSystemPrompt applyEdit workspaceRoot goal st w data
  = Some (handle_need_context path_join existsSync mkdirSync copyFileSync
            generateSystemPrompt workspaceRoot goal st w data).
Proof.
  intros Hs. unfold dispatch. rewrite Hs.
  rewrite bool_decide_eq_false_2 by (by vm_compute).
  rewrite bool_decide_eq_true_2 by done. by destruct data.
Qed.

(** C4, as the code has it.  A NEED_CONTEXT change-set that requests the
    names [reqs] advances the round index by one, whatever happens next.
    When the directory of the new round cannot be made, the call ends with
    an exception.  When it is made, the structure listing of round 1 (not of
    the round before) is copied into it if round 1 holds one and the copy
    does not throw.  Then, provided the requested paths exist during the
    staging as they do at the call, the requested files that exist are
    copied into the round directory under their flat names, in the order of
    the request, and a requested file that does not exist is skipped.  When
    no copy throws, the files of the new round are the listing followed by
    those files, the world is the one these copies leave, and the call
    returns NEED_CONTEXT; when a copy throws (a requested directory), the
    call ends with an exception, with the round index and the round
    directory already advanced. *)
Theorem need_context_stages_existing_requests
    (st : state) (w : world) (fields : list (str * json)) (reqs : list str) :
  let round := S (currentRound st) in
  let roundDir := round_dir path_join st round in
  let structFile := path_join [currentStagingRoot st; lit "round_1"; STRUCTURE_FILE] in
  let made := mkdirSync roundDir w in
  let listed := copyFileSync structFile (path_join [roundDir; STRUCTURE_FILE]) made.2 in
  let listing :=
    if existsSync made.2 structFile && listed.1 then [STRUCTURE_FILE] else [] in
  let w1 := if existsSync made.2 structFile then listed.2 else made.2 in
  let existing :=
    List.filter (fun req => existsSync w (path_join [workspaceRoot; req])) reqs in
  let copies := staged_copy path_join workspaceRoot roundDir <$> existing in
  let handle :=
    dispatch path_join path_dirname existsSync mkdirSync copyFileSync
      openTextDocument generateSystemPrompt applyEdit workspaceRoot goal st w
      (JObj fields) in
  obj_get fields K_status = Some (JStr S_NEED_CONTEXT) ->
  requested_files (JObj fields) = Some reqs ->
  (made.1 = false ->
   handle
   = Some (Outcome
             (State round (currentStagingRoot st) (currentRoundDir st)
                (lastSystemPrompt st))
             made.2 [] Throw))
  /\ (made.1 = true ->
      (forall v req, v ∈ copy_worlds copyFileSync copies w1 -> req ∈ reqs ->
         existsSync v (path_join [workspaceRoot; req])
         = existsSync w (path_join [workspaceRoot; req])) ->
      (forall w2, copy_each copyFileSync copies w1 = (true, w2) ->
         handle
         = Some (Outcome
                   (State round (currentStagingRoot st) roundDir
                      (generateSystemPrompt goal (listing ++ existing)))
                   w2 [INFO_ROUND round (length (listing ++ existing))]
                   (Return NEED_CONTEXT)))
      /\ (forall w2, copy_each copyFileSync copies w1 = (false, w2) ->
            handle
            = Some (Outcome
                      (State round (currentStagingRoot st) roundDir
                         (lastSystemPrompt st))
                      w2 [] Throw))).
Proof.
  intros round roundDir structFile made listed listing w1 existing copies handle
    Hs Hr.
  subst handle. rewrite dispatch_need_context by done.
  unfold handle_need_context. fold round. fold roundDir. fold made.
  destruct made as [ok w0] eqn:Emade. cbn [fst snd] in *.
  split; [by intros ->|]. intros -> Hstable.
  unfold stage_round, stage_listing. fold structFile.
  assert ((if existsSync w0 structFile
           then let '(copied, w1) :=
                  copyFileSync structFile (path_join [roundDir; STRUCTURE_FILE]) w0 in
                (w1, if copied then [STRUCTURE_FILE] else [])
           else (w0, [])) = (w1, listing)) as ->.
  { unfold w1, listing, listed.
    destruct (existsSync w0 structFile); [|done].
    by destruct (copyFileSync structFile _ w0) as [[] ?]. }
  assert (prop (JObj fields) K_request_files = Some (JArr (JStr <$> reqs))
          \/ (reqs = []
              /\ match prop (JObj fields) K_request_files with
                 | Some (JArr _) => False
                 | _ => True
                 end)) as Hreqs.
  { unfold requested_files in Hr.
    destruct (prop (JObj fields) K_request_files) as [[| | | |items|]|];
      try (injection Hr as <-; by right).
    left. by rewrite (string_items_Some _ _ Hr). }
  destruct Hreqs as [->|[-> Hnone]].
  - destruct (stage_requested_strings path_join existsSync copyFileSync
                workspaceRoot roundDir
                (fun req => existsSync w (path_join [workspaceRoot; req]))
                reqs w1 listing Hstable) as [H1 H2].
    fold existing in H1, H2. fold copies in H1.
    destruct (stage_requested path_join existsSync copyFileSync workspaceRoot
                roundDir (JStr <$> reqs) w1 listing) as [[ok w2] staged].
    cbn [fst snd] in H1, H2. split.
    + intros w2' E. rewrite E in H1. injection H1 as -> ->.
      by rewrite (H2 eq_refl).
    + intros w2' E. rewrite E in H1. by injection H1 as -> ->.
  - subst existing copies. cbn [List.filter fmap list_fmap copy_each].
    rewrite app_nil_r.
    assert (match prop (JObj fields) K_request_files with
            | Some (JArr reqs0) =>
                stage_requested path_join existsSync copyFileSync workspaceRoot
                  roundDir reqs0 w1 listing
            | _ => (true, w1, listing)
            end = (true, w1, listing)) as ->.
    { by destruct (prop (JObj fields) K_request_files) as [[| | | |items|]|]. }
    split; [by intros w2 [= <-] | by intros w2 [=]].
Qed.

End NeedContext.

Lemma need_context_stages_existing_requests_witness :
  dispatch example_join example_dirname example_existsSync example_mkdirSync
    example_copyFileSync example_openTextDocument example_prompt example_applyEdit
    (lit "/work") (lit "goal") example_state1 example_world1 need_context_value
  = Some (Outcome
            (State 2 (lit "/tmp/stage") (lit "/tmp/stage/round_2")
               (example_prompt (lit "goal") [STRUCTURE_FILE; lit "src/a.ts"]))
            (ExampleWorld
               [(lit "/tmp/stage/round_1", Directory);
                (lit "/tmp/stage/round_1/_PROJECT_STRUCTURE.txt", File (lit "tree"));
                (lit "/work/src", Directory);
                (lit "/work/src/a.ts", File (lit "A"));
                (lit "/tmp/stage/round_2", Directory);
                (lit "/tmp/stage/round_2/_PROJECT_STRUCTURE.txt", File (lit "tree"));
                (lit "/tmp/stage/round_2/src__a.ts.txt", File (lit "A"))]
               [])
            [INFO_ROUND 2 2] (Return NEED_CONTEXT)).
Proof.
  apply (proj1 (proj2 (need_context_stages_existing_requests example_join
                         example_dirname example_existsSync example_mkdirSync
                         example_copyFileSync example_openTextDocument
                         example_prompt example_applyEdit (lit "/work") (lit "goal")
                         example_state1 example_world1
                         [(K_status, JStr S_NEED_CONTEXT);
                          (K_request_files,
                           JArr [JStr (lit "src/a.ts"); JStr (lit "src/missing.ts")])]
                         [lit "src/a.ts"; lit "src/missing.ts"]
                         eq_refl eq_refl) eq_refl
                 ltac:(intros v req Hv Hreq; vm_compute in Hv;
                       repeat (apply elem_of_cons in Hv as [->|Hv]);
                       try (by apply elem_of_nil in Hv);
                       repeat (apply elem_of_cons in Hreq as [->|Hreq]);
                       try (by apply elem_of_nil in Hreq);
                       reflexivity))).
  reflexivity.
Defined.

(** C4 as the specification has it fails in four ways.  After a COMPLETED
    response has staged round 2 as a snapshot without a structure listing,
    a NEED_CONTEXT response still stages the listing of round 1 in round 3.
    A requested path that is a directory exists, and its copy throws.  A
    requested path that an earlier copy of the same request creates is
    staged, although it did not exist at the call.  And where the directory
    of the round cannot be made, nothing is staged. *)
Lemma need_context_as_specified_counterexample :
  let specified :=
    need_context_as_specified example_join example_existsSync example_mkdirSync
      example_copyFileSync in
  (dispatch example_join example_dirname example_existsSync example_mkdirSync
     example_copyFileSync example_openTextDocument example_prompt example_applyEdit
     (lit "/work") (lit "goal") example_state1 example_world1 completed_value
   = Some (Outcome example_state2 example_world2 [INFO_APPLIED 1] (Return COMPLETED))
   /\ ~ specified (lit "/work") example_state2 example_world2
          [lit "src/a.ts"; lit "src/missing.ts"])
  /\ ~ specified (lit "/work") example_state1 example_world1 [lit "src"]
  /\ ~ specified (lit "/tmp/stage") example_state1
         (ExampleWorld
            [(lit "/tmp/stage/round_1", Directory);
             (lit "/tmp/stage/a.ts", File (lit "A"))] [])
         [lit "a.ts"; lit "round_2/a.ts.txt"]
  /\ ~ specified (lit "/work") example_state1
         (ExampleWorld [(lit "/tmp/stage", File (lit "not a directory"))] []) [].
Proof.
  intros specified. split_and!.
  - vm_compute. reflexivity.
  - intros (_ & _ & H). apply Permutation_length in H. vm_compute in H. discriminate.
  - intros (_ & H & _). vm_compute in H. discriminate.
  - intros (_ & _ & H). apply Permutation_length in H. vm_compute in H. discriminate.
  - intros (H & _). vm_compute in H. discriminate.
Qed.

(** ** Line endings *)

Lemma normalize_cons_cons (c d : ascii) (s : str) :
  normalize (c :: d :: s)
  = if Ascii.eqb c CR && Ascii.eqb d LF then LF :: normalize s
    else c :: normalize (d :: s).
Proof. reflexivity. Qed.

Lemma normalize_no_CR (s : str) : CR ∉ s -> normalize s = s.
Proof.
  induction s as [|c s IH]; [done|].
  intros [Hc Hs]%not_elem_of_cons.
  destruct s as [|d s]; [done|].
  rewrite normalize_cons_cons.
  destruct (Ascii.eqb_spec c CR) as [->|_]; [done|].
  cbn [andb]. by rewrite IH.
Qed.

Lemma split_on_cons (d c : ascii) (s : str) :
  split_on d (c :: s)
  = if Ascii.eqb c d then [] :: split_on d s
    else match split_on d s with
         | l :: ls => (c :: l) :: ls
         | [] => [[c]]
         end.
Proof. reflexivity. Qed.

Lemma split_lines_cons (c : ascii) (s : str) :
  split_lines (c :: s)
  = let cons_char :=
      match split_lines s with
      | l :: ls => (c :: l) :: ls
      | [] => [[c]]
      end in
    if Ascii.eqb c LF then [] :: split_lines s
    else if Ascii.eqb c CR then
      match s with
      | d :: s' => if Ascii.eqb d LF then [] :: split_lines s' else cons_char
      | [] => cons_char
      end
    else cons_char.
Proof. reflexivity. Qed.

Lemma split_lines_split_on (s : str) : split_lines s = split_on LF (normalize s).
Proof.
  induction s as [s IH] using (induction_ltof1 _ (@length ascii)).
  unfold ltof in IH.
  destruct s as [|c [|d s]]; [done| |].
  - cbn [split_lines normalize]. rewrite split_on_cons.
    by destruct (Ascii.eqb c LF), (Ascii.eqb c CR).
  - rewrite normalize_cons_cons, split_lines_cons. cbv zeta.
    rewrite (IH (d :: s)) by (simpl; lia).
    rewrite (IH s) by (simpl; lia).
    destruct (Ascii.eqb_spec c LF) as [->|Hc].
    + replace (Ascii.eqb LF CR) with false by done. cbn [andb].
      by rewrite split_on_cons, Ascii.eqb_refl.
    + destruct (Ascii.eqb_spec c CR) as [->|Hc'].
      * cbn [andb]. destruct (Ascii.eqb_spec d LF) as [->|Hd].
        -- by rewrite split_on_cons, Ascii.eqb_refl.
        -- rewrite split_on_cons. by replace (Ascii.eqb CR LF) with false by done.
      * cbn [andb]. rewrite split_on_cons.
        by destruct (Ascii.eqb_spec c LF) as [?|_].
Qed.

Lemma split_on_nonempty (d : ascii) (s : str) : split_on d s <> [].
Proof.
  destruct s as [|c s]; [done|]. rewrite split_on_cons.
  by destruct (Ascii.eqb c d), (split_on d s).
Qed.

Lemma join_split_on (d : ascii) (s : str) : join [d] (split_on d s) = s.
Proof.
  induction s as [|c s IH]; [done|].
  rewrite split_on_cons.
  pose proof (split_on_nonempty d s) as Hne.
  destruct (split_on d s) as [|l ls]; [done|].
  destruct (Ascii.eqb_spec c d) as [->|Hc].
  - by rewrite join_cons, IH.
  - destruct ls as [|l' ls].
    + simpl in *. by rewrite IH.
    + rewrite join_cons. rewrite join_cons in IH. simpl. by rewrite <- IH.
Qed.

(** X1: the lines the conversion reads ([patch.split(/\r?\n/)]) are the lines
    of the envelope with every [\r\n] turned into [\n], as
    [applySearchReplace] normalizes its texts; joining them again with line
    feeds gives that normalized envelope. *)
Theorem split_lines_are_lines_of_normalized_text (patch : str) :
  split_lines patch = split_on LF (normalize patch)
  /\ join [LF] (split_lines patch) = normalize patch.
Proof.
  split; [apply split_lines_split_on|].
  rewrite split_lines_split_on. apply join_split_on.
Qed.

(** X2: an envelope written with [\r\n] line breaks converts to the same
    diff as the envelope with [\n] line breaks, as long as no carriage return
    is left once the pairs are replaced. *)
Theorem patchEnvelopeToDiffForFile_ignores_crlf (patch targetFile : str) :
  CR ∉ normalize patch ->
  patchEnvelopeToDiffForFile patch targetFile
  = patchEnvelopeToDiffForFile (normalize patch) targetFile
  /\ forall workingContent : str,
       apply_change workingContent (Change targetFile T_PATCH patch)
       = apply_change workingContent (Change targetFile T_PATCH (normalize patch)).
Proof.
  intros Hcr.
  assert (patchEnvelopeToDiffForFile patch targetFile
          = patchEnvelopeToDiffForFile (normalize patch) targetFile) as E.
  { unfold patchEnvelopeToDiffForFile.
    rewrite (split_lines_split_on (normalize patch)), (normalize_no_CR _ Hcr).
    by rewrite <- split_lines_split_on. }
  split; [done|]. intros workingContent.
  unfold apply_change. cbn [type content file_path]. by rewrite E.
Qed.

Lemma patchEnvelopeToDiffForFile_ignores_crlf_witness :
  let patch := lit "*** Update File: f" ++ [CR; LF] ++ lit "@@" ++ [CR; LF]
                 ++ lit "-a" ++ [CR; LF] ++ lit "+b" in
  patchEnvelopeToDiffForFile patch (lit "f")
  = patchEnvelopeToDiffForFile (normalize patch) (lit "f").
Proof.
  intros patch.
  refine (proj1 (patchEnvelopeToDiffForFile_ignores_crlf patch (lit "f") _)).
  apply (bool_decide_unpack _). by vm_compute.
Defined.

(** ** More on the search/replace engine *)

Lemma normalize_nil_inv (s : str) : normalize s = [] -> s = [].
Proof.
  destruct s as [|c [|d s]]; [done..|].
  rewrite normalize_cons_cons. by destruct (Ascii.eqb c CR && Ascii.eqb d LF).
Qed.

Lemma occurs_nil_inv (p : str) : occurs p [] -> p = [].
Proof.
  intros (pre & post & E). symmetry in E.
  apply app_eq_nil in E as [_ E]. by apply app_eq_nil in E as [E _].
Qed.

Lemma apply_blocks_warnings (blocks : list (str * str)) (content : str) :
  exists k, k <= length blocks
            /\ (apply_blocks blocks content).2 = replicate k WARN_NOT_FOUND.
Proof.
  revert content. induction blocks as [|[search replace] blocks IH]; intros content.
  - by exists 0.
  - cbn [apply_blocks].
    destruct (apply_block content search replace) as [content' w] eqn:E.
    destruct (IH content') as (k & Hk & Hws).
    destruct (apply_blocks blocks content') as [final ws]. simpl in Hws. subst ws.
    unfold apply_block in E.
    destruct (indexOf _ _); injection E as <- <-.
    + exists k. split; [simpl; lia | done].
    + exists (S k). split; [simpl; lia | done].
Qed.

(** X3: a block whose replacement is its own search text is not a no-op on
    a file with [\r\n] line breaks: when the block is found, the new content
    is the whole file with every [\r\n] turned into [\n].  On a file and a
    search text without carriage returns it is the identity. *)
Theorem apply_block_identity_edit_normalizes (result search : str) :
  occurs (normalize search) (normalize result) ->
  apply_block result search (normalize search) = (normalize result, [])
  /\ (CR ∉ result -> CR ∉ search -> apply_block result search search = (result, [])).
Proof.
  intros Hocc.
  assert (apply_block result search (normalize search) = (normalize result, [])) as E.
  { destruct (apply_block_found result search (normalize search) Hocc)
      as (pre & post & Hres & _ & ->).
    by rewrite Hres. }
  split; [done|]. intros Hr Hs.
  by rewrite (normalize_no_CR _ Hr), (normalize_no_CR _ Hs) in E.
Qed.

Lemma apply_block_identity_edit_normalizes_witness :
  apply_block (lit "a" ++ [CR; LF] ++ lit "b") (lit "b") (normalize (lit "b"))
  = (normalize (lit "a" ++ [CR; LF] ++ lit "b"), []).
Proof.
  refine (proj1 (apply_block_identity_edit_normalizes
                   (lit "a" ++ [CR; LF] ++ lit "b") (lit "b") _)).
  by exists (lit "a" ++ [LF]), [].
Defined.

(** X4: the only message [applySearchReplace] ever shows is the warning for
    a search text that was not found, and it shows it at most once for each
    block of the diff. *)
Theorem applySearchReplace_warns_at_most_once_per_block (original diff : str) :
  exists k, k <= length (diff_blocks diff)
            /\ (applySearchReplace original diff).2 = replicate k WARN_NOT_FOUND.
Proof. rewrite applySearchReplace_blocks. apply apply_blocks_warnings. Qed.

(** X5: a DIFF for a file that does not exist, where the directory of the
    file can be made: the blocks are matched against the empty text, so when
    every block has a search text, none is found; the file is created
    empty and counted, with one warning for each block. *)
Theorem diff_on_missing_file_creates_empty_file
    (world : Type) (path_join : list str -> str) (path_dirname : str -> str)
    (existsSync : world -> str -> bool)
    (mkdirSync : str -> world -> bool * world)
    (openTextDocument : str -> world -> option str * world)
    (workspaceRoot : str) (w w1 : world) (c : change) :
  let targetPath := path_join [workspaceRoot; file_path c] in
  mkdirSync (path_dirname targetPath) w = (true, w1) ->
  existsSync w1 targetPath = false ->
  type c = T_DIFF ->
  Forall (fun b => b.1 <> []) (diff_blocks (content c)) ->
  prepare_file path_join path_dirname existsSync mkdirSync openTextDocument
    workspaceRoot w (file_path c) [c]
  = ([EditCreateFile targetPath; EditInsert targetPath []], true,
     replicate (length (diff_blocks (content c))) WARN_NOT_FOUND, w1).
Proof.
  intros targetPath Hmk Hex Hty Hblocks.
  unfold prepare_file. fold targetPath. rewrite Hmk, Hex.
  cbn [apply_changes]. unfold apply_change. rewrite Hty.
  cbn [bool_decide decide_rel].
  replace (bool_decide (T_DIFF = T_FULL_REWRITE)) with false by done.
  replace (bool_decide (T_DIFF = T_DIFF)) with true by done.
  rewrite applySearchReplace_blocks, apply_blocks_none_found.
  - by rewrite app_nil_r.
  - eapply Forall_impl; [exact Hblocks|].
    intros [search replace] Hne Hocc. simpl in *.
    apply Hne, normalize_nil_inv, occurs_nil_inv, Hocc.
Qed.

Lemma diff_on_missing_file_creates_empty_file_witness :
  prepare_file example_join example_dirname example_existsSync example_mkdirSync
    example_openTextDocument (lit "/work") example_world1 (lit "src/new.ts")
    [Change (lit "src/new.ts") T_DIFF
       (text ["<<<<<<< SEARCH"; "x"; "======="; "y"; ">>>>>>> REPLACE"]%string)]
  = ([EditCreateFile (lit "/work/src/new.ts"); EditInsert (lit "/work/src/new.ts") []],
     true, [WARN_NOT_FOUND], example_world1).
Proof.
  apply (diff_on_missing_file_creates_empty_file example_world example_join
           example_dirname example_existsSync example_mkdirSync
           example_openTextDocument (lit "/work") example_world1 example_world1
           (Change (lit "src/new.ts") T_DIFF
              (text ["<<<<<<< SEARCH"; "x"; "======="; "y"; ">>>>>>> REPLACE"]%string))).
  - by vm_compute.
  - by vm_compute.
  - reflexivity.
  - vm_compute. by apply Forall_singleton.
Defined.

(** ** Flat names *)

Lemma join_split_on_bind (sep : str) (d : ascii) (s : str) :
  join sep (split_on d s) = c ← s; if Ascii.eqb c d then sep else [c].
Proof.
  induction s as [|c s IH]; [done|].
  rewrite split_on_cons. cbn [mbind list_bind app]. rewrite <- IH.
  pose proof (split_on_nonempty d s) as Hne.
  destruct (split_on d s) as [|l ls]; [done|].
  destruct (Ascii.eqb c d).
  - by rewrite join_cons.
  - destruct ls as [|l' ls]; [done|]. by rewrite !join_cons.
Qed.

(** X6: the name under which a file is staged is its path with every [/]
    replaced by two underscores, and [.txt] at the end.  It holds no [/], so
    the staged files all lie directly in the round directory; and two paths
    that differ only in a [/] against two underscores get the same name. *)
Theorem flatName_replaces_slashes (fp : str) :
  flatName fp
  = (c ← fp; if Ascii.eqb c "/" then lit "__" else [c]) ++ lit ".txt"
  /\ ("/"%char ∉ flatName fp)
  /\ forall a b : str, flatName (a ++ lit "/" ++ b) = flatName (a ++ lit "__" ++ b).
Proof.
  assert (forall fp, flatName fp
          = (c ← fp; if Ascii.eqb c "/" then lit "__" else [c]) ++ lit ".txt") as E.
  { intros s. unfold flatName. by rewrite join_split_on_bind. }
  split; [apply E|]. split.
  - rewrite E. intros [H|H]%elem_of_app.
    + apply list_elem_of_bind in H as (c & Hc & _).
      destruct (Ascii.eqb c "/") eqn:Ec.
      * by repeat (apply elem_of_cons in Hc as [Hc|Hc]; [done|]); apply elem_of_nil in Hc.
      * apply list_elem_of_singleton in Hc. subst c. by rewrite Ascii.eqb_refl in Ec.
    + by repeat (apply elem_of_cons in H as [H|H]; [done|]); apply elem_of_nil in H.
  - intros a b. rewrite !E. f_equal.
    rewrite !bind_app. f_equal.
Qed.

(** ** Grouping by file *)

Lemma first_seen_elem (ks : list str) (k : str) : k ∈ first_seen ks <-> k ∈ ks.
Proof.
  induction ks as [|k0 ks IH]; [done|].
  cbn [first_seen]. rewrite !elem_of_cons, list_elem_of_filter, IH.
  destruct (decide (k = k0)) as [->|Hne]; [by split; [left|left]|].
  split; [intros [?|[_ ?]]; [done|by right] | intros [?|?]; [done|by right]].
Qed.

Lemma first_seen_NoDup (ks : list str) : NoDup (first_seen ks).
Proof.
  induction ks as [|k0 ks IH]; [constructor|].
  cbn [first_seen]. apply NoDup_cons. split.
  - rewrite list_elem_of_filter. by intros [H _].
  - by apply NoDup_filter.
Qed.

Lemma first_seen_snoc (ks : list str) (k : str) :
  first_seen (ks ++ [k])
  = if bool_decide (k ∈ ks) then first_seen ks else first_seen ks ++ [k].
Proof.
  induction ks as [|k0 ks IH]; [done|].
  cbn [first_seen app]. rewrite IH.
  destruct (decide (k ∈ ks)) as [Hin|Hnin].
  - rewrite !bool_decide_eq_true_2; [done| by right | done].
  - rewrite (bool_decide_eq_false_2 (k ∈ ks)) by done.
    rewrite filter_app.
    destruct (decide (k = k0)) as [->|Hne].
    + rewrite bool_decide_eq_true_2 by left.
      rewrite filter_cons_False by naive_solver. by rewrite filter_nil, app_nil_r.
    + rewrite bool_decide_eq_false_2 by (intros [?|?]%elem_of_cons; done).
      by rewrite filter_cons_True by done.
Qed.

Lemma map_get_fmap (g : str -> list change) (ks : list str) (k : str) :
  map_get ((fun k' => (k', g k')) <$> ks) k
  = if bool_decide (k ∈ ks) then Some (g k) else None.
Proof.
  induction ks as [|k0 ks IH]; [done|].
  cbn [fmap list_fmap map_get]. fold (list_fmap _ _ (fun k' => (k', g k')) ks).
  change (list_fmap _ _ ?f ks) with (f <$> ks). rewrite IH.
  destruct (decide (k0 = k)) as [->|Hne].
  - rewrite !bool_decide_eq_true_2; [done| left | done].
  - rewrite (bool_decide_eq_false_2 (k0 = k)) by done.
    destruct (decide (k ∈ ks)).
    + rewrite !bool_decide_eq_true_2; [done| by right | done].
    + rewrite !bool_decide_eq_false_2; [done| | done].
      intros [?|?]%elem_of_cons; by subst.
Qed.

Lemma map_set_fmap_new (g : str -> list change) (ks : list str) (k : str)
    (arr : list change) :
  k ∉ ks ->
  map_set ((fun k' => (k', g k')) <$> ks) k arr
  = ((fun k' => (k', g k')) <$> ks) ++ [(k, arr)].
Proof.
  induction ks as [|k0 ks IH]; [done|].
  intros [Hne Hnin]%not_elem_of_cons.
  rewrite fmap_cons. cbn [map_set].
  rewrite bool_decide_eq_false_2 by done. by rewrite IH.
Qed.

Lemma map_set_fmap_old (g : str -> list change) (ks : list str) (k : str)
    (arr : list change) :
  NoDup ks -> k ∈ ks ->
  map_set ((fun k' => (k', g k')) <$> ks) k arr
  = (fun k' => (k', if bool_decide (k' = k) then arr else g k')) <$> ks.
Proof.
  induction 1 as [|k0 ks Hnin Hnd IH]; [by intros ?%elem_of_nil|].
  intros Hin. rewrite !fmap_cons. cbn [map_set].
  destruct (decide (k0 = k)) as [->|Hne].
  - rewrite !bool_decide_eq_true_2 by done. f_equal.
    apply list_fmap_ext. intros i k' Hk'.
    rewrite bool_decide_eq_false_2; [done|].
    intros ->. by apply Hnin, (list_elem_of_lookup_2 _ i).
  - rewrite !bool_decide_eq_false_2 by done. f_equal. apply IH.
    by apply elem_of_cons in Hin as [?|?].
Qed.

Lemma changes_by_file_snoc (cs : list change) (c : change) :
  changes_by_file (cs ++ [c]) = group_change (changes_by_file cs) c.
Proof.
  unfold changes_by_file, group_change.
  rewrite fmap_app. cbn [fmap list_fmap]. rewrite first_seen_snoc.
  rewrite map_get_fmap.
  assert (bool_decide (file_path c ∈ first_seen (file_path <$> cs))
          = bool_decide (file_path c ∈ file_path <$> cs)) as ->.
  { apply bool_decide_ext, first_seen_elem. }
  destruct (decide (file_path c ∈ file_path <$> cs)) as [Hin|Hnin].
  - rewrite !bool_decide_eq_true_2 by done. cbn [default].
    rewrite map_set_fmap_old;
      [|apply first_seen_NoDup|by apply first_seen_elem].
    apply list_fmap_ext. intros i k Hk. f_equal.
    rewrite filter_app.
    destruct (decide (k = file_path c)) as [->|Hne].
    + rewrite bool_decide_eq_true_2 by done.
      by rewrite filter_cons_True by done.
    + rewrite bool_decide_eq_false_2 by done.
      rewrite filter_cons_False by naive_solver. by rewrite filter_nil, app_nil_r.
  - rewrite !bool_decide_eq_false_2 by done. cbn [default app].
    rewrite map_set_fmap_new by (by rewrite first_seen_elem).
    rewrite fmap_app. f_equal.
    + apply list_fmap_ext. intros i k Hk. f_equal.
      rewrite filter_app, filter_cons_False, filter_nil, app_nil_r; [done|].
      intros Heq. apply Hnin. rewrite Heq.
      apply first_seen_elem, (list_elem_of_lookup_2 _ i), Hk.
    + cbn [fmap list_fmap]. f_equal. f_equal.
      rewrite filter_app, filter_cons_True, filter_nil by done.
      replace (filter (fun c0 => file_path c0 = file_path c) cs) with (@nil change);
        [done|].
      destruct (filter _ cs) as [|c0 r] eqn:E; [done|].
      assert (c0 ∈ filter (fun c0 => file_path c0 = file_path c) cs) as Hc0
        by (rewrite E; left).
      apply list_elem_of_filter in Hc0 as [Heq Hc0].
      destruct Hnin. rewrite <- Heq. by apply list_elem_of_fmap_2.
Qed.

Lemma foldl_group_change (cs : list change) :
  foldl group_change [] cs = changes_by_file cs.
Proof.
  induction cs as [|c cs IH] using rev_ind; [done|].
  by rewrite foldl_snoc, IH, changes_by_file_snoc.
Qed.

Lemma group_entries_foldl (items : list json) (m : changes_map) :
  Forall (fun e => decode_entry e <> EntryNull /\ decode_entry e <> EntryUntyped)
         items ->
  group_entries items m = Grouped (foldl group_change m (kept_changes items)).
Proof.
  intros H. revert m. induction H as [|e items [Hn Hu] _ IH]; intros m; [done|].
  cbn [group_entries]. unfold kept_changes. cbn [omap list_omap].
  fold (kept_changes items).
  change (list_omap _ _ ?f items) with (omap f items).
  fold (kept_changes items).
  destruct (decode_entry e); [done| |by rewrite IH|done]. by rewrite IH.
Qed.

(** X7: the grouping of [code_changes]: the entries whose [type] is not one
    of the three are left out; the others are grouped by [file_path], the
    files in the order in which they are first named, and each file keeps
    its changes in the order of the response.  (For a response without a
    [null] entry and whose kept entries have a string [file_path] and
    [content].) *)
Theorem group_entries_groups_by_file_in_order (items : list json) :
  Forall (fun e => decode_entry e <> EntryNull /\ decode_entry e <> EntryUntyped)
         items ->
  group_entries items [] = Grouped (changes_by_file (kept_changes items))
  /\ NoDup (changes_by_file (kept_changes items)).*1.
Proof.
  intros H. split.
  - by rewrite group_entries_foldl, foldl_group_change.
  - unfold changes_by_file. rewrite <- list_fmap_compose.
    erewrite (list_fmap_ext _ id) by done.
    rewrite list_fmap_id. apply first_seen_NoDup.
Qed.

Lemma group_entries_groups_by_file_in_order_witness :
  let a1 := Change (lit "a.ts") T_DIFF (lit "d1") in
  let b1 := Change (lit "b.ts") T_FULL_REWRITE (lit "x") in
  let a2 := Change (lit "a.ts") T_FULL_REWRITE (lit "y") in
  let entry c :=
    JObj [(K_file_path, JStr (file_path c)); (K_type, JStr (type c));
          (K_content, JStr (content c))] in
  group_entries [entry a1; JObj [(K_type, JStr (lit "NOTE"))]; entry b1; entry a2] []
  = Grouped [(lit "a.ts", [a1; a2]); (lit "b.ts", [b1])].
Proof.
  intros a1 b1 a2 entry.
  refine (proj1 (group_entries_groups_by_file_in_order
                   [entry a1; JObj [(K_type, JStr (lit "NOTE"))]; entry b1; entry a2] _)).
  repeat (apply Forall_cons_2; [by vm_compute|]). apply Forall_nil_2.
Defined.

(** ** Changes to one file *)

Lemma apply_changes_app (workingContent : str) (cs1 cs2 : list change) :
  apply_changes workingContent (cs1 ++ cs2)
  = let '(w1, n1) := apply_changes workingContent cs1 in
    let '(w2, n2) := apply_changes w1 cs2 in
    (w2, n1 ++ n2).
Proof.
  revert workingContent. induction cs1 as [|c cs1 IH]; intros workingContent.
  - cbn [app apply_changes]. by destruct (apply_changes workingContent cs2).
  - cbn [app apply_changes].
    destruct (apply_change workingContent c) as [w n]. rewrite IH.
    destruct (apply_changes w cs1) as [w1 n1].
    destruct (apply_changes w1 cs2) as [w2 n2].
    by rewrite (assoc_L (++)).
Qed.

(** X8: the changes to one file are applied in sequence, each to the result
    of the one before; a FULL_REWRITE among them discards the content of the
    file and the result of every change before it, whose warnings are shown
    all the same. *)
Theorem full_rewrite_discards_earlier_changes
    (workingContent : str) (before after : list change) (c : change) :
  type c = T_FULL_REWRITE ->
  apply_changes workingContent (before ++ c :: after)
  = ((apply_changes (content c) after).1,
     (apply_changes workingContent before).2 ++ (apply_changes (content c) after).2).
Proof.
  intros Hty. rewrite apply_changes_app.
  destruct (apply_changes workingContent before) as [w1 n1].
  cbn [apply_changes]. unfold apply_change at 1. rewrite Hty.
  rewrite bool_decide_eq_true_2 by done.
  by destruct (apply_changes (content c) after).
Qed.

Lemma full_rewrite_discards_earlier_changes_witness :
  apply_changes (lit "old")
    ([Change (lit "a.ts") T_DIFF
        (text ["<<<<<<< SEARCH"; "gone"; "======="; "x"; ">>>>>>> REPLACE"]%string)]
     ++ Change (lit "a.ts") T_FULL_REWRITE (lit "new") :: [])
  = (lit "new", [WARN_NOT_FOUND]).
Proof.
  apply (full_rewrite_discards_earlier_changes (lit "old")
           [Change (lit "a.ts") T_DIFF
              (text ["<<<<<<< SEARCH"; "gone"; "======="; "x"; ">>>>>>> REPLACE"]%string)]
           [] (Change (lit "a.ts") T_FULL_REWRITE (lit "new"))).
  reflexivity.
Defined.

(** ** The coercion *)

(** X9: the coercion settles after one step, it leaves a value with a truthy
    [status] as it is, and after it a value whose [code_changes] is an array
    always has a truthy [status]: a [status] that is present but falsy
    ([null], [false], [0], the empty string) is overwritten with COMPLETED. *)
Theorem coerce_settles_status (parsed : json) :
  coerce (coerce parsed) = coerce parsed
  /\ (truthy_opt (prop parsed K_status) = true -> coerce parsed = parsed)
  /\ (isArray_opt (prop (coerce parsed) K_code_changes) = true ->
      truthy_opt (prop (coerce parsed) K_status) = true).
Proof.
  assert (forall v, prop v K_status = None -> prop v K_code_changes = None ->
                    isArray v = false ->
                    coerce (coerce v) = coerce v
                    /\ (truthy_opt (prop v K_status) = true -> coerce v = v)
                    /\ (isArray_opt (prop (coerce v) K_code_changes) = true ->
                        truthy_opt (prop (coerce v) K_status) = true)) as Hplain.
  { intros v Hs Hc Ha.
    assert (coerce v = v) as E.
    { unfold coerce. by rewrite Ha, Hc, andb_false_r. }
    rewrite !E, Hc. by split_and!. }
  destruct parsed as [|b|n|s|items|fields]; try (by apply Hplain).
  { split_and!; [reflexivity | by intros [=] | by intros _; vm_compute]. }
  assert (coerce (JObj fields)
          = if negb (truthy_opt (obj_get fields K_status))
               && isArray_opt (obj_get fields K_code_changes)
            then JObj (obj_set fields K_status (JStr S_COMPLETED))
            else JObj fields) as E by done.
  cbn [prop].
  destruct (truthy_opt (obj_get fields K_status)) eqn:Hs; cbn [negb andb] in E.
  { rewrite !E. cbn [prop]. by rewrite Hs. }
  destruct (isArray_opt (obj_get fields K_code_changes)) eqn:Hc.
  - assert (coerce (JObj (obj_set fields K_status (JStr S_COMPLETED)))
            = JObj (obj_set fields K_status (JStr S_COMPLETED))) as E'.
    { unfold coerce. cbn [isArray truthy andb prop].
      by rewrite obj_get_set_eq. }
    rewrite !E, E'. cbn [prop]. by rewrite obj_get_set_eq.
  - rewrite !E. cbn [prop]. by rewrite Hc.
Qed.

Lemma coerce_settles_status_witness :
  let parsed := JObj [(K_status, JNull); (K_code_changes, JArr [])] in
  truthy_opt (prop (coerce parsed) K_status) = true.
Proof.
  intros parsed. apply (coerce_settles_status parsed). reflexivity.
Defined.

(** ** Status [COMPLETED] *)

Section Completed.
Context {world : Type}.
Variable path_join : list str -> str.
Variable path_dirname : str -> str.
Variable existsSync : world -> str -> bool.
Variable mkdirSync : str -> world -> bool * world.
Variable copyFileSync : str -> str -> world -> bool * world.
Variable openTextDocument : str -> world -> option str * world.
Variable generateSystemPrompt : str -> list str -> str.
Variable applyEdit : list edit_op -> world -> bool * world.
Variables workspaceRoot goal : str.



Lemma group_entries_null (pre post : list json) (m : changes_map) :
  Forall (fun e => decode_entry e <> EntryUntyped) pre ->
  group_entries (pre ++ JNull :: post) m = GroupThrow.
Proof.
  intros H. revert m. induction H as [|e pre He _ IH]; intros m; [done|].
  cbn [app group_entries]. destruct (decode_entry e); by try apply IH.
Qed.

Lemma dispatch_completed (st : state) (w : world) (data : json) :
  prop data K_status = Some (JStr S_COMPLETED) ->
  dispatch path_join path_dirname existsSync mkdirSync copyFileSync openTextDocument
    generateSystemPrompt applyEdit workspaceRoot goal st w data
  = handle_completed path_join path_dirname existsSync mkdirSync copyFileSync
      openTextDocument applyEdit workspaceRoot st w data.
Proof.
  intros Hs. unfold dispatch. rewrite Hs.
  rewrite bool_decide_eq_true_2 by done. by destruct data.
Qed.


(** X11: a [null] entry in [code_changes] makes the handler throw while it
    groups the entries, before any file is read or edited: the round, the
    files and the documents are as before and nothing is shown, whatever
    the entries before and after it. *)
Theorem completed_null_entry_throws_before_any_edit
    (st : state) (w : world) (data : json) (pre post : list json) :
  prop data K_status = Some (JStr S_COMPLETED) ->
  prop data K_code_changes = Some (JArr (pre ++ JNull :: post)) ->
  Forall (fun e => decode_entry e <> EntryUntyped) pre ->
  dispatch path_join path_dirname existsSync mkdirSync copyFileSync openTextDocument
    generateSystemPrompt applyEdit workspaceRoot goal st w data
  = Some (Outcome st w [] Throw).
Proof.
  intros Hs Hc Hpre. rewrite dispatch_completed by done.
  unfold handle_completed. rewrite Hc. by rewrite group_entries_null.
Qed.

(** X12: when the editor refuses the workspace edit that was prepared for
    at least one file, the round is not advanced and no snapshot is staged:
    the state is unchanged, the world is the one [applyEdit] left, and the
    last message is the error. *)
Theorem completed_failed_edit_keeps_round
    (st : state) (w w0 w1 : world) (data : json) (items : list json)
    (m : changes_map) (edit : list edit_op) (appliedCount : nat)
    (shown : list notification) :
  prop data K_status = Some (JStr S_COMPLETED) ->
  prop data K_code_changes = Some (JArr items) ->
  group_entries items [] = Grouped m ->
  prepare_files path_join path_dirname existsSync mkdirSync openTextDocument
    workspaceRoot w m = (edit, appliedCount, shown, w0) ->
  0 < appliedCount ->
  applyEdit edit w0 = (false, w1) ->
  dispatch path_join path_dirname existsSync mkdirSync copyFileSync openTextDocument
    generateSystemPrompt applyEdit workspaceRoot goal st w data
  = Some (Outcome st w1 (shown ++ [ERR_APPLY_FAILED]) (Return COMPLETED)).
Proof.
  intros Hs Hc Hg Hp Hn Hfail. rewrite dispatch_completed by done.
  unfold handle_completed. rewrite Hc, Hg, Hp.
  rewrite (proj2 (Nat.ltb_lt 0 appliedCount) Hn). by rewrite Hfail.
Qed.


End Completed.


Lemma completed_null_entry_throws_before_any_edit_witness :
  dispatch example_join example_dirname example_existsSync example_mkdirSync
    example_copyFileSync example_openTextDocument example_prompt example_applyEdit
    (lit "/work") (lit "goal") example_state1 example_world1
    (JObj [(K_status, JStr S_COMPLETED);
           (K_code_changes,
            JArr ([JObj [(K_file_path, JStr (lit "src/a.ts"));
                         (K_type, JStr T_FULL_REWRITE);
                         (K_content, JStr (lit "B"))]] ++ JNull :: []))])
  = Some (Outcome example_state1 example_world1 [] Throw).
Proof.
  apply (completed_null_entry_throws_before_any_edit example_join example_dirname
           example_existsSync example_mkdirSync example_copyFileSync
           example_openTextDocument example_prompt
           example_applyEdit (lit "/work") (lit "goal") example_state1 example_world1
           _ [JObj [(K_file_path, JStr (lit "src/a.ts"));
                    (K_type, JStr T_FULL_REWRITE);
                    (K_content, JStr (lit "B"))]] []); [reflexivity..|].
  apply Forall_singleton. by vm_compute.
Defined.

Lemma completed_failed_edit_keeps_round_witness :
  dispatch example_join example_dirname example_existsSync example_mkdirSync
    example_copyFileSync example_openTextDocument example_prompt refusing_applyEdit
    (lit "/work") (lit "goal") example_state1 example_world1 completed_value
  = Some (Outcome example_state1 example_world1 [ERR_APPLY_FAILED] (Return COMPLETED)).
Proof.
  apply (completed_failed_edit_keeps_round example_join example_dirname
           example_existsSync example_mkdirSync example_copyFileSync
           example_openTextDocument example_prompt refusing_applyEdit
           (lit "/work") (lit "goal") example_state1
           example_world1 example_world1 example_world1 completed_value
           [JObj [(K_file_path, JStr (lit "src/a.ts"));
                  (K_type, JStr T_FULL_REWRITE);
                  (K_content, JStr (lit "B"))]]
           [(lit "src/a.ts", [Change (lit "src/a.ts") T_FULL_REWRITE (lit "B")])]
           [EditReplace (lit "/work/src/a.ts") (lit "B")] 1 []);
    try reflexivity. lia.
Defined.


(** ** The snapshot *)

(** X14: the snapshot of a round is taken from the files as they are saved
    on disk, by [copyFileSync] alone; the editor is not asked.  When the
    directory of the new round is made and the modified paths exist during
    the snapshot as they do before it, each modified file that exists is
    copied to its flat name in the round directory, in the order of the
    files, and the loop ends at the first copy that throws; only when no
    copy throws does the state take the new round directory and the review
    prompt. *)
Theorem snapshot_round_copies_saved_content
    (world : Type) (path_join : list str -> str)
    (existsSync : world -> str -> bool)
    (mkdirSync : str -> world -> bool * world)
    (copyFileSync : str -> str -> world -> bool * world)
    (workspaceRoot : str) (st : state) (w w1 : world) (modifiedFiles : list str) :
  let round := S (currentRound st) in
  let roundDir := round_dir path_join st round in
  let existing :=
    List.filter (fun fp => existsSync w (path_join [workspaceRoot; fp]))
      modifiedFiles in
  let copies := staged_copy path_join workspaceRoot roundDir <$> existing in
  let copied := copy_each copyFileSync copies w1 in
  mkdirSync roundDir w = (true, w1) ->
  (forall v fp, v ∈ copy_worlds copyFileSync copies w1 -> fp ∈ modifiedFiles ->
     existsSync v (path_join [workspaceRoot; fp])
     = existsSync w (path_join [workspaceRoot; fp])) ->
  snapshot_round path_join existsSync mkdirSync copyFileSync workspaceRoot st w
    modifiedFiles
  = (if copied.1
     then State round (currentStagingRoot st) roundDir REVIEW_PROMPT
     else State round (currentStagingRoot st) (currentRoundDir st)
            (lastSystemPrompt st),
     copied.2).
Proof.
  intros round roundDir existing copies copied Hmk Hstable.
  unfold snapshot_round. fold round. fold roundDir. rewrite Hmk.
  rewrite (snapshot_files_copies path_join existsSync copyFileSync workspaceRoot
             roundDir (fun fp => existsSync w (path_join [workspaceRoot; fp]))
             modifiedFiles w1 Hstable).
  fold existing. fold copies. fold copied. by destruct copied as [[] w2].
Qed.

Lemma snapshot_round_copies_saved_content_witness :
  let w :=
    ExampleWorld [(lit "/work/src/a.ts", File (lit "A"))]
      [(lit "/work/src/a.ts", lit "B")] in
  snapshot_round example_join example_existsSync example_mkdirSync
    example_copyFileSync (lit "/work") example_state1 w
    [lit "src/a.ts"; lit "src/gone.ts"]
  = (example_state2,
     ExampleWorld
       [(lit "/work/src/a.ts", File (lit "A"));
        (lit "/tmp/stage/round_2", Directory);
        (lit "/tmp/stage/round_2/src__a.ts.txt", File (lit "A"))]
       [(lit "/work/src/a.ts", lit "B")]).
Proof.
  intros w.
  apply (snapshot_round_copies_saved_content example_world example_join
           example_existsSync example_mkdirSync example_copyFileSync (lit "/work")
           example_state1 w
           (ExampleWorld
              [(lit "/work/src/a.ts", File (lit "A"));
               (lit "/tmp/stage/round_2", Directory)]
              [(lit "/work/src/a.ts", lit "B")])
           [lit "src/a.ts"; lit "src/gone.ts"]).
  - reflexivity.
  - intros v fp Hv Hfp. vm_compute in Hv.
    repeat (apply elem_of_cons in Hv as [->|Hv]); try (by apply elem_of_nil in Hv);
      repeat (apply elem_of_cons in Hfp as [->|Hfp]);
      try (by apply elem_of_nil in Hfp); reflexivity.
Defined.

(** ** What every call keeps *)

Section Invariants.
Context {world : Type}.
Variable JSON_parse : str -> option json.
Variable path_join : list str -> str.
Variable path_dirname : str -> str.
Variable existsSync : world -> str -> bool.
Variable mkdirSync : str -> world -> bool * world.
Variable copyFileSync : str -> str -> world -> bool * world.
Variable openTextDocument : str -> world -> option str * world.
Variable generateSystemPrompt : str -> list str -> str.
Variable applyEdit : list edit_op -> world -> bool * world.
Variables workspaceRoot goal : str.

Lemma snapshot_round_state (st : state) (w : world) (files : list str) :
  let st' :=
    (snapshot_round path_join existsSync mkdirSync copyFileSync workspaceRoot st w
       files).1 in
  st' = State (S (currentRound st)) (currentStagingRoot st)
          (round_dir path_join st (S (currentRound st))) REVIEW_PROMPT
  \/ st' = State (S (currentRound st)) (currentStagingRoot st) (currentRoundDir st)
             (lastSystemPrompt st).
Proof.
  unfold snapshot_round.
  destruct (mkdirSync _ w) as [[] w1]; [|by right].
  destruct (snapshot_files _ _ _ _ _ _ w1) as [[] w2]; [by left | by right].
Qed.

Lemma handle_completed_state (st : state) (w : world) (data : json)
    (o : outcome world) :
  handle_completed path_join path_dirname existsSync mkdirSync copyFileSync
    openTextDocument applyEdit workspaceRoot st w data = Some o ->
  (out_state o = st
   \/ out_state o
      = State (S (currentRound st)) (currentStagingRoot st)
          (round_dir path_join st (S (currentRound st))) REVIEW_PROMPT
   \/ out_state o
      = State (S (currentRound st)) (currentStagingRoot st) (currentRoundDir st)
          (lastSystemPrompt st))
  /\ (out_result o = Throw -> out_state o = st /\ out_world o = w /\ out_shown o = [])
  /\ (out_result o = Throw \/ out_result o = Return COMPLETED).
Proof.
  unfold handle_completed.
  destruct (prop data K_code_changes) as [[| | | |items|]|];
    try (intros [= <-]; cbn; split_and!; by auto).
  destruct (group_entries items []) as [| |m];
    [intros [= <-]; cbn; split_and!; by auto|done|].
  destruct (prepare_files _ _ _ _ _ _ w m) as [[[edit n] shown] w0].
  destruct (0 <? n); [|intros [= <-]; cbn; split_and!; by auto].
  destruct (applyEdit edit w0) as [[] w1]; [|intros [= <-]; cbn; split_and!; by auto].
  pose proof (snapshot_round_state st w1 (m.*1)) as Hst. cbv zeta in Hst.
  destruct (snapshot_round _ _ _ _ _ st w1 (m.*1)) as [st' w2].
  intros [= <-]. cbn in *. split_and!; [|done|by auto].
  destruct Hst as [->| ->]; by auto.
Qed.



End Invariants.


(** ** White space around a response *)

(** X16: white space around the pasted response is ignored: the handler gives
    the same outcome for a response and for the same response between runs
    of white space, by [jsonText.trim()]. *)
Theorem handleAIResponse_ignores_outer_white_space
    (world : Type) (JSON_parse : str -> option json) (path_join : list str -> str)
    (path_dirname : str -> str) (existsSync : world -> str -> bool)
    (mkdirSync : str -> world -> bool * world)
    (copyFileSync : str -> str -> world -> bool * world)
    (openTextDocument : str -> world -> option str * world)
    (generateSystemPrompt : str -> list str -> str)
    (applyEdit : list edit_op -> world -> bool * world)
    (before jsonText after workspaceRoot goal : str) (st : state) (w : world) :
  Forall (fun c => is_ws c = true) before ->
  Forall (fun c => is_ws c = true) after ->
  handleAIResponse JSON_parse path_join path_dirname existsSync mkdirSync
    copyFileSync openTextDocument generateSystemPrompt applyEdit
    (before ++ jsonText ++ after) workspaceRoot goal st w
  = handleAIResponse JSON_parse path_join path_dirname existsSync mkdirSync
      copyFileSync openTextDocument generateSystemPrompt applyEdit
      jsonText workspaceRoot goal st w.
Proof.
  intros Ha Hb. unfold handleAIResponse, parse_response, extract_json.
  by rewrite trim_ws_app.
Qed.

Lemma handleAIResponse_ignores_outer_white_space_witness :
  handleAIResponse example_parse example_join example_dirname example_existsSync
    example_mkdirSync example_copyFileSync example_openTextDocument example_prompt
    example_applyEdit
    ([LF] ++ done_text ++ lit "  " ++ [CR; LF]) (lit "/work") (lit "goal")
    example_state1 example_world1
  = handleAIResponse example_parse example_join example_dirname example_existsSync
      example_mkdirSync example_copyFileSync example_openTextDocument example_prompt
      example_applyEdit
      done_text (lit "/work") (lit "goal") example_state1 example_world1.
Proof.
  apply (handleAIResponse_ignores_outer_white_space example_world example_parse
           example_join example_dirname example_existsSync example_mkdirSync
           example_copyFileSync example_openTextDocument
           example_prompt example_applyEdit [LF] done_text (lit "  " ++ [CR; LF])).
  - by apply Forall_singleton.
  - repeat (apply Forall_cons_2; [done|]). apply Forall_nil_2.
Defined.

(** ** Responses that the repair leaves alone *)

Lemma occurs_app_r (p a s : str) : occurs p s -> occurs p (a ++ s).
Proof.
  intros (pre & post & ->). exists (a ++ pre), post. by rewrite <- (assoc_L (++)).
Qed.

Lemma occurs_app_l (p s b : str) : occurs p s -> occurs p (s ++ b).
Proof.
  intros (pre & post & ->). exists pre, (post ++ b). by rewrite <- !(assoc_L (++)).
Qed.

Lemma occurs_here (p s : str) : occurs p (p ++ s).
Proof. by exists [], s. Qed.

Lemma contentRegex_here_markers (s g1 rest : str) :
  contentRegex_here s = Some (g1, rest) ->
  occurs SEARCH_MARK s /\ occurs REPLACE_MARK s.
Proof.
  unfold contentRegex_here. intros H.
  destruct (strip _ s) as [r0|] eqn:E0; [|done]. cbn [mbind option_bind] in H.
  destruct (strip _ (trimStart r0)) as [r1|] eqn:E1; [|done].
  cbn [mbind option_bind] in H.
  destruct (strip _ (trimStart r1)) as [r2|] eqn:E2; [|done].
  cbn [mbind option_bind] in H.
  destruct (strip SEARCH_MARK r2) as [r3|] eqn:E3; [|done].
  cbn [mbind option_bind] in H.
  destruct (lazy_any _ r3) as [[g rest']|] eqn:E4; [|done].
  cbn [mbind option_bind] in H. clear H.
  apply strip_Some in E0, E1, E2, E3.
  apply lazy_any_Some in E4 as (r & -> & E4). apply strip_Some in E4.
  destruct (trimStart_suffix r0) as [ws0 Hr0], (trimStart_suffix r1) as [ws1 Hr1].
  assert (occurs SEARCH_MARK r2 /\ occurs REPLACE_MARK r2) as [Hs Hr].
  { rewrite E3. split; [apply occurs_here|].
    apply occurs_app_r, occurs_app_r. rewrite E4, <- (assoc_L (++)).
    apply occurs_here. }
  rewrite E0, Hr0, E1, Hr1, E2.
  split; repeat apply occurs_app_r; done.
Qed.

(** X17: a response that holds no opening marker of a search/replace block,
    or no closing marker, goes through the repair unchanged: only [content]
    fields that hold a whole block are ever rewritten. *)
Theorem normalizeJsonLikeResponse_without_blocks_is_identity (t : str) :
  ~ occurs SEARCH_MARK t \/ ~ occurs REPLACE_MARK t ->
  normalizeJsonLikeResponse t = t.
Proof.
  induction t as [|c t IH]; intros H; rewrite normalizeJsonLikeResponse_unfold.
  - destruct (contentRegex_here []) as [[g1 rest]|] eqn:E; [|done].
    apply contentRegex_here_markers in E as [? ?]. by destruct H.
  - destruct (contentRegex_here (c :: t)) as [[g1 rest]|] eqn:E.
    + apply contentRegex_here_markers in E as [? ?]. by destruct H.
    + rewrite IH; [done|].
      destruct H as [H|H]; [left|right]; intros Ho; apply H;
        by apply (occurs_app_r _ [c]).
Qed.

Lemma normalizeJsonLikeResponse_without_blocks_is_identity_witness :
  normalizeJsonLikeResponse need_context_text = need_context_text.
Proof.
  apply normalizeJsonLikeResponse_without_blocks_is_identity.
  left. apply not_occurs_indexOf. by vm_compute.
Defined.

(** ** The escaping of a repaired field *)

Lemma esc_cons (c : ascii) (g : str) :
  esc (c :: g)
  = (if Ascii.eqb c BACKSLASH then [BACKSLASH; BACKSLASH]
     else if Ascii.eqb c QUOTE then [BACKSLASH; QUOTE] else [c]) ++ esc g.
Proof.
  unfold esc, escape_quotes, escape_backslashes.
  cbn [mbind list_bind]. rewrite bind_app.
  fold (mbind (M := list) (fun c => if Ascii.eqb c QUOTE then [BACKSLASH; QUOTE] else [c])).
  f_equal. destruct (Ascii.eqb_spec c BACKSLASH) as [->|Hc]; [done|].
  cbn [mbind list_bind app]. by destruct (Ascii.eqb c QUOTE).
Qed.

Lemma esc_injective (g g' : str) : esc g = esc g' -> g = g'.
Proof.
  revert g'. induction g as [|c g IH]; intros [|c' g'].
  - done.
  - rewrite esc_cons. unfold esc at 1. cbn [mbind list_bind].
    by destruct (Ascii.eqb c' BACKSLASH), (Ascii.eqb c' QUOTE).
  - rewrite esc_cons. unfold esc at 2. cbn [mbind list_bind].
    by destruct (Ascii.eqb c BACKSLASH), (Ascii.eqb c QUOTE).
  - rewrite !esc_cons.
    destruct (Ascii.eqb_spec c BACKSLASH) as [->|Hb];
      destruct (Ascii.eqb_spec c' BACKSLASH) as [->|Hb'].
    + intros [= E]. by rewrite (IH g' E).
    + destruct (Ascii.eqb_spec c' QUOTE) as [->|Hq']; [done|].
      intros [= E _]. by destruct Hb'.
    + destruct (Ascii.eqb_spec c QUOTE) as [->|Hq]; [done|].
      intros [= E _]. by destruct Hb.
    + destruct (Ascii.eqb_spec c QUOTE) as [->|Hq];
        destruct (Ascii.eqb_spec c' QUOTE) as [->|Hq'].
      * intros [= E]. by rewrite (IH g' E).
      * intros [= E _]. by destruct Hb'.
      * intros [= E _]. by destruct Hb.
      * intros [= -> E]. by rewrite (IH g' E).
Qed.

(** X18: the two replacements that escape a repaired field amount to one
    pass over the group: a backslash is doubled, a quote gets a backslash,
    every other character is kept; the backslash put before a quote is not
    doubled in turn.  The escaping loses nothing (two groups with the same
    escaped text are equal), and it changes exactly the groups that hold a
    backslash or a quote. *)
Theorem esc_is_one_pass_and_injective :
  (forall g : str,
     esc g = c ← g; if Ascii.eqb c BACKSLASH then [BACKSLASH; BACKSLASH]
                    else if Ascii.eqb c QUOTE then [BACKSLASH; QUOTE] else [c])
  /\ (forall g g' : str, esc g = esc g' -> g = g')
  /\ (forall g : str, esc g = g <-> (BACKSLASH ∉ g) /\ (QUOTE ∉ g)).
Proof.
  split_and!.
  - induction g as [|c g IH]; [done|]. rewrite esc_cons, IH. done.
  - apply esc_injective.
  - intros g. split.
    + induction g as [|c g IH]; intros E.
      * split; apply not_elem_of_nil.
      * rewrite esc_cons in E.
        assert (length g <= length (esc g)) as Hlen.
        { clear. induction g as [|c g IH]; [done|]. rewrite esc_cons, length_app.
          destruct (Ascii.eqb c BACKSLASH), (Ascii.eqb c QUOTE); simpl; lia. }
        destruct (Ascii.eqb_spec c BACKSLASH) as [->|Hb].
        { apply (f_equal length) in E. simpl in E. lia. }
        destruct (Ascii.eqb_spec c QUOTE) as [->|Hq].
        { apply (f_equal length) in E. simpl in E. lia. }
        injection E as E. destruct (IH E) as [? ?].
        split; apply not_elem_of_cons; by split; [apply not_eq_sym|].
    + intros [Hb Hq]. induction g as [|c g IH]; [done|].
      apply not_elem_of_cons in Hb as [Hb Hb'], Hq as [Hq Hq'].
      rewrite esc_cons, IH by done.
      destruct (Ascii.eqb_spec c BACKSLASH) as [->|_]; [done|].
      by destruct (Ascii.eqb_spec c QUOTE) as [->|_].
Qed.

Lemma esc_is_one_pass_and_injective_witness : esc (lit "line2") = lit "line2".
Proof.
  apply (proj2 (proj2 esc_is_one_pass_and_injective)).
  split; apply (bool_decide_unpack _); by vm_compute.
Defined.

(** ** The blocks of a converted envelope *)

Lemma hunks_of_envelope_no_LF (patch targetFile : str) :
  Forall (Forall (fun l => LF ∉ l)) (hunks_of_envelope patch targetFile).
Proof.
  rewrite hunks_of_envelope_loop.
  apply envelope_hunks_no_LF; [apply split_lines_no_LF | apply Forall_nil_2].
Qed.

Lemma patchEnvelopeToDiffForFile_text (patch targetFile : str) :
  patchEnvelopeToDiffForFile patch targetFile
  = join [LF] (hunk_text <$> hunks_of_envelope patch targetFile).
Proof. by rewrite patchEnvelopeToDiffForFile_hunks, hunks_of_envelope_loop. Qed.

Lemma apply_block_empty_search (result replace : str) :
  apply_block result [] replace = (replace ++ normalize result, []).
Proof.
  unfold apply_block. cbn [normalize startsWith].
  by destruct (normalize result).
Qed.

(** X19: the conversion writes one search/replace block for each hunk of the
    sections of the target file that holds a hunk line, in order, joined by
    line feeds; and for an envelope whose hunk lines read back as written,
    the blocks that [applySearchReplace] finds in that text are the search
    and replacement texts of those hunks. *)
Theorem patchEnvelopeToDiffForFile_blocks_are_the_hunks (patch targetFile : str) :
  patchEnvelopeToDiffForFile patch targetFile
  = join [LF] (hunk_text <$> hunks_of_envelope patch targetFile)
  /\ (clean_envelope patch targetFile = true ->
      diff_blocks (patchEnvelopeToDiffForFile patch targetFile)
      = hunk_block <$> hunks_of_envelope patch targetFile).
Proof.
  split; [apply patchEnvelopeToDiffForFile_text|].
  intros Hclean. rewrite patchEnvelopeToDiffForFile_text.
  apply diff_blocks_hunks; [apply hunks_of_envelope_no_LF | exact Hclean].
Qed.

Lemma patchEnvelopeToDiffForFile_blocks_are_the_hunks_witness :
  diff_blocks (patchEnvelopeToDiffForFile example_patch (lit "src/a.ts"))
  = hunk_block <$> hunks_of_envelope example_patch (lit "src/a.ts").
Proof.
  apply (patchEnvelopeToDiffForFile_blocks_are_the_hunks example_patch (lit "src/a.ts")).
  by vm_compute.
Defined.

(** X20: a block with an empty search text is found at the start of the
    file: the replacement is put in front of the content, with nothing
    between them.  So a hunk that only adds lines puts them, joined by line
    feeds, directly in front of the first line of the file. *)
Theorem hunk_of_added_lines_goes_in_front
    (workingContent patch targetFile : str) (hunk : list str) :
  hunks_of_envelope patch targetFile = [hunk] ->
  clean_hunk hunk = true ->
  search_lines hunk = [] ->
  apply_change workingContent (Change targetFile T_PATCH patch)
  = (join [LF] (replace_lines hunk) ++ normalize workingContent, []).
Proof.
  intros Hh Hclean Hsearch.
  unfold apply_change. cbn [type content file_path].
  rewrite bool_decide_eq_false_2 by done.
  rewrite bool_decide_eq_false_2 by done.
  rewrite bool_decide_eq_true_2 by done.
  rewrite applySearchReplace_blocks, patchEnvelopeToDiffForFile_text.
  pose proof (hunks_of_envelope_no_LF patch targetFile) as Hlf.
  rewrite Hh in *.
  rewrite diff_blocks_hunks; [|done|by cbn [forallb]; rewrite Hclean].
  cbn [fmap list_fmap apply_blocks]. unfold hunk_block. rewrite Hsearch.
  cbn [join]. by rewrite apply_block_empty_search, app_nil_r.
Qed.

Lemma hunk_of_added_lines_goes_in_front_witness :
  apply_change (lit "first line")
    (Change (lit "f") T_PATCH
       (text ["*** Begin Patch"; "*** Update File: f"; "@@"; "+added"; "+lines";
              "*** End Patch"]%string))
  = (text ["added"; "linesfirst line"]%string, []).
Proof.
  apply (hunk_of_added_lines_goes_in_front (lit "first line")
           (text ["*** Begin Patch"; "*** Update File: f"; "@@"; "+added"; "+lines";
                  "*** End Patch"]%string)
           (lit "f") [lit "+added"; lit "+lines"]); by vm_compute.
Defined.

(** ** Fences *)

Lemma startsWith_FENCE (s : str) :
  startsWith s FENCE = true -> exists r, s = FENCE ++ r.
Proof. intros H. apply startsWith_prefix in H as [r ->]. by exists r. Qed.

Lemma cut_first_unfold (p s : str) :
  cut_first p s
  = if startsWith s p then Some ([], drop (length p) s)
    else match s with
         | [] => None
         | c :: s' => '(a, b) ← cut_first p s'; Some (c :: a, b)
         end.
Proof. by destruct s. Qed.

Lemma cut_first_FENCE (x rest : str) :
  ~ occurs FENCE x -> last x <> Some BACKTICK ->
  cut_first FENCE (x ++ FENCE ++ rest) = Some (x, rest).
Proof.
  induction x as [|c x IH]; intros Hocc Hlast.
  - rewrite cut_first_unfold. cbn [app]. by rewrite startsWith_app.
  - rewrite cut_first_unfold.
    assert (startsWith ((c :: x) ++ FENCE ++ rest) FENCE = false) as ->.
    { apply not_true_is_false. intros H. apply startsWith_FENCE in H as [r Hr].
      destruct x as [|d [|e x]].
      - injection Hr as -> _. by destruct Hlast.
      - injection Hr as -> -> _. by destruct Hlast.
      - injection Hr as -> -> -> _. apply Hocc. by exists [], x. }
    cbn [app]. rewrite IH; [done| |].
    + intros Ho. apply Hocc. by apply (occurs_app_r _ [c]).
    + destruct x; [done|]. by rewrite last_cons_cons in Hlast.
Qed.

Lemma cut_first_None (p s : str) : ~ occurs p s -> cut_first p s = None.
Proof.
  intros H. rewrite cut_first_indexOf.
  destruct (indexOf s p) as [i|] eqn:E; [|done].
  destruct H. apply indexOf_Some in E as (E & _ & _).
  apply startsWith_prefix in E as [r E].
  exists (take i s), r. by rewrite <- E, take_drop.
Qed.

Lemma cut_first_skip (c : ascii) (s : str) :
  c <> BACKTICK ->
  cut_first FENCE (c :: s) = '(a, b) ← cut_first FENCE s; Some (c :: a, b).
Proof.
  intros Hc. rewrite cut_first_unfold.
  assert (startsWith (c :: s) FENCE = false) as ->; [|done].
  change (startsWith (c :: s) FENCE)
    with (if Ascii.eqb BACKTICK c then startsWith s (lit "``") else false).
  destruct (Ascii.eqb_spec BACKTICK c) as [E|_]; [by destruct Hc|done].
Qed.

Lemma strip_trailing_fence_none (s : str) :
  ~ occurs FENCE s -> strip_trailing_fence s = s.
Proof.
  induction s as [|c s IH]; intros H.
  - done.
  - cbn [strip_trailing_fence]. unfold trailing_fence_here.
    rewrite bool_decide_eq_false_2.
    + rewrite IH; [done|]. intros Ho. apply H. by apply (occurs_app_r _ [c]).
    + intros E. apply H. destruct (trimStart_suffix (c :: s)) as [ws Hws].
      rewrite Hws, E. exists ws, []. by rewrite app_nil_r.
Qed.

(** X21: a fenced block wins: when the text holds a fence, then a block,
    then a fence again, the first candidate is the block, trimmed and
    without a leading [json] tag, whatever stands before the first fence and
    after the second; so when the block parses, it is the value extracted.
    (The first two fences are read where they stand when no run of three
    back-ticks begins earlier: the text before each of them holds no fence
    and does not end in a back-tick.) *)
Theorem fenced_block_is_the_first_candidate (pre mid post : str) :
  ~ occurs FENCE pre -> last pre <> Some BACKTICK ->
  ~ occurs FENCE mid -> last mid <> Some BACKTICK ->
  let t := pre ++ FENCE ++ mid ++ FENCE ++ post in
  let block := trim (strip_json_tag (trim mid)) in
  head (candidates t) = Some block
  /\ forall (JSON_parse : str -> option json) (v : json),
       block <> [] -> JSON_parse block = Some v ->
       first_parse JSON_parse (candidates t) = Some v.
Proof.
  intros Hpre Hpre' Hmid Hmid' t block.
  assert (head (candidates t) = Some block) as Hhead.
  { rewrite candidates_specified. unfold candidates_as_specified, fenced_candidate, t.
    rewrite cut_first_FENCE by done. rewrite cut_first_FENCE by done.
    unfold block. by rewrite !trim_trimmed, strip_json_tag_spec. }
  split; [done|]. intros JSON_parse v Hne Hv.
  by apply (first_parse_hit JSON_parse (candidates t) block).
Qed.

Lemma fenced_block_is_the_first_candidate_witness :
  head (candidates (lit "Here it is: " ++ FENCE ++ (lit "json" ++ [LF] ++ done_text ++ [LF])
                      ++ FENCE ++ lit " Done."))
  = Some done_text.
Proof.
  refine (proj1 (fenced_block_is_the_first_candidate (lit "Here it is: ")
                   (lit "json" ++ [LF] ++ done_text ++ [LF]) (lit " Done.") _ _ _ _)).
  - apply not_occurs_indexOf. by vm_compute.
  - by vm_compute.
  - apply not_occurs_indexOf. by vm_compute.
  - by vm_compute.
Defined.

(** X22: a response with a fence that is never closed.  When the text
    begins with the fence and a [json] tag and holds no fence after them,
    the first candidate is what follows the tag, trimmed.  When the one
    fence stands neither at the very start nor at the very end of the text,
    nothing is taken off: the first candidate is the whole text, trimmed,
    with the fence in it. *)
Theorem unclosed_json_fence_is_dropped :
  (forall body : str,
     ~ occurs FENCE body ->
     head (candidates (FENCE ++ lit "json" ++ body)) = Some (trim body))
  /\ (forall pre body : str,
        let t := pre ++ FENCE ++ body in
        ~ occurs FENCE pre -> last pre <> Some BACKTICK -> ~ occurs FENCE body ->
        ~ FENCE `prefix_of` t -> ~ FENCE `suffix_of` t ->
        head (candidates t) = Some (trim t)).
Proof.
  split.
  - intros body Hbody.
    rewrite candidates_specified. unfold candidates_as_specified, fenced_candidate.
    rewrite cut_first_unfold, startsWith_app.
    rewrite drop_app_length.
    assert (cut_first FENCE (lit "json" ++ body) = None) as ->.
    { change (lit "json" ++ body)
        with ("j"%char :: "s"%char :: "o"%char :: "n"%char :: body).
      rewrite !cut_first_skip by done.
      by rewrite (cut_first_None _ _ Hbody). }
    cbn [app head]. f_equal.
    rewrite <- strip_leading_fence_spec, <- strip_trailing_fence_spec, <- trim_trimmed.
    unfold strip_leading_fence. rewrite strip_app, strip_app. cbn [default].
    rewrite strip_trailing_fence_none.
    + unfold trim. by rewrite trimStart_idem.
    + intros Ho. apply Hbody.
      destruct (trimStart_suffix body) as [ws Hws]. rewrite Hws.
      by apply occurs_app_r.
  - intros pre body t Hpre Hlast Hbody Hstart Hend.
    rewrite candidates_specified. unfold candidates_as_specified, fenced_candidate.
    unfold t at 1. rewrite cut_first_FENCE by done.
    rewrite (cut_first_None _ _ Hbody). cbn [app head]. f_equal.
    unfold without_leading_fence, without_trailing_fence.
    rewrite (bool_decide_eq_false_2 _ Hstart), (bool_decide_eq_false_2 _ Hend).
    by rewrite trim_trimmed.
Qed.

Lemma unclosed_json_fence_is_dropped_witness :
  head (candidates (FENCE ++ lit "json" ++ ([LF] ++ done_text))) = Some done_text
  /\ head (candidates (lit "Here: " ++ FENCE ++ (lit "json" ++ [LF] ++ done_text)))
     = Some (lit "Here: " ++ FENCE ++ (lit "json" ++ [LF] ++ done_text)).
Proof.
  split.
  - refine (proj1 unclosed_json_fence_is_dropped ([LF] ++ done_text) _).
    apply not_occurs_indexOf. by vm_compute.
  - refine (proj2 unclosed_json_fence_is_dropped (lit "Here: ")
              (lit "json" ++ [LF] ++ done_text) _ _ _ _ _).
    + apply not_occurs_indexOf. by vm_compute.
    + by vm_compute.
    + apply not_occurs_indexOf. by vm_compute.
    + apply (bool_decide_unpack _). by vm_compute.
    + apply (bool_decide_unpack _). by vm_compute.
Defined.

(** ** Spans *)

Lemma cut_first_char (c : ascii) (pre rest : str) :
  c ∉ pre -> cut_first [c] (pre ++ c :: rest) = Some (pre, rest).
Proof.
  induction pre as [|d pre IH]; intros Hc.
  - cbn [app cut_first startsWith]. by rewrite Ascii.eqb_refl.
  - apply not_elem_of_cons in Hc as [Hd Hc].
    cbn [app cut_first startsWith].
    destruct (Ascii.eqb_spec c d) as [?|_]; [done|]. by rewrite IH.
Qed.

Lemma cut_last_char_None (c : ascii) (s : str) : c ∉ s -> cut_last [c] s = None.
Proof.
  induction s as [|d s IH]; intros Hc; [done|].
  apply not_elem_of_cons in Hc as [Hd Hc].
  cbn [cut_last startsWith]. rewrite IH by done.
  by destruct (Ascii.eqb_spec c d).
Qed.

Lemma cut_last_char (c : ascii) (inside post : str) :
  c ∉ post -> cut_last [c] (inside ++ c :: post) = Some (inside, post).
Proof.
  intros Hc. induction inside as [|d inside IH].
  - cbn [app cut_last startsWith]. rewrite cut_last_char_None by done.
    by rewrite Ascii.eqb_refl.
  - cbn [app cut_last]. by rewrite IH.
Qed.

(** X23: a JSON object inside prose is among the candidates: when the text
    holds no fence, no brace before the object and none after it, the
    candidates are the whole text, the bracket span if there is one, and
    last the object itself, from its opening brace to its closing brace. *)
Theorem object_in_prose_is_the_last_candidate (pre inside post : str) :
  let t := pre ++ lit "{" ++ inside ++ lit "}" ++ post in
  ~ occurs FENCE t ->
  ("{"%char ∉ pre) -> ("}"%char ∉ post) ->
  candidates t
  = [t] ++ span_candidate "[" "]" t ++ [lit "{" ++ inside ++ lit "}"].
Proof.
  intros t Hf Hpre Hpost.
  rewrite candidates_specified. unfold candidates_as_specified, fenced_candidate.
  rewrite (cut_first_None _ _ Hf). cbn [app]. f_equal. f_equal.
  unfold span_candidate, t. cbn [lit list_ascii_of_string app].
  rewrite cut_first_char by done.
  by rewrite cut_last_char by done.
Qed.

Lemma object_in_prose_is_the_last_candidate_witness :
  candidates (lit "Sure: " ++ lit "{" ++ lit "}" ++ lit "}" ++ lit " ok")
  = [lit "Sure: {}} ok"; lit "{}}"].
Proof.
  apply (object_in_prose_is_the_last_candidate (lit "Sure: ") (lit "}") (lit " ok")).
  - apply not_occurs_indexOf. by vm_compute.
  - apply (bool_decide_unpack _). by vm_compute.
  - apply (bool_decide_unpack _). by vm_compute.
Defined.

(** ** The prompt *)

Lemma generateSystemPrompt_shape (goal : str) (fileList : list str) :
  generateSystemPrompt goal fileList
  = take 204 (generateSystemPrompt [] []) ++ goal
      ++ drop 204 (generateSystemPrompt [] []).
Proof. by vm_compute. Qed.

(** X24: the prompt is the same text around the goal whatever files are
    staged: the list of files is never used, and the goal can be read back
    from the prompt.  So the prompt stored by a NEED_CONTEXT round names
    none of the files staged for it and equals the prompt of an empty
    round. *)
Theorem generateSystemPrompt_uses_the_goal_only :
  (forall (goal : str) (fileList fileList' : list str),
     generateSystemPrompt goal fileList = generateSystemPrompt goal fileList')
  /\ (forall (goal goal' : str) (fileList fileList' : list str),
        generateSystemPrompt goal fileList = generateSystemPrompt goal' fileList' ->
        goal = goal')
  /\ (forall (world : Type) (JSON_parse : str -> option json)
             (path_join : list str -> str) (path_dirname : str -> str)
             (existsSync : world -> str -> bool)
             (mkdirSync : str -> world -> bool * world)
             (copyFileSync : str -> str -> world -> bool * world)
             (openTextDocument : str -> world -> option str * world)
             (applyEdit : list edit_op -> world -> bool * world)
             (jsonText workspaceRoot goal : str) (st : state) (w : world)
             (o : outcome world),
        handleAIResponse JSON_parse path_join path_dirname existsSync mkdirSync
          copyFileSync openTextDocument generateSystemPrompt applyEdit
          jsonText workspaceRoot goal st w = Some o ->
        out_result o = Return NEED_CONTEXT ->
        lastSystemPrompt (out_state o) = generateSystemPrompt goal []).
Proof.
  split_and!.
  - done.
  - intros goal goal' fileList fileList'.
    rewrite (generateSystemPrompt_shape goal fileList),
      (generateSystemPrompt_shape goal' fileList').
    intros E. apply app_inv_head in E. by apply app_inv_tail in E.
  - intros world JSON_parse path_join path_dirname existsSync mkdirSync copyFileSync
      openTextDocument applyEdit jsonText workspaceRoot goal st w o.
    unfold handleAIResponse.
    destruct (parse_response JSON_parse jsonText) as [data|];
      [|by intros [= <-]].
    unfold dispatch.
    destruct data as [| | | | |fields]; try (by intros [= <-]).
    destruct (prop (JObj fields) K_status) as [[| | |s| |]|];
      try (by intros [= <-]).
    destruct (bool_decide (s = S_COMPLETED)).
    { intros Ho Hr.
      apply handle_completed_state in Ho as (_ & _ & [Ho|Ho]); by rewrite Ho in Hr. }
    destruct (bool_decide (s = S_NEED_CONTEXT)); [|by intros [= <-]].
    unfold handle_need_context.
    destruct (mkdirSync _ w) as [[] w0]; [|by intros [= <-]].
    destruct (stage_round _ _ _ _ _ _ w0 (JObj fields)) as [[[] w2] stagedFiles];
      by intros [= <-].
Qed.

Lemma generateSystemPrompt_uses_the_goal_only_witness :
  lastSystemPrompt
    (State 2 (lit "/tmp/stage") (lit "/tmp/stage/round_2")
       (generateSystemPrompt (lit "goal") [lit "src/a.ts"]))
  = generateSystemPrompt (lit "goal") [].
Proof.
  apply (proj2 (proj2 generateSystemPrompt_uses_the_goal_only)
           example_world example_parse example_join example_dirname
           example_existsSync example_mkdirSync example_copyFileSync
           example_openTextDocument example_applyEdit need_context_text
           (lit "/work") (lit "goal") example_state1
           (ExampleWorld [(lit "/work/src/a.ts", File (lit "A"))] [])
           (Outcome
              (State 2 (lit "/tmp/stage") (lit "/tmp/stage/round_2")
                 (generateSystemPrompt (lit "goal") [lit "src/a.ts"]))
              (ExampleWorld
                 [(lit "/work/src/a.ts", File (lit "A"));
                  (lit "/tmp/stage/round_2", Directory);
                  (lit "/tmp/stage/round_2/src__a.ts.txt", File (lit "A"))] [])
              [INFO_ROUND 2 1] (Return NEED_CONTEXT))).
  - by vm_compute.
  - reflexivity.
Defined.
